(** * The virtual-replica scheduler of eventing-kafka

    A shallow embedding of the Go packages
    [pkg/common/scheduler/state] (state snapshot builder),
    [pkg/common/scheduler/statefulset] (placement engine and scheduler
    facade) and [pkg/common/scheduler/plugins/core/podfitsresources],
    followed by the properties established about them.

    Conventions of the embedding:
    - a Go [int32]/[int64] is a [Z] and every arithmetic operation wraps
      explicitly ([add32], [sub32], ...);
    - a Go slice value is an [option (list A)]: [None] is the [nil] slice;
    - a run-time panic is the [Panic] outcome;
    - a Go [map] that the code ranges over is an association list whose
      order is the order in which that run of the program iterates it;
      maps that are only looked up, inserted into or deleted from are
      [gmap]s. *)

From Stdlib Require Import ZArith Lia Ascii String DecimalString DecimalPos DecimalN.
From stdpp Require Import gmap strings list fin_maps sorting.

Local Open Scope string_scope.
Local Open Scope list_scope.
Local Open Scope Z_scope.

(** ** Fixed-width integers *)

Module Int.

Definition wrap (bits : Z) (z : Z) : Z :=
  (z + 2 ^ (bits - 1)) mod 2 ^ bits - 2 ^ (bits - 1).

Definition MaxInt32 : Z := 2147483647.
Definition MinInt32 : Z := -2147483648.

Definition int32 (z : Z) : Z := wrap 32 z.
Definition int64 (z : Z) : Z := wrap 64 z.

Definition add32 (a b : Z) : Z := int32 (a + b).
Definition sub32 (a b : Z) : Z := int32 (a - b).
Definition mul32 (a b : Z) : Z := int32 (a * b).
Definition add64 (a b : Z) : Z := int64 (a + b).
Definition mul64 (a b : Z) : Z := int64 (a * b).

Definition in_int32 (z : Z) : Prop := MinInt32 <= z <= MaxInt32.

(** [integer.Int32Min] of k8s.io/utils/integer. *)
Definition Int32Min (a b : Z) : Z := if b <? a then b else a.

End Int.
Export Int.

(** ** Outcomes: a value, or a run-time panic *)

Inductive outcome (A : Type) : Type :=
| Ok (a : A)
| Panic.
Arguments Ok {A} a.
Arguments Panic {A}.

#[global] Instance outcome_ret : MRet outcome := fun A a => Ok a.
#[global] Instance outcome_bind : MBind outcome := fun A B k m =>
  match m with
  | Ok a => k a
  | Panic => Panic
  end.

(** ** Ordinal utilities (helpers.go) *)

Module Ordinal.

(** [strings.LastIndex(s, "-")]: scan left to right, remembering the index
    of the last dash seen so far; [-1] when there is none. *)
Fixpoint LastIndex_from (s : string) (i : Z) (found : Z) : Z :=
  match s with
  | EmptyString => found
  | String c r =>
      LastIndex_from r (i + 1) (if Ascii.eqb c "-" then i else found)
  end.

Definition LastIndexDash (s : string) : Z := LastIndex_from s 0 (-1).

(** [s[n:]] for [0 <= n <= len(s)]. *)
Fixpoint sliceFrom (n : nat) (s : string) : string :=
  match n, s with
  | O, _ => s
  | S n', String _ r => sliceFrom n' r
  | S _, EmptyString => EmptyString
  end.

(** [strconv.ParseUint(s, 10, _)] on a non-empty digit string: only the
    characters 0-9 are accepted. *)
Definition parseDigits (s : string) : option Z :=
  match s with
  | EmptyString => None
  | _ => option_map Z.of_uint (NilEmpty.uint_of_string s)
  end.

(** [strconv.ParseInt(s, 10, 32)]: an optional sign, then digits; [None]
    stands for a syntax or a range error. *)
Definition ParseInt32 (s : string) : option Z :=
  match s with
  | EmptyString => None
  | String c r =>
      if Ascii.eqb c "+" then
        match parseDigits r with
        | Some n => if n <=? MaxInt32 then Some n else None
        | None => None
        end
      else if Ascii.eqb c "-" then
        match parseDigits r with
        | Some n => if n <=? - MinInt32 then Some (- n) else None
        | None => None
        end
      else
        match parseDigits s with
        | Some n => if n <=? MaxInt32 then Some n else None
        | None => None
        end
  end.

(** [strconv.Itoa]. *)
Definition Itoa (n : Z) : string := NilZero.string_of_int (Z.to_int n).

Definition PodNameFromOrdinal (name : string) (ordinal : Z) : string :=
  name +:+ "-" +:+ Itoa ordinal.

Definition OrdinalFromPodName (podName : string) : Z :=
  match ParseInt32 (sliceFrom (Z.to_nat (LastIndexDash podName + 1)) podName) with
  | Some ordinal => int32 ordinal
  | None => MaxInt32
  end.

(** No byte of the string is a dash. *)
Definition noDash (s : string) : Prop :=
  forall c, In c (list_ascii_of_string s) -> c <> "-"%char.

End Ordinal.
Export Ordinal.

Example ordinal_of_pool_12 : OrdinalFromPodName "my-pool-12" = 12.
Proof. reflexivity. Qed.

Example ordinal_of_garbage : OrdinalFromPodName "my-pool-x" = MaxInt32.
Proof. reflexivity. Qed.

Example podname_of_7 : PodNameFromOrdinal "pool" 7 = "pool-7".
Proof. reflexivity. Qed.

(** ** The unexported helpers of the scheduler package (helpers.go) *)

Module Helpers.

(** [s[:n]]: a run-time panic unless [0 <= n <= len(s)]. *)
Definition slicePrefix (n : Z) (s : string) : outcome string :=
  if (n <? 0) || (Z.of_nat (String.length s) <? n) then Panic
  else Ok (String.substring 0 (Z.to_nat n) s).

(** [podName[:strings.LastIndex(podName, "-")-1]] *)
Definition statefulSetName (podName : string) : outcome string :=
  slicePrefix (LastIndexDash podName - 1) podName.

End Helpers.

(** ** Go maps that are ranged over: association lists *)

Module Assoc.
Section assoc.
Context {K V : Type} `{EqDecision K}.

(** [m[k]] *)
Fixpoint alookup (k : K) (m : list (K * V)) : option V :=
  match m with
  | [] => None
  | (k', v) :: r => if decide (k' = k) then Some v else alookup k r
  end.

(** [delete(m, k)] *)
Fixpoint adelete (k : K) (m : list (K * V)) : list (K * V) :=
  match m with
  | [] => []
  | (k', v) :: r =>
      if decide (k' = k) then adelete k r else (k', v) :: adelete k r
  end.

(** [m[k] = v]: an existing entry is overwritten where it stands, a new
    one takes some place in the iteration order, here the last. *)
Fixpoint ainsert (k : K) (v : V) (m : list (K * V)) : list (K * V) :=
  match m with
  | [] => [(k, v)]
  | (k', v') :: r =>
      if decide (k' = k) then (k, v) :: r else (k', v') :: ainsert k v r
  end.
End assoc.
End Assoc.
Export Assoc.

(** ** Shared data types *)

(** [duckv1alpha1.Placement] *)
Record Placement : Type := mkPlacement {
  PodName : string;
  VReplicas : Z
}.

#[global] Instance Placement_eq_dec : EqDecision Placement.
Proof. solve_decision. Defined.

(** The worker ordinal a placement is addressed by. *)
Definition ordinalOf (p : Placement) : Z := OrdinalFromPodName (PodName p).

(** [types.NamespacedName]: namespace and name. *)
Abbreviation Key := (string * string)%type (only parsing).

(** What the scheduler reads of a [scheduler.VPod]: [GetKey()],
    [GetVReplicas()] and [GetPlacements()]. *)
Record VPod : Type := mkVPod {
  GetKey : Key;
  GetVReplicas : Z;
  GetPlacements : option (list Placement)
}.

(** [len(s)], [range s] on a possibly nil slice. *)
Definition elems {A : Type} (s : option (list A)) : list A :=
  match s with
  | Some l => l
  | None => []
  end.

(** Modelled from the spec: [scheduler.SchedulerPolicyType] is a string
    type whose constants are declared in a file of the repository that
    is not part of the sources at hand; they are taken to spell as the
    enumeration [MAXFILLUP | EVENSPREAD | EVENSPREAD_BYNODE | ""]. *)
Abbreviation SchedulerPolicyType := string (only parsing).

Definition MAXFILLUP : string := "MAXFILLUP".
Definition EVENSPREAD : string := "EVENSPREAD".
Definition EVENSPREAD_BYNODE : string := "EVENSPREAD_BYNODE".

Definition isEvenSpread (p : SchedulerPolicyType) : bool :=
  bool_decide (p = EVENSPREAD) || bool_decide (p = EVENSPREAD_BYNODE).

Inductive error : Type :=
| ErrNotEnoughReplicas
| ErrValidatingPolicyFailed
| ErrListing (msg : string).

(** The reservation table [map[types.NamespacedName]map[string]int32]. *)
Abbreviation Reserved := (list (Key * list (string * Z))) (only parsing).

(** Modelled from the spec: [scheduler.GetTotalVReplicas] is declared in
    a file of the repository that is not part of the sources at hand; the
    committed total of a placement list is the int32 sum of its vreplicas. *)
Definition GetTotalVReplicas (placements : option (list Placement)) : Z :=
  fold_left (fun t p => add32 t (VReplicas p)) (elems placements) 0.

(** The exact (unbounded) sum of the vreplicas of a list. *)
Definition sumVReplicas (l : list Placement) : Z :=
  foldr (fun p t => VReplicas p + t) 0 l.

(** The data-model invariant on counts: no vreplica count is negative
    and the total of the list is an int32. *)
Definition wellFormedTotals (l : list Placement) : Prop :=
  Forall (fun p => 0 <= VReplicas p) l /\ sumVReplicas l <= MaxInt32.

(** [reserved[key][podName]], when both entries exist. *)
Definition lookupReserved (reserved : Reserved) (key : Key) (podName : string)
    : option Z :=
  alookup key reserved ≫= alookup podName.

(** Every entry of [cur] is an entry of [init], with the same value. *)
Definition subReserved (cur init : Reserved) : Prop :=
  forall key podName,
    lookupReserved cur key podName = None \/
    lookupReserved cur key podName = lookupReserved init key podName.

(** Ordinals that address a pod: non-negative, below the sentinel
    [MaxInt32] that [OrdinalFromPodName] returns for a name it cannot
    parse. *)
Definition validOrdinal (o : Z) : Prop := 0 <= o < MaxInt32.

(** ** State snapshot (state.go) *)

Module StateM.

Record State : Type := mkState {
  FreeCap : list Z;
  LastOrdinal : Z;
  Capacity : Z;
  NumZones : Z;
  NumNodes : Z;
  SchedulerPolicy : SchedulerPolicyType;
  NodeToZoneMap : gmap string string
}.

(** [slice[i]] and [slice[i] = v] with Go's bounds check. *)
Definition index {A : Type} (l : list A) (i : Z) : outcome A :=
  if i <? 0 then Panic
  else match l !! Z.to_nat i with
       | Some a => Ok a
       | None => Panic
       end.

Definition store {A : Type} (l : list A) (i : Z) (v : A) : outcome (list A) :=
  if i <? 0 then Panic
  else if (Z.to_nat i <? length l)%nat then Ok (<[Z.to_nat i := v]> l)
  else Panic.

Definition len32 {A : Type} (l : list A) : Z := int32 (Z.of_nat (length l)).

Definition grow (slice : list Z) (ordinal : Z) (def : Z) : list Z :=
  let l := len32 slice in
  let diff := add32 (sub32 ordinal l) 1 in
  if diff <=? 0 then slice
  else slice ++ replicate (Z.to_nat diff) def.

(** [Free] safely returns the free capacity at the given ordinal. *)
Definition Free (s : State) (ordinal : Z) : outcome Z :=
  if len32 (FreeCap s) <=? ordinal then Ok (Capacity s)
  else index (FreeCap s) ordinal.

Definition withFreeCap (s : State) (free : list Z) : State :=
  {| FreeCap := free; LastOrdinal := LastOrdinal s; Capacity := Capacity s;
     NumZones := NumZones s; NumNodes := NumNodes s;
     SchedulerPolicy := SchedulerPolicy s; NodeToZoneMap := NodeToZoneMap s |}.

(** [SetFree] safely sets the free capacity at the given ordinal. *)
Definition SetFree (s : State) (ordinal : Z) (value : Z) : outcome State :=
  free ← store (grow (FreeCap s) ordinal (Capacity s)) ordinal value;
  Ok (withFreeCap s free).

(** The snapshot holds fewer than 2^31 slots, so that their number is an
    int32. *)
Definition stateOK (s : State) : Prop :=
  Z.of_nat (length (FreeCap s)) <= MaxInt32.

(** The value [Free] reads at a non-negative ordinal. *)
Definition freeAt (s : State) (ordinal : Z) : Z :=
  default (Capacity s) (FreeCap s !! Z.to_nat ordinal).

(** A cluster node as the builder reads it: its name,
    [Spec.Unschedulable] and the value of the zone label, if any. *)
Record Node : Type := mkNode {
  nodeName : string;
  nodeUnschedulable : bool;
  nodeZoneLabel : option string
}.

(** [stateBuilder]: the listers are read once per build, so they are
    given by what they return. *)
Record stateBuilder : Type := mkStateBuilder {
  vpodLister : error + list VPod;
  capacity : Z;
  schedulerPolicy : SchedulerPolicyType;
  nodeLister : error + list Node
}.

Definition withReserved (key : Key) (podName : string) (committed : Z)
    (reserved : Reserved) : Z * Reserved :=
  match alookup key reserved with
  | Some rps =>
      match alookup podName rps with
      | Some rvreplicas =>
          if committed <? rvreplicas then
            (* new placement hasn't been committed yet. Adjust locally *)
            (rvreplicas, reserved)
          else if committed =? rvreplicas then
            (* new placement has been committed. *)
            let rps' := adelete podName rps in
            (committed,
             if (length rps' =? 0)%nat then adelete key reserved
             else ainsert key rps' reserved)
          else
            (* the number of vreplicas has been reduced but not committed
               yet. do nothing. *)
            (committed, reserved)
      | None => (committed, reserved)
      end
  | None => (committed, reserved)
  end.

Definition updateFreeCapacity (cap : Z) (free : list Z) (last : Z)
    (podName : string) (vreplicas : Z) : outcome (list Z * Z) :=
  let ordinal := OrdinalFromPodName podName in
  let free := grow free ordinal cap in
  f ← index free ordinal;
  free ← store free ordinal (sub32 f vreplicas);
  f ← index free ordinal;
  let last := if (last <? ordinal) && negb (f =? cap) then ordinal else last in
  Ok (free, last).

(** The accumulators of the first loop of [State]. *)
Record acc : Type := mkAcc {
  aFree : list Z;
  aLast : Z;
  aWithPlacement : gmap (string * string) (gset string);
  aReserved : list ((string * string) * list (string * Z))
}.

(** Body of the inner loop over the placements of one vpod. *)
Definition placementStep (cap : Z) (key : Key) (a : acc) (p : Placement)
    : outcome acc :=
  let podName := PodName p in
  let vreplicas := VReplicas p in
  (* Account for reserved vreplicas *)
  let '(vreplicas, reserved) := withReserved key podName vreplicas (aReserved a) in
  '(free, last) ← updateFreeCapacity cap (aFree a) (aLast a) podName vreplicas;
  Ok {| aFree := free; aLast := last;
        aWithPlacement :=
          <[key := {[podName]} ∪ default ∅ (aWithPlacement a !! key)]>
            (aWithPlacement a);
        aReserved := reserved |}.

Fixpoint placementsLoop (cap : Z) (key : Key) (a : acc) (ps : list Placement)
    : outcome acc :=
  match ps with
  | [] => Ok a
  | p :: ps' => a' ← placementStep cap key a p; placementsLoop cap key a' ps'
  end.

Definition vpodStep (cap : Z) (a : acc) (vpod : VPod) : outcome acc :=
  let a0 := {| aFree := aFree a; aLast := aLast a;
               aWithPlacement := <[GetKey vpod := ∅]> (aWithPlacement a);
               aReserved := aReserved a |} in
  placementsLoop cap (GetKey vpod) a0 (elems (GetPlacements vpod)).

Fixpoint vpodsLoop (cap : Z) (a : acc) (vpods : list VPod) : outcome acc :=
  match vpods with
  | [] => Ok a
  | vpod :: vpods' => a' ← vpodStep cap a vpod; vpodsLoop cap a' vpods'
  end.

(** Inner loop over the reserved entries of one vpod key; it is left by
    [break] at the first entry that has an observed placement. *)
Fixpoint reservedPodsLoop (cap : Z) (wp : option (gset string))
    (free : list Z) (last : Z) (ps : list (string * Z))
    : outcome (list Z * Z) :=
  match ps with
  | [] => Ok (free, last)
  | (podName, rvreplicas) :: ps' =>
      if match wp with
         | Some names => bool_decide (podName ∈ names)
         | None => false
         end
      then (* already accounted for *) Ok (free, last)
      else
        '(free, last) ← updateFreeCapacity cap free last podName rvreplicas;
        reservedPodsLoop cap wp free last ps'
  end.

Fixpoint reservedLoop (cap : Z) (withPlacement : gmap (string * string) (gset string))
    (free : list Z) (last : Z) (reserved : Reserved) : outcome (list Z * Z) :=
  match reserved with
  | [] => Ok (free, last)
  | (key, ps) :: reserved' =>
      '(free, last) ← reservedPodsLoop cap (withPlacement !! key) free last ps;
      reservedLoop cap withPlacement free last reserved'
  end.

(** The node loop of the spread policies: schedulable nodes that carry a
    zone label. *)
Fixpoint nodesLoop (nodes : list Node) (nodeToZoneMap : gmap string string)
    (zoneMap : gset string) : gmap string string * gset string :=
  match nodes with
  | [] => (nodeToZoneMap, zoneMap)
  | node :: nodes' =>
      if nodeUnschedulable node then nodesLoop nodes' nodeToZoneMap zoneMap
      else match nodeZoneLabel node with
           | None => nodesLoop nodes' nodeToZoneMap zoneMap
           | Some zoneName =>
               nodesLoop nodes' (<[nodeName node := zoneName]> nodeToZoneMap)
                         ({[zoneName]} ∪ zoneMap)
           end
  end.

(** [stateBuilder.State]: the snapshot or an error, together with the
    reservation table as the call leaves it. *)
Definition stateBuilder_State (s : stateBuilder) (reserved : Reserved)
    : outcome (Reserved * (error + State)) :=
  match vpodLister s with
  | inl err => Ok (reserved, inl err)
  | inr vpods =>
      a ← vpodsLoop (capacity s)
            {| aFree := []; aLast := -1; aWithPlacement := ∅;
               aReserved := reserved |} vpods;
      (* Account for reserved vreplicas with no prior placements *)
      '(free, last) ← reservedLoop (capacity s) (aWithPlacement a)
                        (aFree a) (aLast a) (aReserved a);
      if isEvenSpread (schedulerPolicy s) then
        match nodeLister s with
        | inl err => Ok (aReserved a, inl err)
        | inr nodes =>
            let '(nodeToZoneMap, zoneMap) := nodesLoop nodes ∅ ∅ in
            Ok (aReserved a,
                inr {| FreeCap := free; LastOrdinal := last;
                       Capacity := capacity s;
                       NumZones := int32 (Z.of_nat (size zoneMap));
                       NumNodes := int32 (Z.of_nat (size nodeToZoneMap));
                       SchedulerPolicy := schedulerPolicy s;
                       NodeToZoneMap := nodeToZoneMap |})
        end
      else
        Ok (aReserved a,
            inr {| FreeCap := free; LastOrdinal := last;
                   Capacity := capacity s; NumZones := 0; NumNodes := 0;
                   SchedulerPolicy := schedulerPolicy s;
                   NodeToZoneMap := ∅ |})
  end.

(** [FreeCapacity] returns the number of vreplicas that can be used, up
    to the last ordinal.  The loop [for i := 0; i <= LastOrdinal; i++]
    reads the slots [0 .. LastOrdinal]; when [LastOrdinal] is [MaxInt32]
    the counter then wraps to [MinInt32], the test still holds, and the
    read at that negative index panics. *)
Fixpoint FreeCapacity_loop (free : list Z) (t : Z) (idxs : list Z) : outcome Z :=
  match idxs with
  | [] => Ok t
  | i :: r => f ← index free i; FreeCapacity_loop free (add32 t f) r
  end.

Definition FreeCapacity (s : State) : outcome Z :=
  t ← FreeCapacity_loop (FreeCap s) 0 (seqZ 0 (LastOrdinal s + 1));
  if LastOrdinal s =? MaxInt32 then Panic else Ok t.

End StateM.
Export StateM.

(** ** Status and plugins (interface.go) *)

Module Plugin.

(** Code is the Status code which is returned from plugins. *)
Inductive Code : Type :=
| Success
| Unschedulable
| Error.

#[global] Instance Code_eq_dec : EqDecision Code.
Proof. solve_decision. Defined.

Definition codeRank (c : Code) : Z :=
  match c with
  | Success => 0
  | Unschedulable => 1
  | Error => 2
  end.

Record Status : Type := mkStatus {
  code : Code;
  reasons : list string;
  err : option string
}.

#[global] Instance Status_eq_dec : EqDecision Status.
Proof. solve_decision. Defined.

(** A [*Status] may be nil. *)
Definition StatusCode (s : option Status) : Code :=
  match s with
  | None => Success
  | Some s => code s
  end.

Definition Message (s : option Status) : string :=
  match s with
  | None => ""
  | Some s => String.concat ", " (reasons s)
  end.

Definition NewStatus (c : Code) (rs : list string) : Status :=
  {| code := c; reasons := rs;
     err := match c with
            | Error => Some (String.concat ", " rs)
            | _ => None
            end |}.

Definition IsSuccess (s : option Status) : bool :=
  bool_decide (StatusCode s = Success).

Definition IsUnschedulable (s : option Status) : bool :=
  bool_decide (StatusCode s = Unschedulable).

(** [AsError] of a non-nil status. *)
Definition AsError (s : Status) : option string :=
  if IsSuccess (Some s) then None
  else match err s with
       | Some e => Some e
       | None => Some (String.concat ", " (reasons s))
       end.

(** [AsStatus] wraps an error, given by its text, in a Status. *)
Definition AsStatus (e : string) : Status :=
  {| code := Error; reasons := [e]; err := Some e |}.

Record PodScore : Type := mkPodScore {
  ID : Z;
  Score : Z
}.

(** [PluginToStatus.Merge]: precedence Error, Unschedulable, Success. *)
Definition Merge (p : list (string * option Status)) : option Status :=
  match p with
  | [] => None
  | _ =>
      Some (fold_left
              (fun final '(_, s) =>
                 {| code := if codeRank (code final) <? codeRank (StatusCode s)
                            then StatusCode s else code final;
                    reasons := reasons final ++
                               match s with Some s => reasons s | None => [] end;
                    err := match s with
                           | Some s' => if bool_decide (code s' = Error)
                                        then AsError s' else err final
                           | None => err final
                           end |})
              p (NewStatus Success []))
  end.

Record FilterPlugin : Type := mkFilterPlugin {
  fpName : string;
  Filter : State -> Z -> outcome (option Status)
}.

Record ScorePlugin : Type := mkScorePlugin {
  spName : string;
  ScoreOf : State -> Z -> outcome (Z * option Status)
}.

End Plugin.
Export Plugin.

(** ** The PodFitsResources filter plugin *)

Module PodFitsResources.

Definition Name : string := "PodFitsResources".
Definition ErrReasonUnschedulable : string := "pod at full capacity".

(** Filter invoked at the filter extension point. *)
Definition Filter (states : State) (podID : Z) : outcome (option Status) :=
  if (length (FreeCap states) =? 0)%nat then
    Ok (Some (NewStatus Success []))
  else
    f ← Free states podID;
    if 0 <? f then
      (* vpods with no placements or pods with positive free cap *)
      Ok (Some (NewStatus Success []))
    else
      Ok (Some (NewStatus Unschedulable [ErrReasonUnschedulable])).

Definition plugin : FilterPlugin :=
  {| fpName := Name; Plugin.Filter := Filter |}.

End PodFitsResources.

(** ** The other plugins of the repository *)

Module NoMaxResourceCount.

Definition Name : string := "NoMaxResourceCount".

(** Filter invoked at the filter extension point. *)
Definition Filter (states : State) (podID : Z) : outcome (option Status) :=
  Ok (Some (NewStatus Success [])).

Definition plugin : FilterPlugin :=
  {| fpName := Name; Plugin.Filter := Filter |}.

End NoMaxResourceCount.

Module EvenPodSpread.

Definition Name : string := "EvenPodSpread".

(** Filter invoked at the filter extension point. *)
Definition Filter (states : State) (podID : Z) : outcome (option Status) :=
  Ok (Some (NewStatus Success [])).

Definition plugin : FilterPlugin :=
  {| fpName := Name; Plugin.Filter := Filter |}.

End EvenPodSpread.

Module LowestOrdinalPriority.

Definition Name : string := "LowestOrdinalPriority".
Definition ErrReasonNegativeScore : string := "computed score is negative".

(** Score invoked at the score extension point: the int32 value
    [(LastOrdinal + 2) * 100 - podID], converted to int64. *)
Definition Score (states : State) (podID : Z) : outcome (Z * option Status) :=
  (* lower ordinals get higher score *)
  let score := int64 (sub32 (mul32 (add32 (LastOrdinal states) 2) 100) podID) in
  if score <? 0 then
    Ok (0, Some (NewStatus Error [ErrReasonNegativeScore]))
  else Ok (score, Some (NewStatus Success [])).

(** NormalizeScore invoked after scoring all pods. *)
Definition NormalizeScore (states : State) (scores : list PodScore)
    : option Status :=
  (* no normalizing to perform for this plugin *)
  Some (NewStatus Success []).

Definition plugin : ScorePlugin :=
  {| spName := Name; ScoreOf := Score |}.

End LowestOrdinalPriority.

Module AvailabilityZonePriority.

Definition Name : string := "AvailabilityZonePriority".

(** calculatePriority returns the priority of a pod. *)
Definition calculatePriority : Z := 1.

Definition Score (states : State) (podID : Z) : outcome (Z * option Status) :=
  Ok (calculatePriority, Some (NewStatus Success [])).

Definition NormalizeScore (states : State) (scores : list PodScore)
    : option Status := None.

Definition plugin : ScorePlugin :=
  {| spName := Name; ScoreOf := Score |}.

End AvailabilityZonePriority.

Module AvailabilityNodePriority.

Definition Name : string := "AvailabilityNodePriority".

(** calculatePriority returns the priority of a pod. *)
Definition calculatePriority : Z := 1.

Definition Score (states : State) (podID : Z) : outcome (Z * option Status) :=
  Ok (calculatePriority, Some (NewStatus Success [])).

Definition NormalizeScore (states : State) (scores : list PodScore)
    : option Status := None.

Definition plugin : ScorePlugin :=
  {| spName := Name; ScoreOf := Score |}.

End AvailabilityNodePriority.

(** ** Go's sort package *)

Module Sort.
Section sort.
Context {A : Type} (less : A -> A -> bool).

(** Insert [x], which stood before every element of [l], into the
    sorted [l]: it passes the elements that are strictly less and stops
    before the first one that is not. *)
Fixpoint insertStable (x : A) (l : list A) : list A :=
  match l with
  | [] => [x]
  | y :: r => if less y x then y :: insertStable x r else x :: y :: r
  end.

(** [sort.SliceStable(l, less)]: the stable sort of [l]. *)
Fixpoint SliceStable (l : list A) : list A :=
  match l with
  | [] => []
  | x :: r => insertStable x (SliceStable r)
  end.
End sort.

(** The order of [less] functions that compare an integer key. *)
Definition keyLess {A : Type} (key : A -> Z) (a b : A) : bool := key a <? key b.
Definition keyLe {A : Type} (key : A -> Z) (a b : A) : Prop := key a <= key b.

(** [sort.Strings] *)
Definition Strings (l : list string) : list string := SliceStable String.ltb l.

End Sort.
Export Sort.

(** ** The statefulset scheduler *)

Module StatefulSet.

Record PredicatePolicy : Type := mkPredicatePolicy {
  predicateName : string
}.

Record PriorityPolicy : Type := mkPriorityPolicy {
  priorityName : string;
  Weight : Z
}.

(** The [SchedulerPolicy] struct: predicates and weighted priorities. *)
Record Policy : Type := mkPolicy {
  Predicates : list PredicatePolicy;
  Priorities : list PriorityPolicy
}.

(** What the scheduler takes from outside the sources at hand: the
    constant [MaxTotalWeight], the plugin registry of package [factory],
    the random source behind [rand.Intn] (indexed by the vreplica being
    placed and the position in the score list), and the
    implementation-specific result of converting a non-finite float64
    (a division by zero domains, by sign of the numerator) to int32. *)
Record Runtime : Type := mkRuntime {
  MaxTotalWeight : Z;
  GetFilterPlugin : string -> option FilterPlugin;
  GetScorePlugin : string -> option ScorePlugin;
  randIntn : Z -> nat -> Z -> Z;
  int32OfNonFinite : Z -> Z
}.

(** StatefulSetScheduler is a scheduler placing VPod into
    statefulset-managed set of pods.  [podLister] maps the name of a pod
    to its [Spec.NodeName]; [autoscaleCalls] logs the arguments of the
    calls to [autoscaler.Autoscale], latest first. *)
Record StatefulSetScheduler : Type := mkScheduler {
  statefulSetName : string;
  podLister : gmap string string;
  stateAccessor : stateBuilder;
  hasAutoscaler : bool;
  autoscaleCalls : list Z;
  replicas : Z;
  pending : gmap (string * string) Z;
  reserved : list ((string * string) * list (string * Z));
  policy : option Policy
}.

Definition withReservedTable (s : StatefulSetScheduler)
    (r : Reserved) : StatefulSetScheduler :=
  {| statefulSetName := statefulSetName s; podLister := podLister s;
     stateAccessor := stateAccessor s; hasAutoscaler := hasAutoscaler s;
     autoscaleCalls := autoscaleCalls s; replicas := replicas s;
     pending := pending s; reserved := r; policy := policy s |}.

Definition withPending (s : StatefulSetScheduler)
    (p : gmap (string * string) Z) : StatefulSetScheduler :=
  {| statefulSetName := statefulSetName s; podLister := podLister s;
     stateAccessor := stateAccessor s; hasAutoscaler := hasAutoscaler s;
     autoscaleCalls := autoscaleCalls s; replicas := replicas s;
     pending := p; reserved := reserved s; policy := policy s |}.

Definition withAutoscaleCall (s : StatefulSetScheduler) (n : Z)
    : StatefulSetScheduler :=
  {| statefulSetName := statefulSetName s; podLister := podLister s;
     stateAccessor := stateAccessor s; hasAutoscaler := hasAutoscaler s;
     autoscaleCalls := n :: autoscaleCalls s; replicas := replicas s;
     pending := pending s; reserved := reserved s; policy := policy s |}.

Definition weightOutOfRange (rt : Runtime) (priority : PriorityPolicy) : bool :=
  (Weight priority <=? 0) || (MaxTotalWeight rt <=? Weight priority).

(** [ValidatePolicy]: one error per priority whose weight is out of
    range; the result is the nil slice when there is none. *)
Definition ValidatePolicy (rt : Runtime) (policy : Policy) : list string :=
  fold_left
    (fun validationErrors priority =>
       if weightOutOfRange rt priority then
         validationErrors ++
           ["priority " +:+ priorityName priority +:+
            " should have a positive weight applied to it or it has overflown"]
       else validationErrors)
    (Priorities policy) [].

(** pendingVReplicas returns the total number of vreplicas that haven't
    been scheduled yet. *)
Definition pendingVReplicas (s : StatefulSetScheduler) : Z :=
  map_fold (fun _ v t => add32 t v) 0 (pending s).

Definition reservePlacements (vpod : VPod) (placements : list Placement)
    (reserved : Reserved) : Reserved :=
  let existing := elems (GetPlacements vpod) in
  fold_left
    (fun reserved p =>
       let placed :=
         match List.find (fun e => bool_decide (PodName e = PodName p)) existing with
         | Some e => VReplicas e
         | None => 0
         end in
       (* Only record placements exceeding existing ones *)
       if placed <? VReplicas p then
         let rps := default [] (alookup (GetKey vpod) reserved) in
         ainsert (GetKey vpod) (ainsert (PodName p) (VReplicas p) rps) reserved
       else reserved)
    placements reserved.

(** *** MAXFILLUP *)

Fixpoint removeReplicas_loop (rplacements : list Placement) (diff : Z)
    (newPlacements : list Placement) : list Placement :=
  match rplacements with
  | [] => newPlacements
  | p :: r =>
      if VReplicas p <=? diff then
        (* remove the entire placement *)
        removeReplicas_loop r (sub32 diff (VReplicas p)) newPlacements
      else
        removeReplicas_loop r 0
          (newPlacements ++
             [{| PodName := PodName p; VReplicas := sub32 (VReplicas p) diff |}])
  end.

(** [removeReplicas] walks the placements from the last index down. *)
Definition removeReplicas (diff : Z) (placements : list Placement)
    : list Placement :=
  removeReplicas_loop (rev placements) diff [].

(** First loop of [addReplicas]: add to existing. *)
Fixpoint addReplicas_existing (states : State) (diff : Z)
    (newPlacements : list Placement) (placements : list Placement)
    : outcome (State * Z * list Placement) :=
  match placements with
  | [] => Ok (states, diff, newPlacements)
  | p :: r =>
      let podName := PodName p in
      let ordinal := OrdinalFromPodName podName in
      (* Is there space in PodName? *)
      f ← Free states ordinal;
      if (0 <=? diff) && (0 <? f) then
        let allocation := Int32Min f diff in
        states' ← SetFree states ordinal (sub32 f allocation);
        addReplicas_existing states' (sub32 diff allocation)
          (newPlacements ++
             [{| PodName := podName; VReplicas := add32 (VReplicas p) allocation |}])
          r
      else
        addReplicas_existing states diff (newPlacements ++ [p]) r
  end.

(** Second loop of [addReplicas]: allocate replicas to additional pods,
    over the ordinals still to visit. *)
Fixpoint addReplicas_additional (name : string) (states : State) (diff : Z)
    (newPlacements : list Placement) (ordinals : list Z)
    : outcome (State * Z * list Placement) :=
  match ordinals with
  | [] => Ok (states, diff, newPlacements)
  | ordinal :: r =>
      f ← Free states ordinal;
      '(states, diff, newPlacements) ←
        (if 0 <? f then
           let allocation := Int32Min f diff in
           states' ← SetFree states ordinal (sub32 f allocation);
           Ok (states', sub32 diff allocation,
               newPlacements ++
                 [{| PodName := PodNameFromOrdinal name ordinal;
                     VReplicas := allocation |}])
         else Ok (states, diff, newPlacements));
      if diff =? 0 then Ok (states, diff, newPlacements)
      else addReplicas_additional name states diff newPlacements r
  end.

Definition addReplicas (s : StatefulSetScheduler) (states : State) (diff : Z)
    (placements : list Placement) : outcome (list Placement * Z) :=
  (* Pod affinity algorithm: prefer adding replicas to existing pods
     before considering other replicas *)
  '(states, diff, newPlacements) ← addReplicas_existing states diff [] placements;
  if 0 <? diff then
    (* Needs to allocate replicas to additional pods *)
    '(_, diff, newPlacements) ←
      addReplicas_additional (statefulSetName s) states diff newPlacements
        (seqZ 0 (replicas s));
    Ok (newPlacements, diff)
  else Ok (newPlacements, diff).

(** *** EVENSPREAD and EVENSPREAD_BYNODE *)

(** [getPodInfo]: zone name, node name, and whether both were found. *)
Definition getPodInfo (s : StatefulSetScheduler) (state : State)
    (podName : string) : string * string * bool :=
  match podLister s !! podName with
  | None => ("", "", false)
  | Some nodeName =>
      match NodeToZoneMap state !! nodeName with
      | None => ("", nodeName, false)
      | Some zoneName => (zoneName, nodeName, true)
      end
  end.

Definition podZone (s : StatefulSetScheduler) (state : State) (podName : string) : string :=
  (getPodInfo s state podName).1.1.

Definition podNode (s : StatefulSetScheduler) (state : State) (podName : string) : string :=
  (getPodInfo s state podName).1.2.

Definition getPlacementsByZoneKey (s : StatefulSetScheduler) (states : State)
    (placements : list Placement) : gmap string (list Z) :=
  fold_left
    (fun placementsByZone p =>
       let zoneName := podZone s states (PodName p) in
       <[zoneName := default [] (placementsByZone !! zoneName)
                     ++ [OrdinalFromPodName (PodName p)]]> placementsByZone)
    placements ∅.

Definition getPlacementsByNodeKey (s : StatefulSetScheduler) (states : State)
    (placements : list Placement) : gmap string (list Z) :=
  fold_left
    (fun placementsByNode p =>
       let nodeName := podNode s states (PodName p) in
       <[nodeName := default [] (placementsByNode !! nodeName)
                     ++ [OrdinalFromPodName (PodName p)]]> placementsByNode)
    placements ∅.

Definition getTotalVReplicasInZone (s : StatefulSetScheduler) (state : State)
    (placements : list Placement) (zoneName : string) : Z :=
  fold_left
    (fun total p =>
       if bool_decide (podZone s state (PodName p) = zoneName)
       then add32 total (VReplicas p) else total)
    placements 0.

Definition getTotalVReplicasInNode (s : StatefulSetScheduler) (state : State)
    (placements : list Placement) (nodeName : string) : Z :=
  fold_left
    (fun total p =>
       if bool_decide (podNode s state (PodName p) = nodeName)
       then add32 total (VReplicas p) else total)
    placements 0.

(** [getPlacementFromPodOrdinal]: the first placement with the pod name
    of that ordinal, or the zero placement. *)
Definition getPlacementFromPodOrdinal (s : StatefulSetScheduler)
    (placements : list Placement) (ordinal : Z) : Placement :=
  match List.find
          (fun p => bool_decide
                      (PodName p = PodNameFromOrdinal (statefulSetName s) ordinal))
          placements with
  | Some p => p
  | None => {| PodName := ""; VReplicas := 0 |}
  end.

Definition byNode (state : State) : bool :=
  bool_decide (SchedulerPolicy state = EVENSPREAD_BYNODE).

Definition placementsByDomainOf (s : StatefulSetScheduler) (state : State)
    (placements : list Placement) : gmap string (list Z) :=
  if byNode state then getPlacementsByNodeKey s state placements
  else getPlacementsByZoneKey s state placements.

Definition totalInDomainOf (s : StatefulSetScheduler) (state : State)
    (placements : list Placement) (domainName : string) : Z :=
  if byNode state then getTotalVReplicasInNode s state placements domainName
  else getTotalVReplicasInZone s state placements domainName.

(** The keys of the map, sorted for ordered accessing. *)
Definition sortedDomainNames (placementsByDomain : gmap string (list Z))
    : list string :=
  Sort.Strings (elements (dom placementsByDomain)).

(** Inner loop of [removeFromExistingReplicas], over the ordinals of one
    domain from the larger index to the smaller. *)
Fixpoint removeFromDomain (s : StatefulSetScheduler)
    (placements : list Placement) (evenSpread : Z)
    (diff totalInDomain : Z) (newPlacements : list Placement)
    (rordinals : list Z) : Z * list Placement :=
  match rordinals with
  | [] => (diff, newPlacements)
  | ordinal :: r =>
      let placement := getPlacementFromPodOrdinal s placements ordinal in
      if (0 <? diff) && (evenSpread <=? totalInDomain) then
        let deallocation :=
          Int32Min diff (Int32Min (VReplicas placement)
                                  (sub32 totalInDomain evenSpread)) in
        if (0 <? deallocation) && (deallocation <? VReplicas placement) then
          removeFromDomain s placements evenSpread
            (sub32 diff deallocation) (sub32 totalInDomain deallocation)
            (newPlacements ++
               [{| PodName := PodName placement;
                   VReplicas := sub32 (VReplicas placement) deallocation |}])
            r
        else if VReplicas placement <=? deallocation then
          removeFromDomain s placements evenSpread
            (sub32 diff (VReplicas placement))
            (sub32 totalInDomain (VReplicas placement))
            newPlacements r
        else
          removeFromDomain s placements evenSpread diff totalInDomain
            (newPlacements ++
               [{| PodName := PodName placement;
                   VReplicas := VReplicas placement |}])
            r
      else
        removeFromDomain s placements evenSpread diff totalInDomain
          (newPlacements ++
             [{| PodName := PodName placement;
                 VReplicas := VReplicas placement |}])
          r
  end.

Fixpoint removeFromDomains (s : StatefulSetScheduler) (state : State)
    (placements : list Placement) (evenSpread : Z)
    (placementsByDomain : gmap string (list Z))
    (diff : Z) (newPlacements : list Placement)
    (domainNames : list string) : list Placement :=
  match domainNames with
  | [] => newPlacements
  | domainName :: r =>
      let totalInDomain := totalInDomainOf s state placements domainName in
      let placementOrdinals := default [] (placementsByDomain !! domainName) in
      let '(diff, newPlacements) :=
        removeFromDomain s placements evenSpread diff totalInDomain
          newPlacements (rev placementOrdinals) in
      removeFromDomains s state placements evenSpread placementsByDomain
        diff newPlacements r
  end.

Definition removeFromExistingReplicas (s : StatefulSetScheduler)
    (state : State) (diff : Z) (placements : list Placement)
    (evenSpread : Z) : list Placement :=
  let placementsByDomain := placementsByDomainOf s state placements in
  removeFromDomains s state placements evenSpread placementsByDomain diff []
    (sortedDomainNames placementsByDomain).

Definition removeReplicasEvenSpread (s : StatefulSetScheduler)
    (state : State) (diff : Z) (placements : list Placement)
    (evenSpread : Z) : list Placement :=
  removeFromExistingReplicas s state diff placements evenSpread.

(** Inner loop of [addToExistingReplicas], over the existing pods of one
    domain. *)
Fixpoint addToDomain (s : StatefulSetScheduler)
    (placements : list Placement) (evenSpread : Z)
    (state : State) (diff totalInDomain : Z) (newPlacements : list Placement)
    (ordinals : list Z) : outcome (State * Z * list Placement) :=
  match ordinals with
  | [] => Ok (state, diff, newPlacements)
  | ordinal :: r =>
      let placement := getPlacementFromPodOrdinal s placements ordinal in
      (* Is there space in Pod? *)
      f ← Free state ordinal;
      if (0 <=? diff) && (0 <? f) && (totalInDomain <? evenSpread) then
        let allocation :=
          Int32Min diff (Int32Min f (sub32 evenSpread totalInDomain)) in
        state' ← SetFree state ordinal (sub32 f allocation);
        addToDomain s placements evenSpread state'
          (sub32 diff allocation) (add32 totalInDomain allocation)
          (newPlacements ++
             [{| PodName := PodName placement;
                 VReplicas := add32 (VReplicas placement) allocation |}])
          r
      else
        addToDomain s placements evenSpread state diff totalInDomain
          (newPlacements ++ [placement]) r
  end.

Fixpoint addToDomains (s : StatefulSetScheduler)
    (placements : list Placement) (evenSpread : Z)
    (placementsByDomain : gmap string (list Z))
    (state : State) (diff : Z) (newPlacements : list Placement)
    (domainNames : list string) : outcome (State * Z * list Placement) :=
  match domainNames with
  | [] => Ok (state, diff, newPlacements)
  | domainName :: r =>
      (* the totals are read with the policy and zone map of the
         snapshot, which the loop does not change *)
      let totalInDomain := totalInDomainOf s state placements domainName in
      let placementOrdinals := default [] (placementsByDomain !! domainName) in
      '(state, diff, newPlacements) ←
        addToDomain s placements evenSpread state diff totalInDomain
          newPlacements placementOrdinals;
      addToDomains s placements evenSpread placementsByDomain
        state diff newPlacements r
  end.

Definition addToExistingReplicas (s : StatefulSetScheduler) (state : State)
    (diff : Z) (placements : list Placement) (evenSpread : Z)
    : outcome (State * Z * list Placement) :=
  let placementsByDomain := placementsByDomainOf s state placements in
  addToDomains s placements evenSpread placementsByDomain state diff []
    (sortedDomainNames placementsByDomain).

Fixpoint addToNewReplicas_loop (s : StatefulSetScheduler) (evenSpread : Z)
    (states : State) (diff : Z) (newPlacements : list Placement)
    (ordinals : list Z) : outcome (State * Z * list Placement) :=
  match ordinals with
  | [] => Ok (states, diff, newPlacements)
  | ordinal :: r =>
      f ← Free states ordinal;
      if 0 <? f then
        (* here it is possible to hit pods that are in existing placements *)
        let podName := PodNameFromOrdinal (statefulSetName s) ordinal in
        let '(zoneName, nodeName, ok) := getPodInfo s states podName in
        if negb ok then
          addToNewReplicas_loop s evenSpread states diff newPlacements r
        else
          let totalInDomain :=
            if byNode states
            then getTotalVReplicasInNode s states newPlacements nodeName
            else getTotalVReplicasInZone s states newPlacements zoneName in
          if evenSpread <=? totalInDomain then
            (* the domain that pod belongs to is already at max spread *)
            addToNewReplicas_loop s evenSpread states diff newPlacements r
          else
            let allocation :=
              Int32Min diff (Int32Min f (sub32 evenSpread totalInDomain)) in
            let newPlacements :=
              newPlacements ++ [{| PodName := podName; VReplicas := allocation |}] in
            let diff := sub32 diff allocation in
            states' ← SetFree states ordinal (sub32 f allocation);
            if diff =? 0 then Ok (states', diff, newPlacements)
            else addToNewReplicas_loop s evenSpread states' diff newPlacements r
      else if diff =? 0 then Ok (states, diff, newPlacements)
      else addToNewReplicas_loop s evenSpread states diff newPlacements r
  end.

Definition addToNewReplicas (s : StatefulSetScheduler) (states : State)
    (diff : Z) (newPlacements : list Placement) (evenSpread : Z)
    : outcome (State * Z * list Placement) :=
  addToNewReplicas_loop s evenSpread states diff newPlacements
    (seqZ 0 (replicas s)).

Definition addReplicasEvenSpread (s : StatefulSetScheduler) (state : State)
    (diff : Z) (placements : list Placement) (evenSpread : Z)
    : outcome (list Placement * Z) :=
  '(state, diff, newPlacements) ←
    addToExistingReplicas s state diff placements evenSpread;
  if 0 <? diff then
    '(_, diff, newPlacements) ←
      addToNewReplicas s state diff newPlacements evenSpread;
    Ok (newPlacements, diff)
  else Ok (newPlacements, diff).

(** [int32(math.Floor(float64(a) / float64(b)))] and the same with
    [math.Ceil]: for [b <> 0] the float64 quotient of two int32 values
    rounds to the same integer as the exact quotient. *)
Definition floorDiv (rt : Runtime) (a b : Z) : Z :=
  if b =? 0 then int32 (int32OfNonFinite rt a) else int32 (a / b).

Definition ceilDiv (rt : Runtime) (a b : Z) : Z :=
  if b =? 0 then int32 (int32OfNonFinite rt a) else int32 (- ((- a) / b)).

(** *** Predicates and priorities *)

(** RunFilterPlugins runs the set of configured Filter plugins for a vrep
    on the given pod; it stops at the first plugin that does not return
    Success.  (The text of the error message is abridged.) *)
Fixpoint RunFilterPlugins_loop (rt : Runtime) (states : State) (podID : Z)
    (predicates : list PredicatePolicy)
    : outcome (list (string * option Status)) :=
  match predicates with
  | [] => Ok []
  | plugin :: r =>
      match GetFilterPlugin rt (predicateName plugin) with
      | None => RunFilterPlugins_loop rt states podID r
      | Some pl =>
          pluginStatus ← Filter pl states podID;
          if negb (IsSuccess pluginStatus) then
            if negb (IsUnschedulable pluginStatus) then
              Ok [(fpName pl,
                   Some (NewStatus Error
                           ["running filter plugin " +:+ fpName pl +:+
                            " failed with: " +:+ Message pluginStatus]))]
            else Ok [(fpName pl, pluginStatus)]
          else RunFilterPlugins_loop rt states podID r
      end
  end.

Definition RunFilterPlugins (rt : Runtime) (policy : Policy) (states : State)
    (podID : Z) : outcome (list (string * option Status)) :=
  RunFilterPlugins_loop rt states podID (Predicates policy).

(** findFeasiblePods finds the pods that fit the filter plugins. *)
Fixpoint findFeasiblePods_loop (rt : Runtime) (policy : Policy) (state : State)
    (feasiblePods : list Z) (podIds : list Z) : outcome (list Z) :=
  match podIds with
  | [] => Ok feasiblePods
  | podId :: r =>
      statusMap ← RunFilterPlugins rt policy state podId;
      if IsSuccess (Merge statusMap) then
        findFeasiblePods_loop rt policy state (feasiblePods ++ [podId]) r
      else findFeasiblePods_loop rt policy state feasiblePods r
  end.

Definition findFeasiblePods (rt : Runtime) (s : StatefulSetScheduler)
    (policy : Policy) (state : State) : outcome (list Z) :=
  findFeasiblePods_loop rt policy state [] (seqZ 0 (replicas s)).

(** Scores of one plugin for the feasible pods, or the error status of
    the first pod it fails on. *)
Fixpoint scorePods (pl : ScorePlugin) (weight : Z) (states : State)
    (feasiblePods : list Z) : outcome (list PodScore + Status) :=
  match feasiblePods with
  | [] => Ok (inl [])
  | podID :: r =>
      '(score, pluginStatus) ← ScoreOf pl states podID;
      if negb (IsSuccess pluginStatus) then
        Ok (inr (NewStatus Error
                   ["running scoring plugin " +:+ spName pl +:+ " failed"]))
      else
        rest ← scorePods pl weight states r;
        match rest with
        | inl scores =>
            (* WEIGHED SCORE VALUE *)
            Ok (inl ({| ID := podID; Score := mul64 score weight |} :: scores))
        | inr st => Ok (inr st)
        end
  end.

(** RunScorePlugins runs the set of configured scoring plugins; the
    result stores for each scoring plugin name its PodScoreList. *)
Fixpoint RunScorePlugins_loop (rt : Runtime) (states : State)
    (feasiblePods : list Z) (pluginToPodScores : gmap string (list PodScore))
    (priorities : list PriorityPolicy)
    : outcome (gmap string (list PodScore) * option Status) :=
  match priorities with
  | [] => Ok (pluginToPodScores, Some (NewStatus Success []))
  | plugin :: r =>
      match GetScorePlugin rt (priorityName plugin) with
      | None => RunScorePlugins_loop rt states feasiblePods pluginToPodScores r
      | Some pl =>
          res ← scorePods pl (Weight plugin) states feasiblePods;
          match res with
          | inr errStatus => Ok (pluginToPodScores, Some errStatus)
          | inl scores =>
              RunScorePlugins_loop rt states feasiblePods
                (<[spName pl := scores]> pluginToPodScores) r
          end
      end
  end.

Definition RunScorePlugins (rt : Runtime) (policy : Policy) (states : State)
    (feasiblePods : list Z)
    : outcome (gmap string (list PodScore) * option Status) :=
  RunScorePlugins_loop rt states feasiblePods ∅ (Priorities policy).

(** prioritizePods prioritizes the pods by running the score plugins; the
    scores from each plugin are added together. [inr] is the error. *)
Definition prioritizePods (rt : Runtime) (policy : Policy) (states : State)
    (feasiblePods : list Z) : outcome (list PodScore + string) :=
  if (length (Priorities policy) =? 0)%nat then
    (* If no priority configs are provided, all pods have a score of one *)
    Ok (inl (map (fun podID => {| ID := podID; Score := 1 |}) feasiblePods))
  else
    '(scoresMap, scoreStatus) ← RunScorePlugins rt policy states feasiblePods;
    if negb (IsSuccess scoreStatus) then
      Ok (inr (default "" (scoreStatus ≫= AsError)))
    else
      (* Summarize all scores. *)
      Ok (inl (imap
                 (fun i podID =>
                    {| ID := podID;
                       Score := map_fold
                                  (fun _ scores t =>
                                     add64 t (default 0 (Score <$> scores !! i)))
                                  0 scoresMap |})
                 feasiblePods)).

(** Loop of [selectPod] over [podScoreList[1:]]; [pos] is the position of
    the head of [l] in the score list. *)
Fixpoint selectPod_loop (rnd : nat -> Z -> Z) (pos : nat) (maxScore selected : Z)
    (cntOfMaxScore : Z) (l : list PodScore) : Z :=
  match l with
  | [] => selected
  | ps :: r =>
      if maxScore <? Score ps then
        selectPod_loop rnd (S pos) (Score ps) (ID ps) 1 r
      else if Score ps =? maxScore then
        (* if equal scores, randomly picks one *)
        let cnt := cntOfMaxScore + 1 in
        selectPod_loop rnd (S pos) maxScore
          (if rnd pos cnt =? 0 then ID ps else selected) cnt r
      else selectPod_loop rnd (S pos) maxScore selected cntOfMaxScore r
  end.

(** selectPod takes a prioritized list of pods and then picks one;
    [None] is the error for the empty list. *)
Definition selectPod (rnd : nat -> Z -> Z) (podScoreList : list PodScore)
    : option Z :=
  match podScoreList with
  | [] => None
  | first :: rest =>
      Some (selectPod_loop rnd 1 (Score first) (ID first) 1 rest)
  end.

(** The test and the update of the inner loop of
    [addSelectionToPlacements]: a placement on pod [podID] gets
    [newreps] more vreplicas. *)
Definition selectionHit (podID : Z) (p : Placement) : bool :=
  OrdinalFromPodName (PodName p) =? podID.

Definition selectionBump (podID newreps : Z) (p : Placement) : Placement :=
  if selectionHit podID p
  then {| PodName := PodName p; VReplicas := add32 (VReplicas p) newreps |}
  else p.

(** [addSelectionToPlacements]: the selection map is ranged over in the
    order of the list; [seen] is set once and never reset.  The update
    is made on the list at hand; what [vpod.GetPlacements()] returns is
    taken not to change with it. *)
Fixpoint addSelection_loop (name : string) (seen : bool)
    (selected : list (Z * Z)) (placements : option (list Placement))
    : option (list Placement) :=
  match selected with
  | [] => placements
  | (podID, newreps) :: r =>
      let placements :=
        option_map (map (selectionBump podID newreps)) placements in
      let seen := seen || existsb (selectionHit podID) (elems placements) in
      let placements :=
        if negb seen then
          Some (elems placements ++
                  [{| PodName := PodNameFromOrdinal name podID;
                      VReplicas := newreps |}])
        else placements in
      addSelection_loop name seen r placements
  end.

Definition addSelectionToPlacements (s : StatefulSetScheduler)
    (selectedPodIDsToVreps : list (Z * Z))
    (placements : option (list Placement)) : option (list Placement) :=
  addSelection_loop (statefulSetName s) false selectedPodIDsToVreps placements.

(** What one round of [addReplicasWithPolicy] decides: the loop is left
    early, or one vreplica goes to a pod. *)
Inductive roundResult : Type :=
| RoundStateError
| RoundBreak
| RoundSelected (podID : Z).

Definition policyRound (rt : Runtime) (s : StatefulSetScheduler)
    (policy : Policy) (i : Z) (st : error + State) : outcome roundResult :=
  match st with
  | inl _ => Ok RoundStateError
  | inr state =>
      if replicas s =? 0 then Ok RoundBreak (* no pods to filter *)
      else
        feasiblePods ← findFeasiblePods rt s policy state;
        match feasiblePods with
        | [] => Ok RoundBreak (* no pods available to schedule this vreplica *)
        | [podID] => Ok (RoundSelected podID) (* nothing to score *)
        | _ =>
            priorityList ← prioritizePods rt policy state feasiblePods;
            match priorityList with
            | inr _ => Ok RoundBreak
            | inl priorityList =>
                match selectPod (randIntn rt i) priorityList with
                | None => Ok RoundBreak
                | Some placementPodID => Ok (RoundSelected placementPodID)
                end
            end
        end
  end.

(** The loop of [addReplicasWithPolicy]: one vreplica at a time, over
    the indices [i] still to run.  The reservation table is refreshed by
    each state build and extended by each [reservePlacements]. *)
Fixpoint addReplicasWithPolicy_loop (rt : Runtime) (s : StatefulSetScheduler)
    (policy : Policy) (vpod : VPod) (numVreps : Z) (diff : Z)
    (placements : option (list Placement)) (rsv : Reserved) (idxs : list Z)
    : outcome (option (list Placement) * Z * Reserved) :=
  match idxs with
  | [] => Ok (placements, diff, rsv)
  | i :: r =>
      '(rsv, st) ← stateBuilder_State (stateAccessor s) rsv;
      round ← policyRound rt s policy i st;
      match round with
      | RoundStateError => Ok (placements, diff, rsv)
      | RoundBreak =>
          Ok (placements, sub32 numVreps i,
              reservePlacements vpod (elems placements) rsv)
      | RoundSelected podID =>
          let placements := addSelectionToPlacements s [(podID, 1)] placements in
          addReplicasWithPolicy_loop rt s policy vpod numVreps (sub32 diff 1)
            placements (reservePlacements vpod (elems placements) rsv) r
      end
  end.

Definition addReplicasWithPolicy (rt : Runtime) (s : StatefulSetScheduler)
    (policy : Policy) (vpod : VPod) (diff : Z)
    (placements : option (list Placement))
    : outcome (option (list Placement) * Z * Reserved) :=
  addReplicasWithPolicy_loop rt s policy vpod diff diff placements
    (reserved s) (seqZ 0 diff).

(** *** The scheduler facade *)

Definition spreadDomains (state : State) : Z :=
  if byNode state then NumNodes state else NumZones state.

(** The tail of [scheduleVPod], once [placements] and [left], here [nleft], are known. *)
Definition finishSchedule (s : StatefulSetScheduler) (vpod : VPod)
    (placements : option (list Placement)) (nleft : Z)
    : option (list Placement) * option error * StatefulSetScheduler :=
  if 0 <? nleft then
    (* Give time for the autoscaler to do its job *)
    let s := withPending s (<[GetKey vpod := nleft]> (pending s)) in
    (* Trigger the autoscaler *)
    let s := if hasAutoscaler s
             then withAutoscaleCall s (pendingVReplicas s) else s in
    (placements, Some ErrNotEnoughReplicas, s)
  else
    (placements, None, withPending s (delete (GetKey vpod) (pending s))).

Definition scheduleVPod (rt : Runtime) (s : StatefulSetScheduler) (vpod : VPod)
    : outcome (option (list Placement) * option error * StatefulSetScheduler) :=
  (* Get the current placements state *)
  '(rsv, st) ← stateBuilder_State (stateAccessor s) (reserved s);
  let s := withReservedTable s rsv in
  match st with
  | inl err => Ok (None, Some err, s)
  | inr state =>
      let placements := GetPlacements vpod in
      (* Exact number of vreplicas => do nothing *)
      let tr := GetTotalVReplicas placements in
      if tr =? GetVReplicas vpod then
        (* Fully placed. Nothing to do *)
        Ok (placements, None, withPending s (delete (GetKey vpod) (pending s)))
      else if negb (bool_decide (SchedulerPolicy state = "")) then
        if GetVReplicas vpod <? tr then
          (* Need less => scale down *)
          let diff := sub32 tr (GetVReplicas vpod) in
          if isEvenSpread (SchedulerPolicy state) then
            (* spreadVal is the minimum number of replicas to be nleft
               behind in each failure domain for high availability *)
            let spreadVal := floorDiv rt (GetVReplicas vpod) (spreadDomains state) in
            Ok (Some (removeReplicasEvenSpread s state diff (elems placements) spreadVal),
                None, s)
          else
            (* Do not trigger the autoscaler to avoid unnecessary churn *)
            Ok (Some (removeReplicas diff (elems placements)), None, s)
        else
          (* Need more => scale up *)
          let diff := sub32 (GetVReplicas vpod) tr in
          if isEvenSpread (SchedulerPolicy state) then
            (* spreadVal is the maximum number of replicas to be placed
               in each failure domain for high availability *)
            let spreadVal := ceilDiv rt (GetVReplicas vpod) (spreadDomains state) in
            '(placements, nleft) ←
              addReplicasEvenSpread s state diff (elems placements) spreadVal;
            Ok (finishSchedule s vpod (Some placements) nleft)
          else
            '(placements, nleft) ← addReplicas s state diff (elems placements);
            Ok (finishSchedule s vpod (Some placements) nleft)
      else
        match policy s with
        | Some pol =>
            (* Predicates and priorities must be used for scheduling *)
            match ValidatePolicy rt pol with
            | _ :: _ => Ok (None, Some ErrValidatingPolicyFailed, s)
            | [] =>
                '(placements, nleft, rsv) ←
                  addReplicasWithPolicy rt s pol vpod
                    (sub32 (GetVReplicas vpod) tr) placements;
                Ok (finishSchedule (withReservedTable s rsv) vpod placements nleft)
            end
        | None => Ok (finishSchedule s vpod placements 0)
        end
  end.

Definition Schedule (rt : Runtime) (s : StatefulSetScheduler) (vpod : VPod)
    : outcome (option (list Placement) * option error * StatefulSetScheduler) :=
  '(placements, err, s) ← scheduleVPod rt s vpod;
  match placements with
  | None => Ok (None, err, s)
  | Some placements =>
      let placements :=
        Sort.SliceStable
          (fun p q => OrdinalFromPodName (PodName p) <? OrdinalFromPodName (PodName q))
          placements in
      (* Reserve new placements until they are committed to the vpod. *)
      Ok (Some placements, err,
          withReservedTable s (reservePlacements vpod placements (reserved s)))
  end.

(** *** Vocabulary of the properties *)

(** The failure domain a pod name is grouped and counted under: its node
    for EVENSPREAD_BYNODE, its zone otherwise. *)
Definition domainOf (s : StatefulSetScheduler) (state : State)
    (podName : string) : string :=
  if byNode state then podNode s state podName else podZone s state podName.

(** The placements of a list that lie in one domain. *)
Definition groupOf (s : StatefulSetScheduler) (state : State)
    (placements : list Placement) (domainName : string) : list Placement :=
  filter (fun p => domainOf s state (PodName p) = domainName) placements.

(** The exact total of the vreplicas of a list in one domain. *)
Definition totalBy (s : StatefulSetScheduler) (state : State)
    (placements : list Placement) (domainName : string) : Z :=
  sumVReplicas (groupOf s state placements domainName).

(** Two snapshots that differ at most in their free capacities. *)
Definition sameDomains (st st' : State) : Prop :=
  NodeToZoneMap st' = NodeToZoneMap st /\
  SchedulerPolicy st' = SchedulerPolicy st /\
  Capacity st' = Capacity st.

(** The data-model invariant on a placement list of the pool [name]: one
    entry per pod name, every name is the name of a pod of the pool at
    an addressable ordinal, counts are non-negative with an int32 total. *)
Definition wellFormedPlacements (name : string) (l : list Placement) : Prop :=
  NoDup (map PodName l) /\
  Forall (fun p => validOrdinal (ordinalOf p) /\
                   PodName p = PodNameFromOrdinal name (ordinalOf p)) l /\
  wellFormedTotals l.

(** What the plugin path keeps of a list: one entry per pod name and per
    ordinal, no negative count. *)
Definition selectable (l : list Placement) : Prop :=
  NoDup (map PodName l) /\ NoDup (map ordinalOf l) /\
  Forall (fun p => 0 <= VReplicas p) l.

(** What C5 asks of a returned list. *)
Definition goodPlacements (l : list Placement) : Prop :=
  NoDup (map PodName l) /\ Forall (fun p => 0 <= VReplicas p) l.

End StatefulSet.
Export StatefulSet.

(** ** Vocabulary of the further properties *)

(** The exact sum of a list of integers. *)
Definition sumZ (l : list Z) : Z := foldr Z.add 0 l.

(** All the placements of the listed vpods, in the order in which the
    state build accounts for them. *)
Definition listedPlacements (vpods : list VPod) : list Placement :=
  concat (map (fun vpod => elems (GetPlacements vpod)) vpods).

(** The exact total of the vreplicas that a list of placements puts on
    the pod of one ordinal. *)
Definition totalOn (l : list Placement) (o : Z) : Z :=
  sumVReplicas (filter (fun p => ordinalOf p = o) l).

(** What the state build has made of the placements [pre]: every slot
    holds the capacity less the vreplicas on it, as an int32, and [last]
    is the largest ordinal with vreplicas on it. *)
Definition accounted (cap : Z) (free : list Z) (last : Z)
    (pre : list Placement) : Prop :=
  Z.of_nat (length free) <= MaxInt32 /\
  (forall o, 0 <= o ->
             default cap (free !! Z.to_nat o) = int32 (cap - totalOn pre o)) /\
  (forall o, last < o -> totalOn pre o = 0) /\
  (last = -1 \/ 0 < totalOn pre last).

(** The reasons of a possibly nil status. *)
Definition reasonsOf (s : option Status) : list string :=
  match s with
  | Some s => reasons s
  | None => []
  end.

(** The test of [PodFitsResources] on a pod: the snapshot has no slot at
    all, or the pod has free capacity left. *)
Definition podFits (state : State) (podID : Z) : bool :=
  (length (FreeCap state) =? 0)%nat || (0 <? freeAt state podID).

(** The filter plugins of the repository. *)
Definition builtinFilters : list FilterPlugin :=
  [PodFitsResources.plugin; NoMaxResourceCount.plugin; EvenPodSpread.plugin].

(** The error that [ValidatePolicy] reports for a priority. *)
Definition weightError (priority : PriorityPolicy) : string :=
  "priority " +:+ priorityName priority +:+
  " should have a positive weight applied to it or it has overflown".

(** What [reservePlacements] compares a placement with: the vreplicas of
    the first committed placement of the vpod on that pod, 0 when there
    is none. *)
Definition committedOnPod (vpod : VPod) (podName : string) : Z :=
  match List.find (fun e => bool_decide (PodName e = podName))
          (elems (GetPlacements vpod)) with
  | Some e => VReplicas e
  | None => 0
  end.

(** The schedulable nodes that carry a zone label, with their zone. *)
Definition zonedNodes (nodes : list Node) : list (string * string) :=
  omap (fun node =>
          if nodeUnschedulable node then None
          else (fun zoneName => (nodeName node, zoneName)) <$> nodeZoneLabel node)
       nodes.

(** ** A concrete deployment, used to run the definitions *)

Module Example.

(** The built-in registry: the filter plugins of the repository that
    decide on the snapshot, and no score plugin. *)
Definition rt : Runtime :=
  {| MaxTotalWeight := 9223372036854775807;
     GetFilterPlugin := fun name =>
       if bool_decide (name = PodFitsResources.Name)
       then Some PodFitsResources.plugin else None;
     GetScorePlugin := fun _ => None;
     randIntn := fun _ _ _ => 0;
     int32OfNonFinite := fun _ => MinInt32 |}.

Definition P (podName : string) (vreplicas : Z) : Placement :=
  {| PodName := podName; VReplicas := vreplicas |}.

Definition key (name : string) : Key := ("ns", name).

(** A scheduler of pool "pool" with capacity 10 per pod. *)
Definition sched (policyType : SchedulerPolicyType) (pol : option Policy)
    (nreplicas : Z) (vpods : list VPod) (rsv : Reserved)
    : StatefulSetScheduler :=
  {| statefulSetName := "pool";
     podLister := ∅;
     stateAccessor :=
       {| vpodLister := inr vpods; capacity := 10;
          schedulerPolicy := policyType; nodeLister := inr [] |};
     hasAutoscaler := true;
     autoscaleCalls := [];
     replicas := nreplicas;
     pending := ∅;
     reserved := rsv;
     policy := pol |}.

(** The scheduler state a run ends in, when it does not panic. *)
Definition finalState
    (r : outcome (option (list Placement) * option error * StatefulSetScheduler))
    (s : StatefulSetScheduler) : StatefulSetScheduler :=
  match r with
  | Ok (_, _, s') => s'
  | Panic => s
  end.

(** Scaling up under MAXFILLUP with two pods of capacity 10: vpod "a"
    holds one vreplica on each and wants 25. *)
Definition vpodUp : VPod :=
  {| GetKey := key "a"; GetVReplicas := 25;
     GetPlacements := Some [P "pool-1" 1; P "pool-0" 1] |}.

Definition schedUp : StatefulSetScheduler := sched MAXFILLUP None 2 [vpodUp] [].

Definition schedUp_final : StatefulSetScheduler :=
  Eval vm_compute in finalState (Schedule rt schedUp vpodUp) schedUp.

(** Vpod "b" is fully placed, its committed list not in ordinal order. *)
Definition vpodSame : VPod :=
  {| GetKey := key "b"; GetVReplicas := 2;
     GetPlacements := Some [P "pool-1" 1; P "pool-0" 1] |}.

Definition schedSame : StatefulSetScheduler :=
  sched MAXFILLUP None 2 [vpodSame] [].

Definition schedSame_final : StatefulSetScheduler :=
  Eval vm_compute in finalState (Schedule rt schedSame vpodSame) schedSame.

(** A plugin policy whose only priority has weight 0, and a scheduler
    that uses it (the policy type is unset). *)
Definition badPolicy : Policy :=
  {| Predicates := [{| predicateName := "PodFitsResources" |}];
     Priorities := [{| priorityName := "LowestOrdinalPriority"; Weight := 0 |}] |}.

Definition schedBadPolicy : StatefulSetScheduler :=
  sched "" (Some badPolicy) 2 [vpodUp] [].

(** Neither a policy type nor a plugin policy. *)
Definition schedNoPolicy : StatefulSetScheduler := sched "" None 2 [vpodUp] [].

(** Scaling down under MAXFILLUP: vpod "c" holds 9 vreplicas over four
    pods (one of them with none) and wants 5. *)
Definition vpodDown : VPod :=
  {| GetKey := key "c"; GetVReplicas := 5;
     GetPlacements :=
       Some [P "pool-0" 3; P "pool-1" 0; P "pool-2" 4; P "pool-3" 2] |}.

Definition schedDown : StatefulSetScheduler :=
  sched MAXFILLUP None 4 [vpodDown] [].

(** Vpod "d" has committed 5 vreplicas on pool-0 and 1 on pool-1 while
    the table still reserves 3 on pool-0, 1 on pool-1 and 4 on pool-2. *)
Definition vpodStale : VPod :=
  {| GetKey := key "d"; GetVReplicas := 6;
     GetPlacements := Some [P "pool-0" 5; P "pool-1" 1] |}.

Definition builderStale : stateBuilder :=
  {| vpodLister := inr [vpodStale]; capacity := 10;
     schedulerPolicy := MAXFILLUP; nodeLister := inr [] |}.

Definition reservedStale : Reserved :=
  [(key "d", [("pool-0", 3); ("pool-1", 1); ("pool-2", 4)])].

(** Vpod "e" has committed one vreplica on pool-0; an earlier call
    returned it 5 on pool-0 and 3 on pool-1, both still reserved. The
    reservation map of "e" is ranged over with pool-0 first in
    [reservedGrow] and with pool-1 first in [reservedGrow']. *)
Definition vpodGrow : VPod :=
  {| GetKey := key "e"; GetVReplicas := 8;
     GetPlacements := Some [P "pool-0" 1] |}.

Definition builderGrow : stateBuilder :=
  {| vpodLister := inr [vpodGrow]; capacity := 10;
     schedulerPolicy := MAXFILLUP; nodeLister := inr [] |}.

Definition reservedGrow : Reserved :=
  [(key "e", [("pool-0", 5); ("pool-1", 3)])].

Definition reservedGrow' : Reserved :=
  [(key "e", [("pool-1", 3); ("pool-0", 5)])].

(** Spreading over three zones: three pods on three nodes, one zone
    each; vpod "f" holds one vreplica on pool-0 and wants 5. *)
Definition vpodSpread : VPod :=
  {| GetKey := key "f"; GetVReplicas := 5;
     GetPlacements := Some [P "pool-0" 1] |}.

Definition schedSpread : StatefulSetScheduler :=
  {| statefulSetName := "pool";
     podLister :=
       <["pool-0" := "node-0"]>
         (<["pool-1" := "node-1"]> (<["pool-2" := "node-2"]> ∅));
     stateAccessor :=
       {| vpodLister := inr [vpodSpread]; capacity := 10;
          schedulerPolicy := EVENSPREAD;
          nodeLister :=
            inr [ {| nodeName := "node-0"; nodeUnschedulable := false;
                     nodeZoneLabel := Some "zone-0" |};
                  {| nodeName := "node-1"; nodeUnschedulable := false;
                     nodeZoneLabel := Some "zone-1" |};
                  {| nodeName := "node-2"; nodeUnschedulable := false;
                     nodeZoneLabel := Some "zone-2" |} ] |};
     hasAutoscaler := true;
     autoscaleCalls := [];
     replicas := 3;
     pending := ∅;
     reserved := [];
     policy := None |}.

Definition schedSpread_final : StatefulSetScheduler :=
  Eval vm_compute in finalState (Schedule rt schedSpread vpodSpread) schedSpread.

(** The registry as the [init] functions of the plugins fill it: every
    plugin under its own name. *)
Definition rtBuiltin : Runtime :=
  {| MaxTotalWeight := 9223372036854775807;
     GetFilterPlugin := fun name =>
       List.find (fun pl => bool_decide (fpName pl = name))
         [PodFitsResources.plugin; NoMaxResourceCount.plugin;
          EvenPodSpread.plugin];
     GetScorePlugin := fun name =>
       List.find (fun pl => bool_decide (spName pl = name))
         [LowestOrdinalPriority.plugin; AvailabilityZonePriority.plugin;
          AvailabilityNodePriority.plugin];
     randIntn := fun _ _ _ => 0;
     int32OfNonFinite := fun _ => MinInt32 |}.

(** The default policy of predicates, with the lowest ordinal as the
    only priority. *)
Definition lowestPolicy : Policy :=
  {| Predicates := [{| predicateName := "PodFitsResources" |};
                    {| predicateName := "NoMaxResourceCount" |};
                    {| predicateName := "EvenPodSpread" |}];
     Priorities := [{| priorityName := "LowestOrdinalPriority"; Weight := 2 |}] |}.

(** A scheduler whose vpod lister fails. *)
Definition schedBroken : StatefulSetScheduler :=
  {| statefulSetName := "pool";
     podLister := ∅;
     stateAccessor :=
       {| vpodLister := inl (ErrListing "lister down"); capacity := 10;
          schedulerPolicy := MAXFILLUP; nodeLister := inr [] |};
     hasAutoscaler := true;
     autoscaleCalls := [];
     replicas := 2;
     pending := ∅;
     reserved := [];
     policy := None |}.

(** A plugin policy with valid weights, and vpod "c" scaling down
    under it. *)
Definition schedPolicyDown : StatefulSetScheduler :=
  sched "" (Some lowestPolicy) 4 [vpodDown] [].

(** Vpod "p" scales up from 1 to 3 vreplicas on the plugin path, in a
    pool of two pods. *)
Definition vpodPlug : VPod :=
  {| GetKey := key "p"; GetVReplicas := 3;
     GetPlacements := Some [P "pool-1" 1] |}.

Definition schedPlug : StatefulSetScheduler :=
  sched "" (Some lowestPolicy) 2 [vpodPlug] [].

Definition schedPlug_final : StatefulSetScheduler :=
  Eval vm_compute in finalState (Schedule rtBuiltin schedPlug vpodPlug) schedPlug.

(** The snapshot a state build returns, when it returns one. *)
Definition snapshotOf (r : outcome (Reserved * (error + State))) : State :=
  match r with
  | Ok (_, inr st) => st
  | _ => mkState [] (-1) 0 0 0 "" ∅
  end.

(** The snapshot of the three-zone deployment. *)
Definition stateSpread : State :=
  Eval vm_compute in
    snapshotOf (stateBuilder_State (stateAccessor schedSpread) []).

End Example.

(** * Properties *)

(** ** Fixed-width arithmetic *)

Section int_facts.

Lemma int32_id (z : Z) : in_int32 z -> int32 z = z.
Proof.
  unfold in_int32, MinInt32, MaxInt32, int32, wrap. intros H.
  change (2 ^ (32 - 1)) with 2147483648. change (2 ^ 32) with 4294967296.
  rewrite Z.mod_small; lia.
Qed.

Lemma int32_range (z : Z) : in_int32 (int32 z).
Proof.
  unfold in_int32, MinInt32, MaxInt32, int32, wrap.
  change (2 ^ (32 - 1)) with 2147483648. change (2 ^ 32) with 4294967296.
  pose proof (Z.mod_pos_bound (z + 2147483648) 4294967296). lia.
Qed.

Lemma int32_le_nonneg (z : Z) : 0 <= z -> int32 z <= z.
Proof.
  intros H. unfold int32, wrap.
  change (2 ^ (32 - 1)) with 2147483648. change (2 ^ 32) with 4294967296.
  pose proof (Z.mod_le (z + 2147483648) 4294967296). lia.
Qed.

Lemma add32_id (a b : Z) : in_int32 (a + b) -> add32 a b = a + b.
Proof. apply int32_id. Qed.

Lemma sub32_id (a b : Z) : in_int32 (a - b) -> sub32 a b = a - b.
Proof. apply int32_id. Qed.

Lemma int32_add_l (a b : Z) : int32 (int32 a + b) = int32 (a + b).
Proof.
  unfold int32, wrap.
  change (2 ^ (32 - 1)) with 2147483648. change (2 ^ 32) with 4294967296.
  f_equal.
  replace ((a + 2147483648) mod 4294967296 - 2147483648 + b + 2147483648)
    with ((a + 2147483648) mod 4294967296 + b) by lia.
  rewrite Zplus_mod_idemp_l. f_equal. lia.
Qed.

Lemma int32_idem (a : Z) : int32 (int32 a) = int32 a.
Proof. apply int32_id, int32_range. Qed.

Lemma Int32Min_spec (a b : Z) : Int32Min a b = Z.min a b.
Proof. unfold Int32Min. destruct (Z.ltb_spec b a); lia. Qed.

End int_facts.

(** ** Bounds-checked slices *)

Section slice_facts.

Lemma index_Ok {A : Type} (l : list A) (i : Z) (a : A) :
  index l i = Ok a <-> 0 <= i /\ l !! Z.to_nat i = Some a.
Proof.
  unfold index. destruct (Z.ltb_spec i 0).
  - split; [discriminate | lia].
  - destruct (l !! Z.to_nat i) eqn:E; split; intros H1;
      try discriminate; try (destruct H1; congruence).
    + injection H1 as ->. auto.
Qed.

Lemma Free_ok_nonneg (s : State) (ordinal : Z) :
  0 <= ordinal -> exists f, Free s ordinal = Ok f.
Proof.
  intros Hn. unfold Free.
  destruct (Z.leb_spec (len32 (FreeCap s)) ordinal) as [|Hlt]; [eauto |].
  unfold len32 in Hlt.
  pose proof (int32_le_nonneg (Z.of_nat (length (FreeCap s))) ltac:(lia)).
  destruct (lookup_lt_is_Some_2 (FreeCap s) (Z.to_nat ordinal)) as [f Hf]; [lia |].
  exists f. apply index_Ok. auto.
Qed.

End slice_facts.

(** ** PodFitsResources *)

(** C7. For every snapshot and every pod ordinal (ordinals are
    non-negative), [PodFitsResources.Filter] returns a status; that
    status is Success exactly when the snapshot's [FreeCap] list is empty
    or the free capacity at the ordinal is strictly positive, and
    otherwise it is the Unschedulable status with the single reason
    "pod at full capacity". *)
Theorem PodFitsResources_Filter_spec (states : State) (podID : Z) :
  0 <= podID ->
  exists (f : Z) (st : Status),
    Free states podID = Ok f /\
    PodFitsResources.Filter states podID = Ok (Some st) /\
    (code st = Success <-> (FreeCap states = [] \/ 0 < f)) /\
    (code st = Success -> st = NewStatus Success []) /\
    (code st <> Success ->
       st = NewStatus Unschedulable ["pod at full capacity"]).
Proof.
  intros Hn. destruct (Free_ok_nonneg states podID Hn) as [f Hf].
  exists f. unfold PodFitsResources.Filter. rewrite Hf. simpl.
  destruct (FreeCap states) as [|c l] eqn:Hc; simpl.
  - exists (NewStatus Success []). repeat split; auto; simpl; congruence.
  - destruct (Z.ltb_spec 0 f).
    + exists (NewStatus Success []). repeat split; auto; simpl; congruence.
    + exists (NewStatus Unschedulable [PodFitsResources.ErrReasonUnschedulable]).
      repeat split; simpl; try congruence.
      intros [Hd | Hd]; [discriminate | lia].
Qed.

Lemma PodFitsResources_Filter_spec_witness :
  exists (f : Z) (st : Status),
    Free (mkState [0; 3] 1 10 0 0 MAXFILLUP ∅) 0 = Ok f /\
    PodFitsResources.Filter (mkState [0; 3] 1 10 0 0 MAXFILLUP ∅) 0 = Ok (Some st) /\
    (code st = Success <-> (FreeCap (mkState [0; 3] 1 10 0 0 MAXFILLUP ∅) = [] \/ 0 < f)) /\
    (code st = Success -> st = NewStatus Success []) /\
    (code st <> Success ->
       st = NewStatus Unschedulable ["pod at full capacity"]).
Proof.
  apply (PodFitsResources_Filter_spec (mkState [0; 3] 1 10 0 0 MAXFILLUP ∅) 0).
  lia.
Defined.

(** ** Stable sorting *)

Section sort_facts.
Context {A : Type} (key : A -> Z).

Lemma insertStable_perm (x : A) (l : list A) :
  Sort.insertStable (keyLess key) x l ≡ₚ x :: l.
Proof.
  induction l as [|y r IH]; simpl; [done |].
  destruct ((keyLess key) y x); [| done].
  rewrite IH. apply Permutation_swap.
Qed.

Lemma SliceStable_perm (l : list A) : Sort.SliceStable (keyLess key) l ≡ₚ l.
Proof.
  induction l as [|x r IH]; simpl; [done |].
  rewrite insertStable_perm. by rewrite IH.
Qed.

Lemma insertStable_sorted (x : A) (l : list A) :
  StronglySorted (keyLe key) l -> StronglySorted (keyLe key) (Sort.insertStable (keyLess key) x l).
Proof.
  induction 1 as [|y r Hs IH Hall]; simpl.
  - repeat constructor.
  - unfold keyLess at 1. destruct (Z.ltb_spec (key y) (key x)) as [Hlt | Hge].
    + constructor; [exact IH |].
      rewrite insertStable_perm. constructor; [unfold keyLe; lia | exact Hall].
    + constructor; [by constructor |].
      constructor; [exact Hge |].
      eapply Forall_impl; [exact Hall |]. unfold keyLe. intros; simpl in *; lia.
Qed.

Lemma SliceStable_sorted (l : list A) :
  StronglySorted (keyLe key) (Sort.SliceStable (keyLess key) l).
Proof.
  induction l as [|x r IH]; simpl; [constructor |].
  by apply insertStable_sorted.
Qed.

(** Stability: the elements of any one key keep their relative order. *)
Lemma insertStable_stable (k : Z) (x : A) (l : list A) :
  filter (fun a => key a = k) (Sort.insertStable (keyLess key) x l)
  = filter (fun a => key a = k) (x :: l).
Proof.
  induction l as [|y r IH]; simpl; [done |].
  unfold keyLess at 1. destruct (Z.ltb_spec (key y) (key x)) as [Hlt | Hge]; [| done].
  rewrite filter_cons, IH, !filter_cons.
  repeat case_decide; try done; lia.
Qed.

Lemma SliceStable_stable (k : Z) (l : list A) :
  filter (fun a => key a = k) (Sort.SliceStable (keyLess key) l)
  = filter (fun a => key a = k) l.
Proof.
  induction l as [|x r IH]; simpl; [done |].
  rewrite insertStable_stable, !filter_cons, IH. done.
Qed.

(** A list already in order is left as it is. *)
Lemma SliceStable_sorted_id (l : list A) :
  StronglySorted (keyLe key) l -> Sort.SliceStable (keyLess key) l = l.
Proof.
  induction 1 as [|x r Hs IH Hall]; simpl; [done |].
  rewrite IH. destruct r as [|y r']; simpl; [done |].
  apply Forall_cons in Hall as [Hxy _]. unfold keyLess, keyLe in *.
  destruct (Z.ltb_spec (key y) (key x)); [lia | done].
Qed.

End sort_facts.

Lemma Schedule_sorts (rt : Runtime) (s : StatefulSetScheduler) (vpod : VPod)
    (ps0 : list Placement) (e : option error) (s0 : StatefulSetScheduler) :
  scheduleVPod rt s vpod = Ok (Some ps0, e, s0) ->
  Schedule rt s vpod =
    Ok (Some (Sort.SliceStable (keyLess ordinalOf) ps0), e,
        withReservedTable s0
          (reservePlacements vpod (Sort.SliceStable (keyLess ordinalOf) ps0)
             (reserved s0))).
Proof. intros H. unfold Schedule. rewrite H. reflexivity. Qed.

Lemma Schedule_nil (rt : Runtime) (s : StatefulSetScheduler) (vpod : VPod)
    (e : option error) (s0 : StatefulSetScheduler) :
  scheduleVPod rt s vpod = Ok (None, e, s0) ->
  Schedule rt s vpod = Ok (None, e, s0).
Proof. intros H. unfold Schedule. rewrite H. reflexivity. Qed.

Lemma Schedule_inv (rt : Runtime) (s : StatefulSetScheduler) (vpod : VPod)
    (ps : list Placement) (e : option error) (s' : StatefulSetScheduler) :
  Schedule rt s vpod = Ok (Some ps, e, s') ->
  exists ps0 s0,
    scheduleVPod rt s vpod = Ok (Some ps0, e, s0) /\
    ps = Sort.SliceStable (keyLess ordinalOf) ps0 /\
    s' = withReservedTable s0 (reservePlacements vpod ps (reserved s0)).
Proof.
  unfold Schedule. destruct (scheduleVPod rt s vpod) as [[[ps0 e0] s0]|]; [| discriminate].
  simpl. destruct ps0 as [ps0|]; [| discriminate].
  intros [= <- <- <-]. eauto.
Qed.

(** C8. Every non-nil placement list returned by [Schedule] is the
    stable sort, by worker ordinal ascending, of the list computed by
    [scheduleVPod]: it is in ascending ordinal order, it has the same
    placements, and placements of equal ordinal keep their relative
    order.  This holds whatever policy path produced the list. *)
Theorem Schedule_sorted_by_ordinal (rt : Runtime) (s : StatefulSetScheduler)
    (vpod : VPod) (ps : list Placement) (e : option error)
    (s' : StatefulSetScheduler) :
  Schedule rt s vpod = Ok (Some ps, e, s') ->
  exists ps0 s0,
    scheduleVPod rt s vpod = Ok (Some ps0, e, s0) /\
    StronglySorted (fun p q => ordinalOf p <= ordinalOf q) ps /\
    ps ≡ₚ ps0 /\
    forall k, filter (fun p => ordinalOf p = k) ps
              = filter (fun p => ordinalOf p = k) ps0.
Proof.
  intros H. apply Schedule_inv in H as (ps0 & s0 & Hs & -> & _).
  exists ps0, s0. split; [exact Hs |]. split; [| split].
  - apply (SliceStable_sorted ordinalOf).
  - apply SliceStable_perm.
  - intros k. apply SliceStable_stable.
Qed.

Lemma Schedule_sorted_by_ordinal_witness :
  exists ps0 s0,
    scheduleVPod Example.rt Example.schedUp Example.vpodUp
      = Ok (Some ps0, Some ErrNotEnoughReplicas, s0) /\
    StronglySorted (fun p q => ordinalOf p <= ordinalOf q)
      [Example.P "pool-0" 10; Example.P "pool-1" 10] /\
    [Example.P "pool-0" 10; Example.P "pool-1" 10] ≡ₚ ps0 /\
    forall k, filter (fun p => ordinalOf p = k)
                [Example.P "pool-0" 10; Example.P "pool-1" 10]
              = filter (fun p => ordinalOf p = k) ps0.
Proof.
  apply (Schedule_sorted_by_ordinal Example.rt Example.schedUp Example.vpodUp
           [Example.P "pool-0" 10; Example.P "pool-1" 10]
           (Some ErrNotEnoughReplicas) Example.schedUp_final).
  vm_compute. reflexivity.
Defined.

(** ** Totals *)

Lemma sumVReplicas_app (l1 l2 : list Placement) :
  sumVReplicas (l1 ++ l2) = sumVReplicas l1 + sumVReplicas l2.
Proof. induction l1 as [|p l1 IH]; simpl; [done |]. rewrite IH. lia. Qed.

Lemma sumVReplicas_perm (l1 l2 : list Placement) :
  l1 ≡ₚ l2 -> sumVReplicas l1 = sumVReplicas l2.
Proof. induction 1; simpl; lia. Qed.

Lemma sumVReplicas_nonneg (l : list Placement) :
  Forall (fun p => 0 <= VReplicas p) l -> 0 <= sumVReplicas l.
Proof. induction 1; simpl; lia. Qed.

Lemma total_fold (l : list Placement) (t : Z) :
  fold_left (fun t p => add32 t (VReplicas p)) l (int32 t)
  = int32 (t + sumVReplicas l).
Proof.
  revert t. induction l as [|p l IH]; intros t; simpl.
  - f_equal. lia.
  - unfold add32 at 2. rewrite int32_add_l, IH. f_equal. lia.
Qed.

(** The committed total is the exact sum, wrapped to 32 bits. *)
Lemma GetTotalVReplicas_sum (placements : option (list Placement)) :
  GetTotalVReplicas placements = int32 (sumVReplicas (elems placements)).
Proof. unfold GetTotalVReplicas. apply (total_fold _ 0). Qed.

(** ** The paths of [scheduleVPod] *)

Section schedule_paths.
Variables (rt : Runtime) (s : StatefulSetScheduler) (vpod : VPod).
Variables (rsv : Reserved) (state : State).
Hypothesis Hstate :
  stateBuilder_State (stateAccessor s) (reserved s) = Ok (rsv, inr state).

Lemma State_policy : SchedulerPolicy state = schedulerPolicy (stateAccessor s).
Proof.
  clear vpod rt. revert Hstate. unfold stateBuilder_State.
  destruct (vpodLister (stateAccessor s)); [discriminate |].
  destruct (vpodsLoop _ _ _) as [a|]; [| discriminate]. simpl.
  destruct (reservedLoop _ _ _ _ _) as [[free last]|]; [| discriminate]. simpl.
  destruct (isEvenSpread _).
  - destruct (nodeLister _); [discriminate |].
    destruct (nodesLoop _ _ _). intros [= _ <-]. done.
  - intros [= _ <-]. done.
Qed.

Lemma scheduleVPod_already :
  GetTotalVReplicas (GetPlacements vpod) = GetVReplicas vpod ->
  scheduleVPod rt s vpod =
    Ok (GetPlacements vpod, None,
        withPending (withReservedTable s rsv)
          (delete (GetKey vpod) (pending s))).
Proof.
  intros Heq. unfold scheduleVPod. rewrite Hstate. simpl.
  rewrite Heq, Z.eqb_refl. reflexivity.
Qed.

Lemma scheduleVPod_no_policy :
  GetTotalVReplicas (GetPlacements vpod) <> GetVReplicas vpod ->
  SchedulerPolicy state = "" ->
  policy s = None ->
  scheduleVPod rt s vpod =
    Ok (GetPlacements vpod, None,
        withPending (withReservedTable s rsv)
          (delete (GetKey vpod) (pending s))).
Proof.
  intros Hne Hp Hn. unfold scheduleVPod. rewrite Hstate. simpl.
  destruct (Z.eqb_spec (GetTotalVReplicas (GetPlacements vpod)) (GetVReplicas vpod));
    [done |].
  rewrite Hp. simpl. rewrite Hn. reflexivity.
Qed.

Lemma scheduleVPod_invalid_policy (pol : Policy) :
  GetTotalVReplicas (GetPlacements vpod) <> GetVReplicas vpod ->
  SchedulerPolicy state = "" ->
  policy s = Some pol ->
  ValidatePolicy rt pol <> [] ->
  scheduleVPod rt s vpod =
    Ok (None, Some ErrValidatingPolicyFailed, withReservedTable s rsv).
Proof.
  intros Hne Hp Hpol Hv. unfold scheduleVPod. rewrite Hstate. simpl.
  destruct (Z.eqb_spec (GetTotalVReplicas (GetPlacements vpod)) (GetVReplicas vpod));
    [done |].
  rewrite Hp. simpl. rewrite Hpol.
  destruct (ValidatePolicy rt pol); [done | reflexivity].
Qed.

End schedule_paths.

(** What [Schedule] makes of a result of [scheduleVPod] that is the
    committed list itself. *)
Lemma Schedule_of_committed (rt : Runtime) (s s0 : StatefulSetScheduler)
    (vpod : VPod) :
  scheduleVPod rt s vpod = Ok (GetPlacements vpod, None, s0) ->
  exists s',
    Schedule rt s vpod =
      Ok (option_map (Sort.SliceStable (keyLess ordinalOf)) (GetPlacements vpod),
          None, s') /\
    pending s' = pending s0 /\
    autoscaleCalls s' = autoscaleCalls s0.
Proof.
  intros H. destruct (GetPlacements vpod) as [ps|] eqn:Hps.
  - eexists. split; [by apply Schedule_sorts |]. done.
  - eexists. split; [by apply Schedule_nil |]. done.
Qed.

Lemma sort_committed_id (placements : option (list Placement)) :
  StronglySorted (keyLe ordinalOf) (elems placements) ->
  option_map (Sort.SliceStable (keyLess ordinalOf)) placements = placements.
Proof.
  destruct placements as [ps|]; simpl; [| done].
  intros H. by rewrite SliceStable_sorted_id.
Qed.

(** ** Policy validation *)

Lemma ValidatePolicy_fold (rt : Runtime) (l : list PriorityPolicy)
    (acc : list string) :
  fold_left
    (fun validationErrors priority =>
       if weightOutOfRange rt priority then
         validationErrors ++
           ["priority " +:+ priorityName priority +:+
            " should have a positive weight applied to it or it has overflown"]
       else validationErrors) l acc = []
  <-> acc = [] /\ Forall (fun p => 0 < Weight p < MaxTotalWeight rt) l.
Proof.
  revert acc. induction l as [|p l IH]; intros acc; simpl.
  - split; [intros ->; by split | by intros [-> _]].
  - rewrite IH, Forall_cons. unfold weightOutOfRange.
    destruct (Z.leb_spec (Weight p) 0), (Z.leb_spec (MaxTotalWeight rt) (Weight p));
      simpl; split; intros [H1 H2]; try (split; [done | split; [lia | done]]);
      try (by destruct acc); try (destruct H2; lia).
    split; [done | by destruct H2].
Qed.

(** C9. [ValidatePolicy] returns the empty (nil) error list exactly when
    every priority weight [w] of the policy satisfies
    [0 < w < MaxTotalWeight]; and when the validation of the plugin
    policy fails inside [Schedule] (the snapshot is built, the policy
    type is unset, a plugin policy is set and the committed total differs
    from the desired count, so that the validation is reached), [Schedule]
    returns the nil placement list together with an error. *)
Theorem ValidatePolicy_spec (rt : Runtime) (s : StatefulSetScheduler)
    (vpod : VPod) (pol : Policy) (rsv : Reserved) (state : State) :
  (ValidatePolicy rt pol = []
   <-> Forall (fun p => 0 < Weight p < MaxTotalWeight rt) (Priorities pol)) /\
  (stateBuilder_State (stateAccessor s) (reserved s) = Ok (rsv, inr state) ->
   schedulerPolicy (stateAccessor s) = "" ->
   policy s = Some pol ->
   GetTotalVReplicas (GetPlacements vpod) <> GetVReplicas vpod ->
   ValidatePolicy rt pol <> [] ->
   Schedule rt s vpod =
     Ok (None, Some ErrValidatingPolicyFailed, withReservedTable s rsv)).
Proof.
  split.
  - unfold ValidatePolicy. rewrite ValidatePolicy_fold. tauto.
  - intros Hst Hp Hpol Hne Hv. apply Schedule_nil.
    eapply scheduleVPod_invalid_policy; eauto.
    by rewrite (State_policy s rsv state Hst).
Qed.

Lemma ValidatePolicy_spec_witness :
  (ValidatePolicy Example.rt Example.badPolicy = []
   <-> Forall (fun p => 0 < Weight p < MaxTotalWeight Example.rt)
         (Priorities Example.badPolicy)) /\
  Schedule Example.rt Example.schedBadPolicy Example.vpodUp =
    Ok (None, Some ErrValidatingPolicyFailed,
        withReservedTable Example.schedBadPolicy []).
Proof.
  pose proof (ValidatePolicy_spec Example.rt Example.schedBadPolicy
                Example.vpodUp Example.badPolicy []
                (mkState [9; 9] 1 10 0 0 "" ∅)) as [H1 H2].
  split; [exact H1 |].
  apply H2; [vm_compute; reflexivity | reflexivity | reflexivity
            | vm_compute; discriminate | vm_compute; discriminate].
Defined.

(** ** Fully placed vpods *)

(** C4, as stated, fails: for the fully placed vpod "b" of the example,
    whose committed list is [pool-1, pool-0], [Schedule] returns the list
    in ordinal order, not the committed list. *)
Lemma Schedule_already_placed_counterexample :
  GetTotalVReplicas (GetPlacements Example.vpodSame)
    = GetVReplicas Example.vpodSame /\
  Schedule Example.rt Example.schedSame Example.vpodSame =
    Ok (Some [Example.P "pool-0" 1; Example.P "pool-1" 1], None,
        Example.schedSame_final) /\
  Some [Example.P "pool-0" 1; Example.P "pool-1" 1]
    <> GetPlacements Example.vpodSame.
Proof.
  split; [reflexivity |]. split; [vm_compute; reflexivity | discriminate].
Qed.

(** C4, amended. When the snapshot is built and the committed total of
    the vpod equals its desired count, [scheduleVPod] returns the
    committed list unchanged with a nil error, and [Schedule] returns
    that list stably sorted by ordinal (hence the very list when it is
    already in ascending ordinal order, or nil), with a nil error; the
    vpod's entry is removed from the pending table and the autoscaler is
    not called. *)
Theorem Schedule_already_placed (rt : Runtime) (s : StatefulSetScheduler)
    (vpod : VPod) (rsv : Reserved) (state : State) :
  stateBuilder_State (stateAccessor s) (reserved s) = Ok (rsv, inr state) ->
  GetTotalVReplicas (GetPlacements vpod) = GetVReplicas vpod ->
  scheduleVPod rt s vpod =
    Ok (GetPlacements vpod, None,
        withPending (withReservedTable s rsv) (delete (GetKey vpod) (pending s))) /\
  exists s',
    Schedule rt s vpod =
      Ok (option_map (Sort.SliceStable (keyLess ordinalOf)) (GetPlacements vpod),
          None, s') /\
    (StronglySorted (keyLe ordinalOf) (elems (GetPlacements vpod)) ->
     option_map (Sort.SliceStable (keyLess ordinalOf)) (GetPlacements vpod)
       = GetPlacements vpod) /\
    pending s' = delete (GetKey vpod) (pending s) /\
    pending s' !! GetKey vpod = None /\
    autoscaleCalls s' = autoscaleCalls s.
Proof.
  intros Hst Heq.
  pose proof (scheduleVPod_already rt s vpod rsv state Hst Heq) as Hs.
  split; [exact Hs |].
  destruct (Schedule_of_committed rt s _ vpod Hs) as (s' & HS & Hp & Ha).
  exists s'. split; [exact HS |]. split; [apply sort_committed_id |].
  simpl in Hp, Ha. rewrite Hp. split; [done |]. split; [| done].
  apply lookup_delete_eq.
Qed.

Lemma Schedule_already_placed_witness :
  scheduleVPod Example.rt Example.schedSame Example.vpodSame =
    Ok (GetPlacements Example.vpodSame, None,
        withPending (withReservedTable Example.schedSame [])
          (delete (GetKey Example.vpodSame) (pending Example.schedSame))) /\
  exists s',
    Schedule Example.rt Example.schedSame Example.vpodSame =
      Ok (option_map (Sort.SliceStable (keyLess ordinalOf))
            (GetPlacements Example.vpodSame), None, s') /\
    (StronglySorted (keyLe ordinalOf) (elems (GetPlacements Example.vpodSame)) ->
     option_map (Sort.SliceStable (keyLess ordinalOf))
       (GetPlacements Example.vpodSame) = GetPlacements Example.vpodSame) /\
    pending s' = delete (GetKey Example.vpodSame) (pending Example.schedSame) /\
    pending s' !! GetKey Example.vpodSame = None /\
    autoscaleCalls s' = autoscaleCalls Example.schedSame.
Proof.
  apply (Schedule_already_placed Example.rt Example.schedSame Example.vpodSame
           [] (mkState [9; 9] 1 10 0 0 MAXFILLUP ∅)).
  - vm_compute. reflexivity.
  - reflexivity.
Defined.

(** ** Neither policy type nor plugin policy *)

(** C10. With an empty policy type and no plugin policy, for a vpod
    whose desired count differs from its committed total, [Schedule]
    places and removes nothing: it returns the vpod's committed
    placements (in stable ordinal order: a permutation of the committed
    list, the list itself when it is already ordered, nil when it is nil)
    with a nil error, deletes the vpod's pending entry and does not call
    the autoscaler, so the shortfall is reported as success. *)
Theorem Schedule_without_policy (rt : Runtime) (s : StatefulSetScheduler)
    (vpod : VPod) (rsv : Reserved) (state : State) :
  stateBuilder_State (stateAccessor s) (reserved s) = Ok (rsv, inr state) ->
  schedulerPolicy (stateAccessor s) = "" ->
  policy s = None ->
  GetTotalVReplicas (GetPlacements vpod) <> GetVReplicas vpod ->
  exists ps s',
    Schedule rt s vpod = Ok (ps, None, s') /\
    ps = option_map (Sort.SliceStable (keyLess ordinalOf)) (GetPlacements vpod) /\
    elems ps ≡ₚ elems (GetPlacements vpod) /\
    (ps = None <-> GetPlacements vpod = None) /\
    (StronglySorted (keyLe ordinalOf) (elems (GetPlacements vpod)) ->
     ps = GetPlacements vpod) /\
    GetTotalVReplicas ps <> GetVReplicas vpod /\
    pending s' = delete (GetKey vpod) (pending s) /\
    autoscaleCalls s' = autoscaleCalls s.
Proof.
  intros Hst Hp Hn Hne.
  assert (Hs := scheduleVPod_no_policy rt s vpod rsv state Hst Hne
                  (eq_trans (State_policy s rsv state Hst) Hp) Hn).
  destruct (Schedule_of_committed rt s _ vpod Hs) as (s' & HS & Hpe & Ha).
  eexists _, s'. split; [exact HS |]. split; [done |].
  assert (Hperm : elems (option_map (Sort.SliceStable (keyLess ordinalOf))
                           (GetPlacements vpod)) ≡ₚ elems (GetPlacements vpod)).
  { destruct (GetPlacements vpod); simpl; [apply SliceStable_perm | done]. }
  split; [exact Hperm |]. split; [by destruct (GetPlacements vpod) |].
  split; [apply sort_committed_id |]. split; [| by split].
  intros Ht. apply Hne. rewrite <- Ht.
  rewrite !GetTotalVReplicas_sum. f_equal. by apply sumVReplicas_perm.
Qed.

Lemma Schedule_without_policy_witness :
  exists ps s',
    Schedule Example.rt Example.schedNoPolicy Example.vpodUp = Ok (ps, None, s') /\
    ps = option_map (Sort.SliceStable (keyLess ordinalOf))
           (GetPlacements Example.vpodUp) /\
    elems ps ≡ₚ elems (GetPlacements Example.vpodUp) /\
    (ps = None <-> GetPlacements Example.vpodUp = None) /\
    (StronglySorted (keyLe ordinalOf) (elems (GetPlacements Example.vpodUp)) ->
     ps = GetPlacements Example.vpodUp) /\
    GetTotalVReplicas ps <> GetVReplicas Example.vpodUp /\
    pending s' = delete (GetKey Example.vpodUp) (pending Example.schedNoPolicy) /\
    autoscaleCalls s' = autoscaleCalls Example.schedNoPolicy.
Proof.
  apply (Schedule_without_policy Example.rt Example.schedNoPolicy Example.vpodUp
           [] (mkState [9; 9] 1 10 0 0 "" ∅)).
  - vm_compute. reflexivity.
  - reflexivity.
  - reflexivity.
  - vm_compute. discriminate.
Defined.

(** ** Scale-down under MAXFILLUP *)

Section remove_replicas.

Lemma wellFormedTotals_cons (p : Placement) (l : list Placement) :
  wellFormedTotals (p :: l) ->
  0 <= VReplicas p <= MaxInt32 /\ wellFormedTotals l.
Proof.
  intros [Hall Hsum]. apply Forall_cons in Hall as [Hp Hall]. simpl in Hsum.
  pose proof (sumVReplicas_nonneg l Hall). unfold wellFormedTotals.
  split; [lia |]. split; [done | lia].
Qed.

Lemma sumVReplicas_filter_pos (l : list Placement) :
  Forall (fun p => 0 <= VReplicas p) l ->
  sumVReplicas (filter (fun q => 0 < VReplicas q) l) = sumVReplicas l.
Proof.
  induction 1 as [|p l Hp Hall IH]; simpl; [done |].
  rewrite filter_cons. case_decide; simpl; lia.
Qed.

Lemma filter_rev (l : list Placement) :
  filter (fun q => 0 < VReplicas q) (rev l)
  = rev (filter (fun q => 0 < VReplicas q) l).
Proof.
  induction l as [|p l IH]; simpl; [done |].
  rewrite filter_app, IH, !filter_cons, filter_nil.
  case_decide; simpl; [done | by rewrite app_nil_r].
Qed.

Lemma removeReplicas_loop_zero (r np : list Placement) :
  wellFormedTotals r ->
  removeReplicas_loop r 0 np = np ++ filter (fun q => 0 < VReplicas q) r.
Proof.
  revert np. induction r as [|p r IH]; intros np Hwf; simpl.
  - by rewrite app_nil_r.
  - apply wellFormedTotals_cons in Hwf as [Hp Hwf]. rewrite filter_cons.
    destruct (Z.leb_spec (VReplicas p) 0).
    + replace (VReplicas p) with 0 by lia. change (sub32 0 0) with 0.
      rewrite IH by done. case_decide; [lia | done].
    + rewrite IH by done. rewrite sub32_id by (unfold in_int32, MinInt32; lia).
      case_decide; [| lia]. rewrite <- app_assoc. simpl.
      do 2 f_equal. destruct p; simpl; f_equal; lia.
Qed.

Lemma removeReplicas_loop_spec (rps : list Placement) (diff : Z)
    (np : list Placement) :
  wellFormedTotals rps ->
  0 <= diff <= sumVReplicas rps ->
  (diff = sumVReplicas rps /\ removeReplicas_loop rps diff np = np) \/
  (exists dropped p rest,
     rps = dropped ++ p :: rest /\
     sumVReplicas dropped <= diff < sumVReplicas dropped + VReplicas p /\
     removeReplicas_loop rps diff np =
       np ++ {| PodName := PodName p;
                VReplicas := VReplicas p - (diff - sumVReplicas dropped) |}
          :: filter (fun q => 0 < VReplicas q) rest).
Proof.
  revert diff np. induction rps as [|p r IH]; intros diff np Hwf Hd; simpl in *.
  - left. split; [lia | done].
  - pose proof Hwf as [Hall Hsum]. simpl in Hsum.
    apply wellFormedTotals_cons in Hwf as [Hp Hwf].
    destruct (Z.leb_spec (VReplicas p) diff) as [Hle | Hlt].
    + rewrite sub32_id by (unfold in_int32, MinInt32; lia).
      destruct (IH (diff - VReplicas p) np Hwf ltac:(lia))
        as [[He Hr] | (dropped & q & rest & -> & Hb & Hr)].
      * left. split; [lia | done].
      * right. exists (p :: dropped), q, rest. simpl.
        split; [done |]. split; [lia |]. rewrite Hr. do 3 f_equal. lia.
    + right. exists [], p, r. simpl. split; [done |]. split; [lia |].
      rewrite removeReplicas_loop_zero by done.
      rewrite sub32_id by (unfold in_int32, MinInt32; lia).
      rewrite <- app_assoc. simpl. do 3 f_equal. lia.
Qed.

Lemma wellFormedTotals_rev (l : list Placement) :
  wellFormedTotals l -> wellFormedTotals (rev l).
Proof.
  intros [Hall Hsum]. split.
  - by apply Forall_rev.
  - by rewrite (sumVReplicas_perm (rev l) l) by (symmetry; apply Permutation_rev).
Qed.

Lemma sumVReplicas_rev (l : list Placement) :
  sumVReplicas (rev l) = sumVReplicas l.
Proof. apply sumVReplicas_perm. symmetry. apply Permutation_rev. Qed.

(** What [removeReplicas] returns, in terms of the list it is given. *)
Lemma removeReplicas_spec (diff : Z) (placements : list Placement) :
  wellFormedTotals placements ->
  0 <= diff <= sumVReplicas placements ->
  sumVReplicas (removeReplicas diff placements) = sumVReplicas placements - diff /\
  ((diff = sumVReplicas placements /\ removeReplicas diff placements = []) \/
   (exists kept p dropped,
      placements = kept ++ p :: dropped /\
      sumVReplicas dropped <= diff < sumVReplicas dropped + VReplicas p /\
      removeReplicas diff placements =
        {| PodName := PodName p;
           VReplicas := VReplicas p - (diff - sumVReplicas dropped) |}
        :: rev (filter (fun q => 0 < VReplicas q) kept))).
Proof.
  intros Hwf Hd. unfold removeReplicas.
  destruct (removeReplicas_loop_spec (rev placements) diff []
              (wellFormedTotals_rev _ Hwf) ltac:(by rewrite sumVReplicas_rev))
    as [[He Hr] | (dropped & p & rest & Hrev & Hb & Hr)].
  - rewrite sumVReplicas_rev in He. rewrite Hr. simpl. split; [lia |].
    left. done.
  - assert (Hpl : placements = rev rest ++ p :: rev dropped).
    { rewrite <- (rev_involutive placements), Hrev, rev_app_distr. simpl.
      by rewrite <- app_assoc. }
    assert (Hrest : Forall (fun q => 0 <= VReplicas q) rest).
    { destruct Hwf as [Hall _]. rewrite Hpl in Hall.
      apply Forall_app in Hall as [Hall _]. apply Forall_rev in Hall.
      by rewrite rev_involutive in Hall. }
    rewrite Hr. simpl. split.
    + rewrite sumVReplicas_filter_pos by done.
      rewrite Hpl, sumVReplicas_app. simpl. rewrite !sumVReplicas_rev. lia.
    + right. exists (rev rest), p, (rev dropped). split; [done |].
      rewrite sumVReplicas_rev. split; [done |].
      f_equal. by rewrite filter_rev, rev_involutive.
Qed.

End remove_replicas.

Lemma scheduleVPod_scale_down (rt : Runtime) (s : StatefulSetScheduler)
    (vpod : VPod) (rsv : Reserved) (state : State) :
  stateBuilder_State (stateAccessor s) (reserved s) = Ok (rsv, inr state) ->
  schedulerPolicy (stateAccessor s) <> "" ->
  isEvenSpread (schedulerPolicy (stateAccessor s)) = false ->
  GetVReplicas vpod < GetTotalVReplicas (GetPlacements vpod) ->
  scheduleVPod rt s vpod =
    Ok (Some (removeReplicas
                (sub32 (GetTotalVReplicas (GetPlacements vpod)) (GetVReplicas vpod))
                (elems (GetPlacements vpod))),
        None, withReservedTable s rsv).
Proof.
  intros Hst Hp He Hlt. unfold scheduleVPod. rewrite Hst. simpl.
  rewrite (State_policy s rsv state Hst), He.
  destruct (Z.eqb_spec (GetTotalVReplicas (GetPlacements vpod)) (GetVReplicas vpod));
    [lia |].
  rewrite bool_decide_eq_false_2 by done. simpl.
  destruct (Z.ltb_spec (GetVReplicas vpod) (GetTotalVReplicas (GetPlacements vpod)));
    [reflexivity | lia].
Qed.

(** C6, as stated, fails: when the surplus equals the total (the vpod is
    scaled to zero), every placement is dropped and none is left,
    decremented or not. *)
Lemma removeReplicas_counterexample :
  0 <= 2 <= sumVReplicas [Example.P "pool-0" 2] /\
  ~ exists p r,
      p ∈ [Example.P "pool-0" 2] /\
      {| PodName := PodName p; VReplicas := VReplicas p - r |}
        ∈ removeReplicas 2 [Example.P "pool-0" 2].
Proof.
  split; [simpl; lia |].
  intros (p & r & _ & Hin). vm_compute in Hin. by apply elem_of_nil in Hin.
Qed.

(** C6, amended. For a placement list with non-negative counts and an
    int32 total, and a surplus [0 <= diff <= total], [removeReplicas]
    returns a list whose total is the original total minus [diff]; it
    consumes the list from its end (the highest ordinal of an ordered
    list): the trailing placements are dropped while [diff] covers them;
    if [diff] equals the total nothing is left, otherwise the last
    placement not covered is decremented by the remainder and the
    placements before it keep their counts, those of count zero being
    left out; the result is in reverse order.  On this path (policy type
    set and not a spread policy, desired count below the committed total)
    [scheduleVPod] returns that list with a nil error, [Schedule] its
    stable sort, and neither changes the pending table nor calls the
    autoscaler. *)
Theorem removeReplicas_scale_down (rt : Runtime) (s : StatefulSetScheduler)
    (vpod : VPod) (rsv : Reserved) (state : State)
    (diff : Z) (placements : list Placement) :
  (wellFormedTotals placements ->
   0 <= diff <= sumVReplicas placements ->
   sumVReplicas (removeReplicas diff placements) = sumVReplicas placements - diff /\
   ((diff = sumVReplicas placements /\ removeReplicas diff placements = []) \/
    (exists kept p dropped,
       placements = kept ++ p :: dropped /\
       sumVReplicas dropped <= diff < sumVReplicas dropped + VReplicas p /\
       removeReplicas diff placements =
         {| PodName := PodName p;
            VReplicas := VReplicas p - (diff - sumVReplicas dropped) |}
         :: rev (filter (fun q => 0 < VReplicas q) kept)))) /\
  (stateBuilder_State (stateAccessor s) (reserved s) = Ok (rsv, inr state) ->
   schedulerPolicy (stateAccessor s) <> "" ->
   isEvenSpread (schedulerPolicy (stateAccessor s)) = false ->
   wellFormedTotals (elems (GetPlacements vpod)) ->
   0 <= GetVReplicas vpod < sumVReplicas (elems (GetPlacements vpod)) ->
   let result :=
     removeReplicas (sumVReplicas (elems (GetPlacements vpod)) - GetVReplicas vpod)
       (elems (GetPlacements vpod)) in
   scheduleVPod rt s vpod = Ok (Some result, None, withReservedTable s rsv) /\
   sumVReplicas result = GetVReplicas vpod /\
   exists s',
     Schedule rt s vpod =
       Ok (Some (Sort.SliceStable (keyLess ordinalOf) result), None, s') /\
     pending s' = pending s /\
     autoscaleCalls s' = autoscaleCalls s).
Proof.
  split; [apply removeReplicas_spec |].
  intros Hst Hp He Hwf Hd result.
  assert (Ht : GetTotalVReplicas (GetPlacements vpod)
               = sumVReplicas (elems (GetPlacements vpod))).
  { rewrite GetTotalVReplicas_sum. apply int32_id.
    destruct Hwf as [_ Hsum]. unfold in_int32, MinInt32. lia. }
  assert (Hs : scheduleVPod rt s vpod
               = Ok (Some result, None, withReservedTable s rsv)).
  { rewrite (scheduleVPod_scale_down rt s vpod rsv state Hst Hp He) by lia.
    subst result. rewrite Ht, sub32_id; [done |].
    destruct Hwf as [_ Hsum]. unfold in_int32, MinInt32. lia. }
  split; [exact Hs |]. split.
  - subst result.
    destruct (removeReplicas_spec
                (sumVReplicas (elems (GetPlacements vpod)) - GetVReplicas vpod)
                _ Hwf ltac:(lia)) as [Hsum _]. lia.
  - eexists. split; [by apply Schedule_sorts |]. done.
Qed.

Lemma removeReplicas_scale_down_witness :
  sumVReplicas (removeReplicas 4 (elems (GetPlacements Example.vpodDown))) = 9 - 4 /\
  scheduleVPod Example.rt Example.schedDown Example.vpodDown =
    Ok (Some [Example.P "pool-2" 2; Example.P "pool-0" 3], None,
        withReservedTable Example.schedDown []) /\
  exists s',
    Schedule Example.rt Example.schedDown Example.vpodDown =
      Ok (Some [Example.P "pool-0" 3; Example.P "pool-2" 2], None, s') /\
    pending s' = pending Example.schedDown /\
    autoscaleCalls s' = autoscaleCalls Example.schedDown.
Proof.
  assert (Hwf : wellFormedTotals (elems (GetPlacements Example.vpodDown))).
  { split; [repeat constructor; simpl; lia | vm_compute; discriminate]. }
  destruct (removeReplicas_scale_down Example.rt Example.schedDown
              Example.vpodDown [] (mkState [7; 10; 6; 8] 3 10 0 0 MAXFILLUP ∅)
              4 (elems (GetPlacements Example.vpodDown))) as [H1 H2].
  split.
  - apply H1; [exact Hwf | simpl; lia].
  - destruct H2 as (Hs & _ & HS);
      [vm_compute; reflexivity | discriminate | reflexivity | exact Hwf
      | simpl; lia |].
    split; [exact Hs | exact HS].
Defined.

(** ** The reservation table *)

Section assoc_facts.
Context {K V : Type} `{EqDecision K}.

Lemma alookup_adelete_eq (k : K) (m : list (K * V)) :
  alookup k (adelete k m) = None.
Proof.
  induction m as [|[k' v] m IH]; simpl; [done |].
  destruct (decide (k' = k)) as [->|Hne]; simpl; [done |].
  by rewrite decide_False.
Qed.

Lemma alookup_adelete_ne (k k' : K) (m : list (K * V)) :
  k <> k' -> alookup k' (adelete k m) = alookup k' m.
Proof.
  intros Hne. induction m as [|[k0 v] m IH]; simpl; [done |].
  destruct (decide (k0 = k)) as [->|Hne0]; simpl.
  - by rewrite decide_False.
  - by rewrite IH.
Qed.

Lemma alookup_ainsert_eq (k : K) (v : V) (m : list (K * V)) :
  alookup k (ainsert k v m) = Some v.
Proof.
  induction m as [|[k' v'] m IH]; simpl.
  - by rewrite decide_True.
  - destruct (decide (k' = k)) as [->|Hne]; simpl.
    + by rewrite decide_True.
    + by rewrite decide_False.
Qed.

Lemma alookup_ainsert_ne (k k' : K) (v : V) (m : list (K * V)) :
  k <> k' -> alookup k' (ainsert k v m) = alookup k' m.
Proof.
  intros Hne. induction m as [|[k0 v0] m IH]; simpl.
  - by rewrite decide_False.
  - destruct (decide (k0 = k)) as [->|Hne0]; simpl.
    + by rewrite !decide_False.
    + by rewrite IH.
Qed.

End assoc_facts.

Section reservations.

Lemma subReserved_refl (r : Reserved) : subReserved r r.
Proof. intros k p. by right. Qed.

Lemma subReserved_trans (a b c : Reserved) :
  subReserved a b -> subReserved b c -> subReserved a c.
Proof.
  intros Hab Hbc k p. destruct (Hab k p) as [H | H]; [by left |].
  rewrite H. apply Hbc.
Qed.

(** The three cases of [withReserved] on an existing entry. *)
Lemma withReserved_entry (key : Key) (podName : string) (committed r : Z)
    (reserved : Reserved) :
  lookupReserved reserved key podName = Some r ->
  (committed < r -> withReserved key podName committed reserved = (r, reserved)) /\
  (r < committed ->
   withReserved key podName committed reserved = (committed, reserved)) /\
  (committed = r ->
   exists reserved',
     withReserved key podName committed reserved = (committed, reserved') /\
     lookupReserved reserved' key podName = None /\
     forall key' podName',
       (key', podName') <> (key, podName) ->
       lookupReserved reserved' key' podName'
       = lookupReserved reserved key' podName').
Proof.
  unfold lookupReserved, withReserved. intros Hl.
  destruct (alookup key reserved) as [rps|] eqn:Hk; [| discriminate].
  simpl in Hl. rewrite Hl.
  split; [| split].
  - intros Hlt. destruct (Z.ltb_spec committed r); [done | lia].
  - intros Hgt. destruct (Z.ltb_spec committed r); [lia |].
    destruct (Z.eqb_spec committed r); [lia | done].
  - intros ->. rewrite Z.ltb_irrefl, Z.eqb_refl. eexists. split; [done |].
    destruct (length (adelete podName rps) =? 0)%nat eqn:Hlen.
    + split.
      * by rewrite alookup_adelete_eq.
      * intros key' podName' Hne.
        destruct (decide (key = key')) as [<-|Hk'].
        -- rewrite alookup_adelete_eq, Hk. simpl.
           apply Nat.eqb_eq, length_zero_iff_nil in Hlen.
           rewrite <- (alookup_adelete_ne podName podName') by congruence.
           by rewrite Hlen.
        -- by rewrite alookup_adelete_ne.
    + split.
      * rewrite alookup_ainsert_eq. simpl. apply alookup_adelete_eq.
      * intros key' podName' Hne.
        destruct (decide (key = key')) as [<-|Hk'].
        -- rewrite alookup_ainsert_eq, Hk. simpl.
           apply alookup_adelete_ne. congruence.
        -- by rewrite alookup_ainsert_ne.
Qed.

Lemma withReserved_no_entry (key : Key) (podName : string) (committed : Z)
    (reserved : Reserved) :
  lookupReserved reserved key podName = None ->
  withReserved key podName committed reserved = (committed, reserved).
Proof.
  unfold lookupReserved, withReserved. intros Hl.
  destruct (alookup key reserved) as [rps|]; [| done].
  simpl in Hl. by rewrite Hl.
Qed.

Lemma withReserved_sub (key : Key) (podName : string) (committed : Z)
    (reserved : Reserved) :
  subReserved (withReserved key podName committed reserved).2 reserved.
Proof.
  destruct (lookupReserved reserved key podName) as [r|] eqn:Hl.
  - destruct (withReserved_entry key podName committed r reserved Hl)
      as (Hlt & Hgt & Heq).
    destruct (Z.lt_trichotomy committed r) as [H | [H | H]].
    + rewrite Hlt by done. apply subReserved_refl.
    + destruct (Heq H) as (reserved' & -> & Hnone & Hother). simpl.
      intros k p. destruct (decide ((k, p) = (key, podName))) as [[= -> ->]|Hne].
      * by left.
      * right. by apply Hother.
    + rewrite Hgt by done. apply subReserved_refl.
  - rewrite withReserved_no_entry by done. apply subReserved_refl.
Qed.

(** The value [withReserved] returns is the larger of the two. *)
Lemma withReserved_value (key : Key) (podName : string) (committed : Z)
    (reserved : Reserved) :
  (withReserved key podName committed reserved).1 =
    match lookupReserved reserved key podName with
    | Some r => Z.max committed r
    | None => committed
    end.
Proof.
  destruct (lookupReserved reserved key podName) as [r|] eqn:Hl.
  - destruct (withReserved_entry key podName committed r reserved Hl)
      as (Hlt & Hgt & Heq).
    destruct (Z.lt_trichotomy committed r) as [H | [H | H]].
    + rewrite Hlt by done. simpl. lia.
    + destruct (Heq H) as (reserved' & -> & _). simpl. lia.
    + rewrite Hgt by done. simpl. lia.
  - by rewrite withReserved_no_entry.
Qed.

End reservations.

(** ** One step of the state build *)

Section state_steps.
Variable cap : Z.

Lemma updateFreeCapacity_inv (free : list Z) (last : Z) (podName : string)
    (vreplicas : Z) (free' : list Z) (last' : Z) :
  updateFreeCapacity cap free last podName vreplicas = Ok (free', last') ->
  exists f,
    0 <= OrdinalFromPodName podName /\
    grow free (OrdinalFromPodName podName) cap
      !! Z.to_nat (OrdinalFromPodName podName) = Some f /\
    free' = <[Z.to_nat (OrdinalFromPodName podName) := sub32 f vreplicas]>
              (grow free (OrdinalFromPodName podName) cap) /\
    last' = (if (last <? OrdinalFromPodName podName)
                && negb (sub32 f vreplicas =? cap)
             then OrdinalFromPodName podName else last).
Proof.
  unfold updateFreeCapacity.
  set (ordinal := OrdinalFromPodName podName).
  set (grown := grow free ordinal cap). intros H.
  destruct (index grown ordinal) as [f|] eqn:Hi; [| discriminate].
  apply index_Ok in Hi as [Hn Hf]. simpl in H.
  unfold store in H. destruct (Z.ltb_spec ordinal 0); [lia |].
  pose proof (lookup_lt_Some _ _ _ Hf) as Hlen.
  destruct (Nat.ltb_spec (Z.to_nat ordinal) (length grown)); [| lia].
  simpl in H. unfold index in H.
  destruct (Z.ltb_spec ordinal 0); [lia |].
  rewrite list_lookup_insert_eq in H by done. simpl in H.
  injection H as <- <-. exists f. done.
Qed.

Lemma placementStep_inv (key : Key) (a a' : acc) (p : Placement) :
  placementStep cap key a p = Ok a' ->
  exists free last,
    updateFreeCapacity cap (aFree a) (aLast a) (PodName p)
      (withReserved key (PodName p) (VReplicas p) (aReserved a)).1
      = Ok (free, last) /\
    aFree a' = free /\ aLast a' = last /\
    aReserved a' = (withReserved key (PodName p) (VReplicas p) (aReserved a)).2 /\
    aWithPlacement a' =
      <[key := {[PodName p]} ∪ default ∅ (aWithPlacement a !! key)]>
        (aWithPlacement a).
Proof.
  unfold placementStep.
  destruct (withReserved key (PodName p) (VReplicas p) (aReserved a))
    as [v reserved'] eqn:Hw. simpl.
  destruct (updateFreeCapacity cap (aFree a) (aLast a) (PodName p) v)
    as [[free last]|]; [| discriminate].
  simpl. intros [= <-]. exists free, last. done.
Qed.

(** The free capacity recorded after a step, at the ordinal of the
    placement: what was free there, less the value [withReserved] gave. *)
Lemma placementStep_free (key : Key) (a a' : acc) (p : Placement) :
  placementStep cap key a p = Ok a' ->
  exists f,
    index (grow (aFree a) (ordinalOf p) cap) (ordinalOf p) = Ok f /\
    index (aFree a') (ordinalOf p) =
      Ok (sub32 f (withReserved key (PodName p) (VReplicas p) (aReserved a)).1).
Proof.
  intros H. apply placementStep_inv in H as (free & last & Hu & <- & _).
  apply updateFreeCapacity_inv in Hu as (f & Hn & Hf & -> & _).
  exists f. split; [by apply index_Ok |].
  apply index_Ok. split; [done |].
  apply list_lookup_insert_eq. by eapply lookup_lt_Some.
Qed.

Lemma placementsLoop_sub (key : Key) (ps : list Placement) (a a' : acc) :
  placementsLoop cap key a ps = Ok a' ->
  subReserved (aReserved a') (aReserved a).
Proof.
  revert a. induction ps as [|p ps IH]; intros a; simpl.
  - intros [= <-]. apply subReserved_refl.
  - destruct (placementStep cap key a p) as [a1|] eqn:Hs; [| discriminate].
    simpl. intros Hl. eapply subReserved_trans; [by eapply IH |].
    apply placementStep_inv in Hs as (_ & _ & _ & _ & _ & -> & _).
    apply withReserved_sub.
Qed.

Lemma vpodStep_sub (a a' : acc) (vpod : VPod) :
  vpodStep cap a vpod = Ok a' -> subReserved (aReserved a') (aReserved a).
Proof. unfold vpodStep. intros H. by apply placementsLoop_sub in H. Qed.

Lemma vpodsLoop_sub (vpods : list VPod) (a a' : acc) :
  vpodsLoop cap a vpods = Ok a' -> subReserved (aReserved a') (aReserved a).
Proof.
  revert a. induction vpods as [|v vpods IH]; intros a; simpl.
  - intros [= <-]. apply subReserved_refl.
  - destruct (vpodStep cap a v) as [a1|] eqn:Hs; [| discriminate]. simpl.
    intros Hl. eapply subReserved_trans; [by eapply IH |].
    by eapply vpodStep_sub.
Qed.

(** A reservation that an observed placement has caught up with is gone
    after the loop over the placements. *)
Lemma placementsLoop_removes (key : Key) (ps : list Placement) (a a' : acc)
    (init : Reserved) (p : Placement) :
  subReserved (aReserved a) init ->
  placementsLoop cap key a ps = Ok a' ->
  p ∈ ps ->
  lookupReserved init key (PodName p) = Some (VReplicas p) ->
  lookupReserved (aReserved a') key (PodName p) = None.
Proof.
  revert a. induction ps as [|q ps IH]; intros a Hsub Hl Hin Hr; simpl in Hl.
  - by apply elem_of_nil in Hin.
  - destruct (placementStep cap key a q) as [a1|] eqn:Hs; [| discriminate].
    simpl in Hl.
    pose proof Hs as Hs'.
    apply placementStep_inv in Hs' as (_ & _ & _ & _ & _ & Hres & _).
    assert (Hsub1 : subReserved (aReserved a1) init).
    { eapply subReserved_trans; [| exact Hsub]. rewrite Hres.
      apply withReserved_sub. }
    apply elem_of_cons in Hin as [-> | Hin]; [| by eapply IH].
    assert (Hgone : lookupReserved (aReserved a1) key (PodName q) = None).
    { rewrite Hres. destruct (Hsub key (PodName q)) as [Hn | He].
      - by rewrite withReserved_no_entry.
      - rewrite Hr in He.
        destruct (withReserved_entry key (PodName q) (VReplicas q) _ _ He)
          as (_ & _ & Heq).
        destruct (Heq eq_refl) as (reserved' & -> & Hnone & _). done. }
    destruct (placementsLoop_sub key ps a1 a' Hl key (PodName q)) as [H | H];
      [done | by rewrite H].
Qed.

Lemma vpodsLoop_removes (vpods : list VPod) (a a' : acc) (init : Reserved)
    (vpod : VPod) (p : Placement) :
  subReserved (aReserved a) init ->
  vpodsLoop cap a vpods = Ok a' ->
  vpod ∈ vpods ->
  p ∈ elems (GetPlacements vpod) ->
  lookupReserved init (GetKey vpod) (PodName p) = Some (VReplicas p) ->
  lookupReserved (aReserved a') (GetKey vpod) (PodName p) = None.
Proof.
  revert a. induction vpods as [|v vpods IH]; intros a Hsub Hl Hv Hin Hr;
    simpl in Hl.
  - by apply elem_of_nil in Hv.
  - destruct (vpodStep cap a v) as [a1|] eqn:Hs; [| discriminate]. simpl in Hl.
    assert (Hsub1 : subReserved (aReserved a1) init).
    { eapply subReserved_trans; [by eapply vpodStep_sub | exact Hsub]. }
    apply elem_of_cons in Hv as [-> | Hv]; [| by eapply IH].
    unfold vpodStep in Hs.
    eapply placementsLoop_removes in Hs; [| exact Hsub | exact Hin | exact Hr].
    destruct (vpodsLoop_sub vpods a1 a' Hl (GetKey v) (PodName p)) as [H | H];
      [done | by rewrite H].
Qed.

(** A reservation is kept as long as no observed placement of that vpod
    key on that pod has exactly the reserved value. *)
Lemma placementsLoop_keeps (key : Key) (ps : list Placement) (a a' : acc)
    (k : Key) (podName : string) (r : Z) :
  placementsLoop cap key a ps = Ok a' ->
  (key = k -> forall p, p ∈ ps -> PodName p = podName -> VReplicas p <> r) ->
  lookupReserved (aReserved a) k podName = Some r ->
  lookupReserved (aReserved a') k podName = Some r.
Proof.
  revert a. induction ps as [|q ps IH]; intros a Hl Hne Hr; simpl in Hl.
  - by injection Hl as <-.
  - destruct (placementStep cap key a q) as [a1|] eqn:Hs; [| discriminate].
    simpl in Hl. eapply IH; [exact Hl | intros; eapply Hne; eauto; by right |].
    apply placementStep_inv in Hs as (_ & _ & _ & _ & _ & -> & _).
    destruct (lookupReserved (aReserved a) key (PodName q)) as [rq|] eqn:Hq.
    + destruct (withReserved_entry key (PodName q) (VReplicas q) _ _ Hq)
        as (Hlt & Hgt & Heq).
      destruct (Z.lt_trichotomy (VReplicas q) rq) as [H | [H | H]].
      * by rewrite Hlt.
      * destruct (Heq H) as (reserved' & -> & _ & Hother). simpl.
        rewrite Hother; [done |]. intros [= -> ->].
        rewrite Hr in Hq. injection Hq as ->.
        eapply (Hne eq_refl q); [by left | done | done].
      * by rewrite Hgt.
    + by rewrite withReserved_no_entry.
Qed.

Lemma vpodsLoop_keeps (vpods : list VPod) (a a' : acc)
    (k : Key) (podName : string) (r : Z) :
  vpodsLoop cap a vpods = Ok a' ->
  (forall vpod p, vpod ∈ vpods -> GetKey vpod = k ->
                  p ∈ elems (GetPlacements vpod) ->
                  PodName p = podName -> VReplicas p <> r) ->
  lookupReserved (aReserved a) k podName = Some r ->
  lookupReserved (aReserved a') k podName = Some r.
Proof.
  revert a. induction vpods as [|v vpods IH]; intros a Hl Hne Hr; simpl in Hl.
  - by injection Hl as <-.
  - destruct (vpodStep cap a v) as [a1|] eqn:Hs; [| discriminate]. simpl in Hl.
    eapply IH; [exact Hl | intros; eapply Hne; eauto; by right |].
    unfold vpodStep in Hs.
    eapply placementsLoop_keeps in Hs; [exact Hs | | exact Hr].
    intros Hk p Hin Hp. eapply Hne; eauto. by left.
Qed.

End state_steps.

Lemma stateBuilder_State_reserved (sb : stateBuilder) (reserved reserved' : Reserved)
    (res : error + State) (vpods : list VPod) :
  stateBuilder_State sb reserved = Ok (reserved', res) ->
  vpodLister sb = inr vpods ->
  exists a,
    vpodsLoop (capacity sb)
      {| aFree := []; aLast := -1; aWithPlacement := ∅; aReserved := reserved |}
      vpods = Ok a /\
    reserved' = aReserved a.
Proof.
  unfold stateBuilder_State. intros H Hv. rewrite Hv in H.
  destruct (vpodsLoop _ _ _) as [a|]; [| discriminate]. simpl in H.
  destruct (reservedLoop _ _ _ _ _) as [[free last]|]; [| discriminate].
  simpl in H. exists a. split; [done |].
  destruct (isEvenSpread _).
  - destruct (nodeLister sb); [by injection H as <- |].
    destruct (nodesLoop _ _ _). by injection H as <-.
  - by injection H as <-.
Qed.

(** ** Reservation convergence *)

(** C2, as stated, fails: vpod "d" has committed 5 vreplicas on pool-0,
    more than the 3 that are reserved for it there, and the build keeps
    that reservation entry. *)
Lemma reservation_not_cleared_counterexample :
  Example.P "pool-0" 5 ∈ elems (GetPlacements Example.vpodStale) /\
  lookupReserved Example.reservedStale (Example.key "d") "pool-0" = Some 3 /\
  3 <= 5 /\
  exists reserved' res,
    stateBuilder_State Example.builderStale Example.reservedStale
      = Ok (reserved', res) /\
    lookupReserved reserved' (Example.key "d") "pool-0" = Some 3.
Proof.
  split; [by left |]. split; [reflexivity |]. split; [lia |].
  eexists [(Example.key "d", [("pool-0", 3); ("pool-2", 4)])], _.
  split; [vm_compute; reflexivity | reflexivity].
Qed.

(** C2, amended. For every reservation entry (vpod key, pod) of value
    [r]: one state build removes the entry if an observed placement of
    that vpod on that pod has a committed value equal to [r], and keeps
    it otherwise, in particular when the committed value is greater
    than [r] as well as when it is less; and in the step that accounts
    an observed placement, the value subtracted from the free capacity
    of the pod is the larger of the committed and the reserved value,
    so the reserved one when the committed value is less. *)
Theorem reservation_reconciled (sb : stateBuilder)
    (reserved reserved' : Reserved) (res : error + State)
    (vpods : list VPod) (k : Key) (podName : string) (r : Z) :
  stateBuilder_State sb reserved = Ok (reserved', res) ->
  vpodLister sb = inr vpods ->
  lookupReserved reserved k podName = Some r ->
  ((exists vpod p,
      vpod ∈ vpods /\ GetKey vpod = k /\ p ∈ elems (GetPlacements vpod) /\
      PodName p = podName /\ VReplicas p = r) ->
   lookupReserved reserved' k podName = None) /\
  ((forall vpod p,
      vpod ∈ vpods -> GetKey vpod = k -> p ∈ elems (GetPlacements vpod) ->
      PodName p = podName -> VReplicas p <> r) ->
   lookupReserved reserved' k podName = Some r) /\
  (forall (a a' : acc) (p : Placement) (rp : Z),
     lookupReserved (aReserved a) k (PodName p) = Some rp ->
     placementStep (capacity sb) k a p = Ok a' ->
     exists f,
       index (grow (aFree a) (ordinalOf p) (capacity sb)) (ordinalOf p) = Ok f /\
       index (aFree a') (ordinalOf p) = Ok (sub32 f (Z.max (VReplicas p) rp)) /\
       (VReplicas p <> rp -> aReserved a' = aReserved a) /\
       (VReplicas p = rp -> lookupReserved (aReserved a') k (PodName p) = None)).
Proof.
  intros Hst Hv Hr.
  destruct (stateBuilder_State_reserved sb reserved reserved' res vpods Hst Hv)
    as (a & Hloop & ->).
  split; [| split].
  - intros (vpod & p & Hin & <- & Hp & <- & <-).
    eapply vpodsLoop_removes; eauto. apply subReserved_refl.
  - intros Hne. eapply vpodsLoop_keeps; eauto.
  - intros a0 a' p rp Hrp Hstep.
    destruct (placementStep_free _ _ _ _ _ Hstep) as (f & Hf & Hf').
    exists f. split; [exact Hf |].
    rewrite withReserved_value, Hrp in Hf'. split; [exact Hf' |].
    apply placementStep_inv in Hstep as (_ & _ & _ & _ & _ & -> & _).
    destruct (withReserved_entry k (PodName p) (VReplicas p) rp _ Hrp)
      as (Hlt & Hgt & Heq).
    split.
    + intros Hne. destruct (Z.lt_trichotomy (VReplicas p) rp) as [H | [H | H]];
        [by rewrite Hlt | done | by rewrite Hgt].
    + intros He. destruct (Heq He) as (reserved' & -> & Hnone & _). done.
Qed.

Lemma reservation_reconciled_witness :
  lookupReserved [(Example.key "d", [("pool-0", 3); ("pool-2", 4)])]
    (Example.key "d") "pool-1" = None /\
  lookupReserved [(Example.key "d", [("pool-0", 3); ("pool-2", 4)])]
    (Example.key "d") "pool-0" = Some 3.
Proof.
  split.
  - refine (proj1 (reservation_reconciled Example.builderStale
                     Example.reservedStale _
                     (inr (mkState [5; 9] 1 10 0 0 MAXFILLUP ∅))
                     [Example.vpodStale] (Example.key "d") "pool-1" 1
                     _ _ _) _).
    + vm_compute. reflexivity.
    + reflexivity.
    + reflexivity.
    + exists Example.vpodStale, (Example.P "pool-1" 1).
      split; [by left |]. split; [done |]. split; [| done].
      right. by left.
  - refine (proj1 (proj2 (reservation_reconciled Example.builderStale
                     Example.reservedStale _
                     (inr (mkState [5; 9] 1 10 0 0 MAXFILLUP ∅))
                     [Example.vpodStale] (Example.key "d") "pool-0" 3
                     _ _ _)) _).
    + vm_compute. reflexivity.
    + reflexivity.
    + reflexivity.
    + intros vpod p Hv _ Hp Hn.
      apply list_elem_of_singleton in Hv as ->.
      simpl in Hp. apply elem_of_cons in Hp as [-> | Hp]; [simpl; lia |].
      apply list_elem_of_singleton in Hp as ->. discriminate.
Defined.

(** ** Free capacity of the snapshot *)

(** C1 does not hold of the code.  Vpod "e" has committed 1 vreplica on
    pool-0 and holds reservations of 5 on pool-0 and 3 on pool-1; the
    entry for pool-1 has no observed placement, so pool-1 should have
    [10 - 3 = 7] free and be the last ordinal.  When the reservation map
    is ranged over with pool-0 first, the loop over the reserved entries
    is left at pool-0, which has an observed placement, and the entry
    for pool-1 is never accounted: the snapshot has free capacity 10 at
    ordinal 1 and last ordinal 0.  With pool-1 first the same table
    gives 7 and 1. *)
Theorem State_skips_reservations_after_break :
  lookupReserved Example.reservedGrow (Example.key "e") "pool-1" = Some 3 /\
  (forall p, p ∈ elems (GetPlacements Example.vpodGrow) -> PodName p <> "pool-1") /\
  (exists st,
     stateBuilder_State Example.builderGrow Example.reservedGrow
       = Ok (Example.reservedGrow, inr st) /\
     FreeCap st = [5] /\ Free st 1 = Ok 10 /\ LastOrdinal st = 0) /\
  (exists st,
     stateBuilder_State Example.builderGrow Example.reservedGrow'
       = Ok (Example.reservedGrow', inr st) /\
     FreeCap st = [5; 7] /\ Free st 1 = Ok 7 /\ LastOrdinal st = 1).
Proof.
  split; [reflexivity |]. split.
  - intros p Hp. simpl in Hp. apply list_elem_of_singleton in Hp as ->. discriminate.
  - split.
    + exists (mkState [5] 0 10 0 0 MAXFILLUP ∅).
      split; [vm_compute; reflexivity |]. done.
    + exists (mkState [5; 7] 1 10 0 0 MAXFILLUP ∅).
      split; [vm_compute; reflexivity |]. done.
Qed.

(** ** Pod names and ordinals *)

Section ordinal_facts.

Lemma LastIndex_from_app (a b : string) (i found : Z) :
  LastIndex_from (a +:+ b) i found
  = LastIndex_from b (i + Z.of_nat (String.length a)) (LastIndex_from a i found).
Proof.
  revert i found. induction a as [|c a IH]; intros i found; simpl.
  - f_equal. lia.
  - rewrite IH. f_equal. lia.
Qed.

Lemma LastIndex_from_noDash (d : string) (i found : Z) :
  noDash d -> LastIndex_from d i found = found.
Proof.
  revert i found. induction d as [|c d IH]; intros i found Hd; simpl; [done |].
  rewrite IH.
  - destruct (Ascii.eqb_spec c "-"); [| done].
    exfalso. apply (Hd c); [by left | done].
  - intros c' Hc'. apply Hd. by right.
Qed.

Lemma LastIndex_from_ge (a : string) (i found : Z) :
  found < i -> LastIndex_from a i found < i + Z.of_nat (String.length a).
Proof.
  revert i found. induction a as [|c a IH]; intros i found Hlt; simpl; [lia |].
  destruct (Ascii.eqb c "-").
  - specialize (IH (i + 1) i ltac:(lia)). lia.
  - specialize (IH (i + 1) found ltac:(lia)). lia.
Qed.

Lemma sliceFrom_app (a : string) (c : ascii) (d : string) :
  sliceFrom (S (String.length a)) (a +:+ String c d) = d.
Proof. induction a as [|c' a IH]; simpl; [by destruct d | exact IH]. Qed.

(** The part of a pool pod name after its last dash is the decimal. *)
Lemma suffix_of_pod_name (name d : string) :
  noDash d ->
  sliceFrom (Z.to_nat (LastIndexDash (name +:+ "-" +:+ d) + 1))
    (name +:+ "-" +:+ d) = d.
Proof.
  intros Hd. unfold LastIndexDash.
  rewrite LastIndex_from_app. simpl.
  rewrite LastIndex_from_noDash by done.
  replace (Z.to_nat (0 + Z.of_nat (String.length name) + 1))
    with (S (String.length name)) by lia.
  apply sliceFrom_app.
Qed.

Lemma string_of_uint_noDash (d : Decimal.uint) :
  noDash (NilEmpty.string_of_uint d).
Proof.
  induction d; simpl; intros c Hc; try done;
    (destruct Hc as [<- | Hc]; [discriminate | by apply IHd]).
Qed.

Lemma parseDigits_string_of_uint (d : Decimal.uint) :
  d <> Decimal.Nil ->
  parseDigits (NilEmpty.string_of_uint d) = Some (Z.of_uint d).
Proof.
  intros Hd. unfold parseDigits.
  destruct (NilEmpty.string_of_uint d) eqn:E.
  - destruct d; simpl in E; done.
  - rewrite <- E, NilEmpty.usu. done.
Qed.

Lemma ParseInt32_string_of_uint (d : Decimal.uint) :
  d <> Decimal.Nil -> Z.of_uint d <= MaxInt32 ->
  ParseInt32 (NilEmpty.string_of_uint d) = Some (Z.of_uint d).
Proof.
  intros Hd Hle. pose proof (parseDigits_string_of_uint d Hd) as Hp.
  unfold ParseInt32. destruct (NilEmpty.string_of_uint d) as [|c r] eqn:E.
  - destruct d; simpl in E; done.
  - assert (Hc : c <> "+"%char /\ c <> "-"%char).
    { destruct d; simpl in E; try done; injection E as <- _; done. }
    destruct Hc as [Hplus Hminus].
    destruct (Ascii.eqb_spec c "+"); [done |].
    destruct (Ascii.eqb_spec c "-"); [done |].
    rewrite Hp. destruct (Z.leb_spec (Z.of_uint d) MaxInt32); [done | lia].
Qed.

Lemma Itoa_nonneg (o : Z) :
  0 <= o ->
  exists d, d <> Decimal.Nil /\ Z.of_uint d = o /\
            Itoa o = NilEmpty.string_of_uint d.
Proof.
  intros Ho. unfold Itoa. destruct o as [|p|p]; [| | lia].
  - exists (Decimal.D0 Decimal.Nil). done.
  - exists (Pos.to_uint p). split; [| split].
    + intros Hn. pose proof (DecimalPos.Unsigned.of_to p) as H.
      rewrite Hn in H. discriminate.
    + unfold Z.of_uint. by rewrite DecimalPos.Unsigned.of_to.
    + simpl. unfold NilZero.string_of_uint.
      destruct (Pos.to_uint p) eqn:E; try done.
      pose proof (DecimalPos.Unsigned.of_to p) as H. rewrite E in H. discriminate.
Qed.

(** Decoding the name of a pod of the pool gives its ordinal back. *)
Lemma OrdinalFromPodName_PodNameFromOrdinal (name : string) (o : Z) :
  0 <= o <= MaxInt32 ->
  OrdinalFromPodName (PodNameFromOrdinal name o) = o.
Proof.
  intros Ho. destruct (Itoa_nonneg o ltac:(lia)) as (d & Hd & Hz & Hi).
  unfold OrdinalFromPodName, PodNameFromOrdinal. rewrite Hi.
  rewrite suffix_of_pod_name by apply string_of_uint_noDash.
  rewrite ParseInt32_string_of_uint by (done || lia).
  rewrite Hz. apply int32_id. unfold in_int32, MinInt32. lia.
Qed.

End ordinal_facts.

(** ** Reading and writing the free capacity *)

Section free_facts.

Lemma len32_id {A : Type} (l : list A) :
  Z.of_nat (length l) <= MaxInt32 -> len32 l = Z.of_nat (length l).
Proof. intros H. apply int32_id. unfold in_int32, MinInt32. lia. Qed.

Lemma Free_freeAt (s : State) (o : Z) :
  stateOK s -> 0 <= o -> Free s o = Ok (freeAt s o).
Proof.
  intros Hok Ho. unfold Free, freeAt. rewrite len32_id by done.
  destruct (Z.leb_spec (Z.of_nat (length (FreeCap s))) o) as [Hle | Hlt].
  - rewrite lookup_ge_None_2 by lia. done.
  - destruct (lookup_lt_is_Some_2 (FreeCap s) (Z.to_nat o)) as [f Hf]; [lia |].
    rewrite Hf. simpl. apply index_Ok. done.
Qed.

Lemma grow_eq (slice : list Z) (o def : Z) :
  Z.of_nat (length slice) <= MaxInt32 -> validOrdinal o ->
  grow slice o def
  = slice ++ replicate (Z.to_nat (o + 1 - Z.of_nat (length slice))) def.
Proof.
  intros Hlen [Ho1 Ho2]. unfold grow. rewrite len32_id by done.
  unfold MaxInt32 in *.
  rewrite sub32_id by (unfold in_int32, MinInt32, MaxInt32; lia).
  rewrite add32_id by (unfold in_int32, MinInt32, MaxInt32; lia).
  destruct (Z.leb_spec (o - Z.of_nat (length slice) + 1) 0).
  - replace (Z.to_nat (o + 1 - Z.of_nat (length slice))) with 0%nat by lia.
    simpl. by rewrite app_nil_r.
  - do 2 f_equal. lia.
Qed.

Lemma grow_lookup (slice : list Z) (o def : Z) (i : nat) :
  Z.of_nat (length slice) <= MaxInt32 -> validOrdinal o ->
  default def (grow slice o def !! i) = default def (slice !! i).
Proof.
  intros Hlen Ho. rewrite grow_eq by done.
  destruct (Nat.lt_ge_cases i (length slice)) as [Hlt | Hge].
  - by rewrite lookup_app_l.
  - rewrite lookup_app_r by done. rewrite (lookup_ge_None_2 slice) by done.
    simpl. destruct (replicate _ def !! (i - length slice)%nat) as [x|] eqn:E;
      [| done].
    apply lookup_replicate in E as [-> _]. done.
Qed.

Lemma grow_length (slice : list Z) (o def : Z) :
  Z.of_nat (length slice) <= MaxInt32 -> validOrdinal o ->
  Z.of_nat (length (grow slice o def))
  = Z.max (Z.of_nat (length slice)) (o + 1).
Proof.
  intros Hlen Ho. rewrite grow_eq by done.
  rewrite length_app, length_replicate. lia.
Qed.

(** [SetFree] at a valid ordinal succeeds; it changes what [Free] reads
    there and nowhere else. *)
Lemma SetFree_spec (s : State) (o v : Z) :
  stateOK s -> validOrdinal o ->
  exists s',
    SetFree s o v = Ok s' /\
    stateOK s' /\
    freeAt s' o = v /\
    (forall o', 0 <= o' -> o' <> o -> freeAt s' o' = freeAt s o') /\
    sameDomains s s'.
Proof.
  intros Hok Ho. pose proof Ho as [Ho1 Ho2].
  pose proof (grow_length (FreeCap s) o (Capacity s) Hok Ho) as Hlen.
  unfold SetFree, store. destruct (Z.ltb_spec o 0); [lia |].
  destruct (Nat.ltb_spec (Z.to_nat o) (length (grow (FreeCap s) o (Capacity s))));
    [| lia].
  simpl. eexists. split; [reflexivity |]. split; [| split; [| split]].
  - unfold stateOK. simpl. rewrite length_insert. unfold stateOK in Hok. lia.
  - unfold freeAt. simpl. by rewrite list_lookup_insert_eq.
  - intros o' Ho' Hne. unfold freeAt. simpl.
    rewrite list_lookup_insert_ne by lia. by apply grow_lookup.
  - done.
Qed.

End free_facts.

(** ** Scale-up under MAXFILLUP *)

Section add_replicas.

Lemma addReplicas_existing_spec (placements : list Placement) :
  forall (st : State) (diff : Z) (np : list Placement),
  stateOK st ->
  Forall (fun p => validOrdinal (ordinalOf p)) placements ->
  Forall (fun p => 0 <= VReplicas p) placements ->
  0 <= diff ->
  sumVReplicas placements + diff <= MaxInt32 ->
  exists st' diff' added,
    addReplicas_existing st diff np placements = Ok (st', diff', np ++ added) /\
    stateOK st' /\
    0 <= diff' <= diff /\
    map PodName added = map PodName placements /\
    sumVReplicas added + diff' = sumVReplicas placements + diff /\
    Forall (fun p => 0 <= VReplicas p) added /\
    (forall o, 0 <= o -> freeAt st o <= 0 -> freeAt st' o <= 0) /\
    (0 < diff' -> Forall (fun p => freeAt st' (ordinalOf p) <= 0) placements).
Proof.
  induction placements as [|p r IH]; intros st diff np Hok Hord Hnn Hd Hsum.
  - exists st, diff, []. simpl. rewrite app_nil_r. repeat split; auto; lia.
  - apply Forall_cons in Hord as [[Ho1 Ho2] Hord].
    apply Forall_cons in Hnn as [Hp Hnn].
    pose proof (sumVReplicas_nonneg r Hnn) as Hr0.
    simpl in Hsum. simpl. fold (ordinalOf p).
    rewrite (Free_freeAt st (ordinalOf p) Hok Ho1). simpl.
    destruct (Z.leb_spec 0 diff); [| lia]. simpl.
    destruct (Z.ltb_spec 0 (freeAt st (ordinalOf p))) as [Hf | Hf].
    + rewrite Int32Min_spec.
      set (a := Z.min (freeAt st (ordinalOf p)) diff).
      assert (Ha : 0 <= a <= diff /\ a <= freeAt st (ordinalOf p)) by lia.
      destruct (SetFree_spec st (ordinalOf p) (sub32 (freeAt st (ordinalOf p)) a)
                  Hok (conj Ho1 Ho2)) as (st1 & -> & Hok1 & Hat & Hother & _).
      simpl.
      rewrite (sub32_id diff a) by (unfold in_int32, MinInt32; lia).
      rewrite (add32_id (VReplicas p) a) by (unfold in_int32, MinInt32; lia).
      destruct (IH st1 (diff - a)
                  (np ++ [{| PodName := PodName p; VReplicas := VReplicas p + a |}])
                  Hok1 Hord Hnn ltac:(lia) ltac:(lia))
        as (st' & diff' & added & -> & Hok' & Hd' & Hnames & Hs & Hnn' & P1 & P2).
      exists st', diff',
        ({| PodName := PodName p; VReplicas := VReplicas p + a |} :: added).
      rewrite <- app_assoc. simpl.
      split; [done |]. split; [done |]. split; [lia |].
      split; [by rewrite Hnames |]. split; [lia |].
      split; [constructor; [simpl; lia | done] |]. split.
      * intros o Ho Hle. apply P1; [done |].
        rewrite Hother; [done | done | intros ->; lia].
      * intros Hpos. constructor; [| by apply P2].
        apply P1; [done |]. rewrite Hat.
        assert (Ha' : a = freeAt st (ordinalOf p)) by lia.
        rewrite Ha'. unfold sub32. rewrite Z.sub_diag. done.
    + destruct (IH st diff (np ++ [p]) Hok Hord Hnn Hd ltac:(lia))
        as (st' & diff' & added & -> & Hok' & Hd' & Hnames & Hs & Hnn' & P1 & P2).
      exists st', diff', (p :: added). rewrite <- app_assoc. simpl.
      split; [done |]. split; [done |]. split; [lia |].
      split; [by rewrite Hnames |]. split; [lia |].
      split; [by constructor |]. split; [exact P1 |].
      intros Hpos. constructor; [by apply P1 | by apply P2].
Qed.

Lemma addReplicas_additional_spec (name : string) (ordinals : list Z) :
  forall (st : State) (diff : Z) (np : list Placement),
  stateOK st ->
  Forall validOrdinal ordinals ->
  NoDup ordinals ->
  0 <= diff <= MaxInt32 ->
  exists st' diff' added os,
    addReplicas_additional name st diff np ordinals = Ok (st', diff', np ++ added) /\
    0 <= diff' <= diff /\
    sumVReplicas added + diff' = diff /\
    Forall (fun p => 0 <= VReplicas p) added /\
    map PodName added = map (PodNameFromOrdinal name) os /\
    os ⊆ ordinals /\ NoDup os /\
    Forall (fun o => 0 < freeAt st o) os.
Proof.
  induction ordinals as [|o r IH]; intros st diff np Hok Hord Hnd Hd.
  - exists st, diff, [], []. simpl. rewrite app_nil_r.
    split; [done |]. split; [lia |]. split; [lia |].
    split; [constructor |]. split; [done |].
    split; [done |]. split; constructor.
  - apply Forall_cons in Hord as [[Ho1 Ho2] Hord].
    apply NoDup_cons in Hnd as [Hnotin Hnd].
    simpl. rewrite (Free_freeAt st o Hok Ho1). simpl.
    destruct (Z.ltb_spec 0 (freeAt st o)) as [Hf | Hf].
    + rewrite Int32Min_spec. set (a := Z.min (freeAt st o) diff).
      assert (Ha : 0 <= a <= diff) by lia.
      destruct (SetFree_spec st o (sub32 (freeAt st o) a) Hok (conj Ho1 Ho2))
        as (st1 & -> & Hok1 & Hat & Hother & _).
      simpl. rewrite (sub32_id diff a) by (unfold in_int32, MinInt32; lia).
      destruct (Z.eqb_spec (diff - a) 0) as [Hz | Hz].
      * exists st1, (diff - a),
          [{| PodName := PodNameFromOrdinal name o; VReplicas := a |}], [o].
        split; [done |]. split; [lia |]. split; [simpl; lia |].
        split; [repeat constructor; simpl; lia |]. split; [done |].
        split; [set_solver |]. split; [apply NoDup_singleton |].
        by repeat constructor.
      * destruct (IH st1 (diff - a)
                    (np ++ [{| PodName := PodNameFromOrdinal name o;
                               VReplicas := a |}])
                    Hok1 Hord Hnd ltac:(lia))
          as (st' & diff' & added & os & -> & Hd' & Hs & Hnn & Hnames & Hsub
              & Hndos & Hfree).
        exists st', diff',
          ({| PodName := PodNameFromOrdinal name o; VReplicas := a |} :: added),
          (o :: os).
        rewrite <- app_assoc. simpl.
        split; [done |]. split; [lia |]. split; [lia |].
        split; [constructor; [simpl; lia | done] |].
        split; [by rewrite Hnames |]. split; [set_solver |].
        split; [apply NoDup_cons; split; [set_solver | done] |].
        constructor; [done |].
        apply Forall_forall. intros o' Ho'.
        rewrite Forall_forall in Hfree. specialize (Hfree o' Ho').
        rewrite Hother in Hfree; [done | | set_solver].
        rewrite Forall_forall in Hord. apply Hord. set_solver.
    + simpl. destruct (Z.eqb_spec diff 0) as [Hz | Hz].
      * exists st, diff, [], []. rewrite app_nil_r.
        split; [done |]. split; [lia |]. split; [simpl; lia |].
        split; [constructor |]. split; [done |].
        split; [apply list_subseteq_nil |]. split; constructor.
      * destruct (IH st diff np Hok Hord Hnd Hd)
          as (st' & diff' & added & os & -> & Hd' & Hs & Hnn & Hnames & Hsub
              & Hndos & Hfree).
        exists st', diff', added, os.
        split; [done |]. split; [lia |]. split; [lia |].
        split; [done |]. split; [done |]. split; [set_solver |]. done.
Qed.

Lemma seqZ_valid (n : Z) : n <= MaxInt32 -> Forall validOrdinal (seqZ 0 n).
Proof.
  intros Hn. apply Forall_forall. intros o Ho.
  apply elem_of_seqZ in Ho. unfold validOrdinal. lia.
Qed.

Lemma pod_names_NoDup (name : string) (os : list Z) :
  NoDup os -> Forall validOrdinal os ->
  NoDup (map (PodNameFromOrdinal name) os).
Proof.
  intros Hnd Hv. apply (NoDup_fmap_2_strong (PodNameFromOrdinal name)); [| done].
  intros x y Hx Hy Heq. rewrite Forall_forall in Hv.
  destruct (Hv x Hx), (Hv y Hy).
  rewrite <- (OrdinalFromPodName_PodNameFromOrdinal name x) by lia.
  rewrite <- (OrdinalFromPodName_PodNameFromOrdinal name y) by lia.
  by rewrite Heq.
Qed.

(** What [addReplicas] returns on a well-formed list. *)
Lemma addReplicas_spec (s : StatefulSetScheduler) (st : State) (diff : Z)
    (placements : list Placement) :
  stateOK st ->
  replicas s <= MaxInt32 ->
  Forall (fun p => validOrdinal (ordinalOf p)) placements ->
  Forall (fun p => 0 <= VReplicas p) placements ->
  0 <= diff ->
  sumVReplicas placements + diff <= MaxInt32 ->
  exists np nleft,
    addReplicas s st diff placements = Ok (np, nleft) /\
    0 <= nleft <= diff /\
    sumVReplicas np + nleft = sumVReplicas placements + diff /\
    Forall (fun p => 0 <= VReplicas p) np /\
    (NoDup (map PodName placements) -> NoDup (map PodName np)).
Proof.
  intros Hok Hrep Hord Hnn Hd Hsum. unfold addReplicas.
  destruct (addReplicas_existing_spec placements st diff [] Hok Hord Hnn Hd Hsum)
    as (st1 & diff1 & added1 & -> & Hok1 & Hd1 & Hnames1 & Hs1 & Hnn1 & _ & P2).
  simpl. pose proof (sumVReplicas_nonneg _ Hnn) as Hs0.
  pose proof (sumVReplicas_nonneg _ Hnn1) as Hs0'.
  destruct (Z.ltb_spec 0 diff1) as [Hpos | Hz].
  - destruct (addReplicas_additional_spec (statefulSetName s) (seqZ 0 (replicas s))
                st1 diff1 added1 Hok1 (seqZ_valid _ Hrep) (NoDup_seqZ _ _)
                ltac:(lia))
      as (st2 & diff2 & added2 & os & -> & Hd2 & Hs2 & Hnn2 & Hnames2 & Hsub
          & Hndos & Hfree).
    simpl. exists (added1 ++ added2), diff2.
    split; [done |]. split; [lia |]. split; [rewrite sumVReplicas_app; lia |].
    split; [by apply Forall_app |].
    intros Hnd. rewrite map_app, Hnames1, Hnames2.
    assert (Hvos : Forall validOrdinal os).
    { apply Forall_forall. intros o Ho. apply Hsub in Ho.
      pose proof (seqZ_valid _ Hrep) as Hv. rewrite Forall_forall in Hv. auto. }
    apply NoDup_app. split; [done |]. split; [| by apply pod_names_NoDup].
    intros x Hx1 Hx2.
    apply list_elem_of_fmap in Hx1 as (p & -> & Hp).
    apply list_elem_of_fmap in Hx2 as (o & Heq & Ho).
    specialize (P2 Hpos). rewrite Forall_forall in P2.
    rewrite Forall_forall in Hfree. rewrite Forall_forall in Hvos.
    specialize (P2 p Hp). specialize (Hfree o Ho). destruct (Hvos o Ho).
    unfold ordinalOf in P2.
    rewrite Heq, OrdinalFromPodName_PodNameFromOrdinal in P2 by lia. lia.
  - exists added1, diff1. simpl.
    split; [done |]. split; [lia |]. split; [lia |]. split; [done |].
    intros Hnd. by rewrite Hnames1.
Qed.

End add_replicas.

Lemma scheduleVPod_scale_up (rt : Runtime) (s : StatefulSetScheduler)
    (vpod : VPod) (rsv : Reserved) (state : State)
    (np : list Placement) (nleft : Z) :
  stateBuilder_State (stateAccessor s) (reserved s) = Ok (rsv, inr state) ->
  schedulerPolicy (stateAccessor s) <> "" ->
  isEvenSpread (schedulerPolicy (stateAccessor s)) = false ->
  GetTotalVReplicas (GetPlacements vpod) < GetVReplicas vpod ->
  addReplicas s state
    (sub32 (GetVReplicas vpod) (GetTotalVReplicas (GetPlacements vpod)))
    (elems (GetPlacements vpod)) = Ok (np, nleft) ->
  scheduleVPod rt s vpod =
    Ok (finishSchedule (withReservedTable s rsv) vpod (Some np) nleft).
Proof.
  intros Hst Hp He Hlt Hadd. unfold scheduleVPod. rewrite Hst. simpl.
  rewrite (State_policy s rsv state Hst), He.
  destruct (Z.eqb_spec (GetTotalVReplicas (GetPlacements vpod)) (GetVReplicas vpod));
    [lia |].
  rewrite bool_decide_eq_false_2 by done. simpl.
  destruct (Z.ltb_spec (GetVReplicas vpod) (GetTotalVReplicas (GetPlacements vpod)));
    [lia |].
  change (addReplicas (withReservedTable s rsv)) with (addReplicas s).
  rewrite Hadd. reflexivity.
Qed.

(** C3. On the MAXFILLUP scale-up path (policy type set and not a
    spread policy, desired count above the committed total), for a
    committed list with non-negative counts on addressable ordinals,
    [addReplicas(state, desired - total, placements)] returns
    [(newPlacements, left)] with the vreplicas of [newPlacements] summing,
    together with [left], to the desired count, and
    [0 <= left <= desired - total]; when [left > 0], [Schedule] returns
    the partial placements (in ordinal order) with [ErrNotEnoughReplicas],
    sets [pending[vpod.key] = left] and calls the autoscaler if there is
    one; when [left = 0] it returns them with a nil error and clears the
    pending entry. *)
Theorem addReplicas_conservation (rt : Runtime) (s : StatefulSetScheduler)
    (vpod : VPod) (rsv : Reserved) (state : State) :
  stateBuilder_State (stateAccessor s) (reserved s) = Ok (rsv, inr state) ->
  schedulerPolicy (stateAccessor s) <> "" ->
  isEvenSpread (schedulerPolicy (stateAccessor s)) = false ->
  stateOK state ->
  replicas s <= MaxInt32 ->
  Forall (fun p => validOrdinal (ordinalOf p)) (elems (GetPlacements vpod)) ->
  wellFormedTotals (elems (GetPlacements vpod)) ->
  sumVReplicas (elems (GetPlacements vpod)) < GetVReplicas vpod <= MaxInt32 ->
  exists np nleft,
    addReplicas s state
      (GetVReplicas vpod - sumVReplicas (elems (GetPlacements vpod)))
      (elems (GetPlacements vpod)) = Ok (np, nleft) /\
    sumVReplicas np + nleft = GetVReplicas vpod /\
    0 <= nleft <= GetVReplicas vpod - sumVReplicas (elems (GetPlacements vpod)) /\
    (0 < nleft ->
     exists s',
       Schedule rt s vpod =
         Ok (Some (Sort.SliceStable (keyLess ordinalOf) np),
             Some ErrNotEnoughReplicas, s') /\
       pending s' !! GetKey vpod = Some nleft /\
       (hasAutoscaler s = true ->
        exists n, autoscaleCalls s' = n :: autoscaleCalls s)) /\
    (nleft = 0 ->
     exists s',
       Schedule rt s vpod =
         Ok (Some (Sort.SliceStable (keyLess ordinalOf) np), None, s') /\
       pending s' !! GetKey vpod = None /\
       autoscaleCalls s' = autoscaleCalls s).
Proof.
  intros Hst Hp He Hok Hrep Hord [Hnn Hmax] Hd.
  set (total := sumVReplicas (elems (GetPlacements vpod))) in *.
  pose proof (sumVReplicas_nonneg _ Hnn) as Ht0. fold total in Ht0.
  assert (Ht : GetTotalVReplicas (GetPlacements vpod) = total).
  { rewrite GetTotalVReplicas_sum. apply int32_id.
    unfold in_int32, MinInt32. fold total. lia. }
  destruct (addReplicas_spec s state (GetVReplicas vpod - total)
              (elems (GetPlacements vpod)) Hok Hrep Hord Hnn ltac:(lia)
              ltac:(fold total; lia))
    as (np & nleft & Hadd & Hl & Hsum & _ & _).
  fold total in Hsum. exists np, nleft.
  split; [exact Hadd |]. split; [lia |]. split; [lia |].
  assert (Hs : scheduleVPod rt s vpod =
               Ok (finishSchedule (withReservedTable s rsv) vpod (Some np) nleft)).
  { apply (scheduleVPod_scale_up rt s vpod rsv state np nleft Hst Hp He); [lia |].
    rewrite Ht, sub32_id; [done |]. unfold in_int32, MinInt32. lia. }
  unfold finishSchedule in Hs. split.
  - intros Hpos. destruct (Z.ltb_spec 0 nleft); [| lia].
    eexists. split; [by apply Schedule_sorts |]. simpl. split.
    + destruct (hasAutoscaler s); simpl; apply lookup_insert_eq.
    + intros ->. simpl. eauto.
  - intros ->. simpl in Hs.
    eexists. split; [by apply Schedule_sorts |]. simpl.
    split; [apply lookup_delete_eq | done].
Qed.

Lemma addReplicas_conservation_witness :
  exists np nleft,
    addReplicas Example.schedUp (mkState [9; 9] 1 10 0 0 MAXFILLUP ∅) (25 - 2)
      [Example.P "pool-1" 1; Example.P "pool-0" 1] = Ok (np, nleft) /\
    sumVReplicas np + nleft = 25 /\
    0 <= nleft <= 25 - 2 /\
    (0 < nleft ->
     exists s',
       Schedule Example.rt Example.schedUp Example.vpodUp =
         Ok (Some (Sort.SliceStable (keyLess ordinalOf) np),
             Some ErrNotEnoughReplicas, s') /\
       pending s' !! GetKey Example.vpodUp = Some nleft /\
       (hasAutoscaler Example.schedUp = true ->
        exists n, autoscaleCalls s' = n :: autoscaleCalls Example.schedUp)) /\
    (nleft = 0 ->
     exists s',
       Schedule Example.rt Example.schedUp Example.vpodUp =
         Ok (Some (Sort.SliceStable (keyLess ordinalOf) np), None, s') /\
       pending s' !! GetKey Example.vpodUp = None /\
       autoscaleCalls s' = autoscaleCalls Example.schedUp).
Proof.
  apply (addReplicas_conservation Example.rt Example.schedUp Example.vpodUp []
           (mkState [9; 9] 1 10 0 0 MAXFILLUP ∅)).
  - vm_compute. reflexivity.
  - discriminate.
  - reflexivity.
  - unfold stateOK, MaxInt32. simpl. lia.
  - unfold MaxInt32. simpl. lia.
  - repeat constructor; vm_compute; congruence.
  - split; [repeat constructor; simpl; lia | vm_compute; congruence].
  - unfold MaxInt32. simpl. lia.
Defined.

(** ** Grouping placements by failure domain *)

Section grouping.
Variables (s : StatefulSetScheduler) (state : State).

Lemma insertStable_perm_any {A : Type} (less : A -> A -> bool) (x : A) (l : list A) :
  Sort.insertStable less x l ≡ₚ x :: l.
Proof.
  induction l as [|y r IH]; simpl; [done |].
  destruct (less y x); [| done]. rewrite IH. apply Permutation_swap.
Qed.

Lemma SliceStable_perm_any {A : Type} (less : A -> A -> bool) (l : list A) :
  Sort.SliceStable less l ≡ₚ l.
Proof.
  induction l as [|x r IH]; simpl; [done |].
  rewrite insertStable_perm_any. by rewrite IH.
Qed.

Lemma group_fold (dom : string -> string) (rest pre : list Placement)
    (m : gmap string (list Z)) :
  (forall d, default [] (m !! d)
             = map ordinalOf (filter (fun p => dom (PodName p) = d) pre)) ->
  forall d,
    default []
      (fold_left
         (fun m p =>
            <[dom (PodName p) := default [] (m !! dom (PodName p))
                                 ++ [OrdinalFromPodName (PodName p)]]> m)
         rest m !! d)
    = map ordinalOf (filter (fun p => dom (PodName p) = d) (pre ++ rest)).
Proof.
  revert pre m. induction rest as [|p rest IH]; intros pre m Hm d; simpl.
  - by rewrite app_nil_r.
  - replace (pre ++ p :: rest) with ((pre ++ [p]) ++ rest)
      by (by rewrite <- app_assoc).
    apply IH. intros d'. rewrite filter_app, map_app, filter_cons, filter_nil.
    destruct (decide (dom (PodName p) = d')) as [<- | Hne].
    + rewrite lookup_insert_eq. simpl. by rewrite Hm.
    + rewrite lookup_insert_ne by done. simpl. by rewrite app_nil_r, Hm.
Qed.

Lemma placementsByDomainOf_lookup (placements : list Placement) (d : string) :
  default [] (placementsByDomainOf s state placements !! d)
  = map ordinalOf (groupOf s state placements d).
Proof.
  unfold placementsByDomainOf, groupOf, domainOf,
    getPlacementsByNodeKey, getPlacementsByZoneKey.
  destruct (byNode state).
  - apply (group_fold (podNode s state) placements [] ∅). intros d'.
    by rewrite lookup_empty.
  - apply (group_fold (podZone s state) placements [] ∅). intros d'.
    by rewrite lookup_empty.
Qed.

Lemma sortedDomainNames_NoDup (m : gmap string (list Z)) :
  NoDup (sortedDomainNames m).
Proof.
  unfold sortedDomainNames, Sort.Strings.
  rewrite SliceStable_perm_any. apply NoDup_elements.
Qed.

Lemma sortedDomainNames_complete (placements : list Placement) (p : Placement) :
  p ∈ placements ->
  domainOf s state (PodName p)
    ∈ sortedDomainNames (placementsByDomainOf s state placements).
Proof.
  intros Hp. unfold sortedDomainNames, Sort.Strings.
  rewrite SliceStable_perm_any. apply elem_of_elements, elem_of_dom.
  pose proof (placementsByDomainOf_lookup placements
                (domainOf s state (PodName p))) as Hl.
  destruct (placementsByDomainOf s state placements
              !! domainOf s state (PodName p)) as [l|]; [eauto |].
  simpl in Hl. exfalso.
  assert (Hin : p ∈ groupOf s state placements (domainOf s state (PodName p))).
  { unfold groupOf. apply list_elem_of_filter. done. }
  destruct (groupOf s state placements (domainOf s state (PodName p)));
    [by apply elem_of_nil in Hin | discriminate].
Qed.

(** Grouping by a key and concatenating the groups of a duplicate-free
    list of keys that covers the list gives the list back, up to order. *)
Lemma partition_perm (dom : Placement -> string) (ds : list string) :
  NoDup ds ->
  forall l : list Placement,
  (forall p, p ∈ l -> dom p ∈ ds) ->
  concat (map (fun d => filter (fun p => dom p = d) l) ds) ≡ₚ l.
Proof.
  induction 1 as [|d ds Hnotin Hnd IH]; intros l Hl; simpl.
  - destruct l as [|p l]; [done |].
    specialize (Hl p ltac:(by left)). by apply elem_of_nil in Hl.
  - etrans; [| apply (filter_app_complement (fun p => dom p = d) l)].
    apply Permutation_app; [done |].
    rewrite <- (IH (filter (fun p => ~ dom p = d) l)).
    + apply Permutation_refl'. f_equal. apply map_ext_in. intros d' Hd'.
      apply list_elem_of_In in Hd'.
      rewrite list_filter_filter. apply list_filter_iff.
      intros p. split; [| tauto]. intros Hp. split; [done |].
      intros Hd. apply Hnotin. by rewrite <- Hd, Hp.
    + intros p Hp. apply list_elem_of_filter in Hp as [Hne Hp].
      specialize (Hl p Hp). apply elem_of_cons in Hl as [Hd | Hl]; [| done].
      by destruct Hne.
Qed.

Lemma groups_perm (placements : list Placement) :
  concat (map (groupOf s state placements)
            (sortedDomainNames (placementsByDomainOf s state placements)))
  ≡ₚ placements.
Proof.
  apply (partition_perm (fun p => domainOf s state (PodName p)));
    [apply sortedDomainNames_NoDup |].
  intros p Hp. by apply sortedDomainNames_complete.
Qed.

Lemma getPlacement_found (placements : list Placement) (p : Placement) :
  NoDup (map PodName placements) ->
  p ∈ placements ->
  PodName p = PodNameFromOrdinal (statefulSetName s) (ordinalOf p) ->
  getPlacementFromPodOrdinal s placements (ordinalOf p) = p.
Proof.
  intros Hnd Hp Hname. unfold getPlacementFromPodOrdinal. rewrite <- Hname.
  induction placements as [|q l IH]; [by apply elem_of_nil in Hp |].
  simpl in *. apply NoDup_cons in Hnd as [Hq Hnd].
  destruct (decide (PodName q = PodName p)) as [Heq | Hne].
  - rewrite bool_decide_eq_true_2 by done.
    apply elem_of_cons in Hp as [-> | Hp]; [done |].
    exfalso. apply Hq. rewrite Heq. apply list_elem_of_fmap. eauto.
  - rewrite bool_decide_eq_false_2 by done.
    apply elem_of_cons in Hp as [-> | Hp]; [done |]. by apply IH.
Qed.

Lemma getPlacement_group (placements : list Placement) (d : string) :
  wellFormedPlacements (statefulSetName s) placements ->
  map (getPlacementFromPodOrdinal s placements)
    (map ordinalOf (groupOf s state placements d))
  = groupOf s state placements d.
Proof.
  intros (Hnd & Hwf & _). rewrite map_map.
  rewrite <- (map_id (groupOf s state placements d)) at 2.
  apply map_ext_in. intros p Hp. apply list_elem_of_In in Hp.
  apply list_elem_of_filter in Hp as [_ Hp].
  rewrite Forall_forall in Hwf. destruct (Hwf p Hp) as [_ Hname].
  by apply getPlacement_found.
Qed.

End grouping.

(** ** Scale-down under the spread policies *)

Section remove_even_spread.
Variables (s : StatefulSetScheduler) (state : State).
Variable placements : list Placement.
Hypothesis Hwf : wellFormedPlacements (statefulSetName s) placements.

Lemma wellFormed_bounds (p : Placement) :
  p ∈ placements -> 0 <= VReplicas p <= MaxInt32.
Proof.
  destruct Hwf as (_ & _ & Hnn & Hsum). intros Hp.
  apply list_elem_of_split in Hp as (l1 & l2 & Heq). rewrite Heq in Hnn, Hsum.
  rewrite sumVReplicas_app in Hsum. simpl in Hsum.
  apply Forall_app in Hnn as [Hn1 Hn2]. apply Forall_cons in Hn2 as [Hp Hn2].
  pose proof (sumVReplicas_nonneg _ Hn1). pose proof (sumVReplicas_nonneg _ Hn2).
  lia.
Qed.

Lemma getPlacement_bounds (ordinal : Z) :
  0 <= VReplicas (getPlacementFromPodOrdinal s placements ordinal) <= MaxInt32.
Proof.
  unfold getPlacementFromPodOrdinal.
  destruct (List.find _ placements) as [p|] eqn:E.
  - apply find_some in E as [Hp _]. apply wellFormed_bounds.
    by apply list_elem_of_In.
  - simpl. unfold MaxInt32. lia.
Qed.

Lemma removeFromDomain_spec (evenSpread : Z) (rordinals : list Z) :
  forall (diff totalInDomain : Z) (np : list Placement),
  exists added,
    (removeFromDomain s placements evenSpread diff totalInDomain np rordinals).2
      = np ++ added /\
    map PodName added
      `sublist_of` map PodName
                     (map (getPlacementFromPodOrdinal s placements) rordinals) /\
    Forall (fun p => 0 <= VReplicas p) added.
Proof.
  induction rordinals as [|o r IH]; intros diff T np; simpl.
  - exists []. by rewrite app_nil_r.
  - pose proof (getPlacement_bounds o) as Hb.
    set (pl := getPlacementFromPodOrdinal s placements o) in *.
    assert (Hkeep : forall diff' T',
      exists added,
        (removeFromDomain s placements evenSpread diff' T'
           (np ++ [{| PodName := PodName pl; VReplicas := VReplicas pl |}]) r).2
          = np ++ added /\
        map PodName added
          `sublist_of` PodName pl
             :: map PodName (map (getPlacementFromPodOrdinal s placements) r) /\
        Forall (fun p => 0 <= VReplicas p) added).
    { intros diff' T'. destruct (IH diff' T'
        (np ++ [{| PodName := PodName pl; VReplicas := VReplicas pl |}]))
        as (added & -> & Hsub & Hnn).
      exists ({| PodName := PodName pl; VReplicas := VReplicas pl |} :: added).
      rewrite <- app_assoc. split; [done |].
      split; [by apply sublist_skip |]. constructor; [simpl; lia | done]. }
    destruct ((0 <? diff) && (evenSpread <=? T)); [| apply Hkeep].
    set (de := Int32Min diff (Int32Min (VReplicas pl) (sub32 T evenSpread))).
    destruct (Z.ltb_spec 0 de) as [Hpos | Hnpos];
      [destruct (Z.ltb_spec de (VReplicas pl)) as [Hlt | Hge] |]; simpl.
    + destruct (IH (sub32 diff de) (sub32 T de)
        (np ++ [{| PodName := PodName pl; VReplicas := sub32 (VReplicas pl) de |}]))
        as (added & -> & Hsub & Hnn).
      exists ({| PodName := PodName pl; VReplicas := sub32 (VReplicas pl) de |}
              :: added).
      rewrite <- app_assoc. split; [done |].
      split; [by apply sublist_skip |]. constructor; [| done]. simpl.
      rewrite sub32_id by (unfold in_int32, MinInt32; lia). lia.
    + destruct (Z.leb_spec (VReplicas pl) de); [| lia].
      destruct (IH (sub32 diff (VReplicas pl)) (sub32 T (VReplicas pl)) np)
        as (added & -> & Hsub & Hnn).
      exists added. split; [done |]. split; [by apply sublist_cons | done].
    + destruct (Z.leb_spec (VReplicas pl) de); [| apply Hkeep].
      destruct (IH (sub32 diff (VReplicas pl)) (sub32 T (VReplicas pl)) np)
        as (added & -> & Hsub & Hnn).
      exists added. split; [done |]. split; [by apply sublist_cons | done].
Qed.

Lemma removeFromDomains_spec (evenSpread : Z) (m : gmap string (list Z))
    (domainNames : list string) :
  forall (diff : Z) (np : list Placement),
  exists added,
    removeFromDomains s state placements evenSpread m diff np domainNames
      = np ++ added /\
    map PodName added
      `sublist_of`
        map PodName
          (concat (map (fun d => map (getPlacementFromPodOrdinal s placements)
                                   (rev (default [] (m !! d))))
                     domainNames)) /\
    Forall (fun p => 0 <= VReplicas p) added.
Proof.
  induction domainNames as [|d r IH]; intros diff np; simpl.
  - exists []. by rewrite app_nil_r.
  - destruct (removeFromDomain_spec evenSpread (rev (default [] (m !! d))) diff
                (totalInDomainOf s state placements d) np)
      as (added1 & H1 & Hsub1 & Hnn1).
    destruct (removeFromDomain s placements evenSpread diff _ np _)
      as [diff1 np1]. simpl in H1. subst np1.
    destruct (IH diff1 (np ++ added1)) as (added2 & -> & Hsub2 & Hnn2).
    exists (added1 ++ added2). rewrite <- app_assoc. split; [done |].
    split; [| by apply Forall_app].
    rewrite !map_app. by apply sublist_app.
Qed.

(** Scaling down under a spread policy keeps the invariant. *)
Lemma removeReplicasEvenSpread_good (diff evenSpread : Z) :
  goodPlacements (removeReplicasEvenSpread s state diff placements evenSpread).
Proof.
  unfold removeReplicasEvenSpread, removeFromExistingReplicas.
  destruct (removeFromDomains_spec evenSpread
              (placementsByDomainOf s state placements)
              (sortedDomainNames (placementsByDomainOf s state placements))
              diff []) as (added & -> & Hsub & Hnn).
  simpl. split; [| done].
  refine (sublist_NoDup _ _ _ Hsub).
  assert (Hperm :
    concat (map (fun d => map (getPlacementFromPodOrdinal s placements)
                            (rev (default [] (placementsByDomainOf s state placements !! d))))
              (sortedDomainNames (placementsByDomainOf s state placements)))
    ≡ₚ placements).
  { etrans; [| apply (groups_perm s state placements)].
    generalize (sortedDomainNames (placementsByDomainOf s state placements)).
    intros ds. induction ds as [|d ds IH]; simpl; [done |].
    apply Permutation_app; [| exact IH].
    rewrite placementsByDomainOf_lookup.
    rewrite <- (getPlacement_group s state placements d Hwf) at 2.
    apply Permutation_map. symmetry. apply Permutation_rev. }
  rewrite Hperm. by destruct Hwf.
Qed.

End remove_even_spread.

(** ** Scale-up under the spread policies *)

Section domains_of_snapshots.
Variable s : StatefulSetScheduler.

Lemma sameDomains_refl (st : State) : sameDomains st st.
Proof. by repeat split. Qed.

Lemma sameDomains_trans (a b c : State) :
  sameDomains a b -> sameDomains b c -> sameDomains a c.
Proof. intros (?&?&?) (?&?&?). repeat split; congruence. Qed.

Lemma getPodInfo_same (st st' : State) (podName : string) :
  sameDomains st st' -> getPodInfo s st' podName = getPodInfo s st podName.
Proof. intros (Hm & _). unfold getPodInfo. by rewrite Hm. Qed.

Lemma byNode_same (st st' : State) :
  sameDomains st st' -> byNode st' = byNode st.
Proof. intros (_ & Hp & _). unfold byNode. by rewrite Hp. Qed.

Lemma domainOf_same (st st' : State) (podName : string) :
  sameDomains st st' -> domainOf s st' podName = domainOf s st podName.
Proof.
  intros H. unfold domainOf, podNode, podZone.
  by rewrite (byNode_same _ _ H), (getPodInfo_same _ _ _ H).
Qed.

Lemma groupOf_same (st st' : State) (l : list Placement) (d : string) :
  sameDomains st st' -> groupOf s st' l d = groupOf s st l d.
Proof.
  intros H. unfold groupOf. apply list_filter_iff. intros p.
  by rewrite (domainOf_same _ _ _ H).
Qed.

Lemma totalBy_same (st st' : State) (l : list Placement) (d : string) :
  sameDomains st st' -> totalBy s st' l d = totalBy s st l d.
Proof. intros H. unfold totalBy. by rewrite (groupOf_same _ _ _ _ H). Qed.

Lemma totalBy_app (st : State) (l1 l2 : list Placement) (d : string) :
  totalBy s st (l1 ++ l2) d = totalBy s st l1 d + totalBy s st l2 d.
Proof. unfold totalBy, groupOf. by rewrite filter_app, sumVReplicas_app. Qed.

Lemma totalBy_nonneg (st : State) (l : list Placement) (d : string) :
  Forall (fun p => 0 <= VReplicas p) l -> 0 <= totalBy s st l d.
Proof.
  intros H. apply sumVReplicas_nonneg. unfold groupOf.
  rewrite Forall_forall in H. apply Forall_forall. intros p Hp.
  apply list_elem_of_filter in Hp as [_ Hp]. auto.
Qed.

Lemma totalBy_le (st : State) (l : list Placement) (d : string) :
  Forall (fun p => 0 <= VReplicas p) l -> totalBy s st l d <= sumVReplicas l.
Proof.
  intros H. unfold totalBy, groupOf. induction H as [|p l Hp Hl IH]; simpl; [done |].
  rewrite filter_cons. case_decide; simpl; lia.
Qed.

Lemma domain_total_fold (dom : string -> string) (d : string)
    (l : list Placement) (t : Z) :
  Forall (fun p => 0 <= VReplicas p) l ->
  0 <= t -> t + sumVReplicas l <= MaxInt32 ->
  fold_left
    (fun total p =>
       if bool_decide (dom (PodName p) = d)
       then add32 total (VReplicas p) else total) l t
  = t + sumVReplicas (filter (fun p => dom (PodName p) = d) l).
Proof.
  intros Hnn. revert t. induction Hnn as [|p l Hp Hl IH]; intros t Ht Hsum; simpl.
  - lia.
  - simpl in Hsum. pose proof (sumVReplicas_nonneg l Hl).
    rewrite filter_cons. case_bool_decide; case_decide; try done.
    + rewrite add32_id by (unfold in_int32, MinInt32; lia).
      rewrite IH by lia. simpl. lia.
    + rewrite IH by lia. done.
Qed.

(** Without overflow the totals the code computes are the exact ones. *)
Lemma totalInDomainOf_exact (st : State) (l : list Placement) (d : string) :
  Forall (fun p => 0 <= VReplicas p) l ->
  sumVReplicas l <= MaxInt32 ->
  totalInDomainOf s st l d = totalBy s st l d.
Proof.
  intros Hnn Hsum.
  unfold totalInDomainOf, totalBy, groupOf, domainOf,
    getTotalVReplicasInNode, getTotalVReplicasInZone.
  destruct (byNode st).
  - by rewrite (domain_total_fold (podNode s st)).
  - by rewrite (domain_total_fold (podZone s st)).
Qed.

End domains_of_snapshots.

Section add_even_spread.
Variables (s : StatefulSetScheduler) (st0 : State).
Variable placements : list Placement.
Variable evenSpread : Z.
Hypothesis Hwf : wellFormedPlacements (statefulSetName s) placements.
Hypothesis Hes : in_int32 evenSpread.

Lemma getPlacement_le_total (ordinal : Z) :
  0 <= VReplicas (getPlacementFromPodOrdinal s placements ordinal)
    <= sumVReplicas placements.
Proof.
  destruct Hwf as (_ & _ & Hnn & Hsum).
  pose proof (sumVReplicas_nonneg _ Hnn) as H0.
  unfold getPlacementFromPodOrdinal.
  destruct (List.find _ placements) as [p|] eqn:E; [| simpl; lia].
  apply find_some in E as [Hp _]. apply list_elem_of_In in Hp.
  apply list_elem_of_split in Hp as (l1 & l2 & Heq).
  rewrite Heq in Hnn |- *. rewrite sumVReplicas_app. simpl.
  apply Forall_app in Hnn as [Hn1 Hn2]. apply Forall_cons in Hn2 as [Hp Hn2].
  pose proof (sumVReplicas_nonneg _ Hn1). pose proof (sumVReplicas_nonneg _ Hn2).
  lia.
Qed.

Lemma addToDomain_spec (ordinals : list Z) :
  forall (st : State) (diff totalInDomain : Z) (np : list Placement),
  stateOK st ->
  Forall validOrdinal ordinals ->
  0 <= diff ->
  sumVReplicas placements + diff <= MaxInt32 ->
  0 <= totalInDomain ->
  exists st' diff' added,
    addToDomain s placements evenSpread st diff totalInDomain np ordinals
      = Ok (st', diff', np ++ added) /\
    stateOK st' /\ sameDomains st st' /\
    0 <= diff' <= diff /\
    map PodName added
      = map PodName (map (getPlacementFromPodOrdinal s placements) ordinals) /\
    sumVReplicas added
      = sumVReplicas (map (getPlacementFromPodOrdinal s placements) ordinals)
        + (diff - diff') /\
    Forall (fun p => 0 <= VReplicas p) added /\
    (forall o, 0 <= o -> freeAt st o <= 0 -> freeAt st' o <= 0) /\
    (0 < diff' ->
     Forall (fun o => freeAt st' o <= 0
                      \/ evenSpread <= totalInDomain + (diff - diff')) ordinals).
Proof.
  induction ordinals as [|o r IH]; intros st diff T np Hok Hord Hd Hsum HT.
  - exists st, diff, []. simpl. rewrite app_nil_r.
    split; [done |]. split; [done |]. split; [apply sameDomains_refl |].
    split; [lia |]. split; [done |]. split; [lia |].
    split; [constructor |]. split; [done |]. constructor.
  - apply Forall_cons in Hord as [[Ho1 Ho2] Hord].
    pose proof (getPlacement_le_total o) as Hb.
    simpl. set (pl := getPlacementFromPodOrdinal s placements o) in *.
    rewrite (Free_freeAt st o Hok Ho1). simpl.
    destruct (Z.leb_spec 0 diff); [| lia]. simpl.
    destruct (Z.ltb_spec 0 (freeAt st o)) as [Hf | Hf];
      [destruct (Z.ltb_spec T evenSpread) as [HTe | HTe] |]; simpl.
    + assert (Hsub : sub32 evenSpread T = evenSpread - T).
      { apply sub32_id. unfold in_int32, MinInt32, MaxInt32 in *. lia. }
      rewrite !Int32Min_spec, Hsub.
      set (a := Z.min diff (Z.min (freeAt st o) (evenSpread - T))).
      assert (Ha : 0 <= a <= diff /\ a <= freeAt st o /\ a <= evenSpread - T)
        by lia.
      destruct (SetFree_spec st o (sub32 (freeAt st o) a) Hok (conj Ho1 Ho2))
        as (st1 & -> & Hok1 & Hat & Hother & Hsame1).
      simpl.
      rewrite (sub32_id diff a) by (unfold in_int32, MinInt32; lia).
      rewrite (add32_id T a)
        by (unfold in_int32, MinInt32, MaxInt32 in *; lia).
      rewrite (add32_id (VReplicas pl) a) by (unfold in_int32, MinInt32; lia).
      destruct (IH st1 (diff - a) (T + a)
                  (np ++ [{| PodName := PodName pl; VReplicas := VReplicas pl + a |}])
                  Hok1 Hord ltac:(lia) ltac:(lia) ltac:(lia))
        as (st' & diff' & added & -> & Hok' & Hsame' & Hd' & Hnames & Hs & Hnn
            & P1 & P2).
      exists st', diff',
        ({| PodName := PodName pl; VReplicas := VReplicas pl + a |} :: added).
      rewrite <- app_assoc. simpl.
      split; [done |]. split; [done |].
      split; [by eapply sameDomains_trans |]. split; [lia |].
      split; [by rewrite Hnames |]. split; [lia |].
      split; [constructor; [simpl; lia | done] |]. split.
      * intros o' Ho' Hle. apply P1; [done |].
        rewrite Hother; [done | done | intros ->; lia].
      * intros Hpos. constructor.
        -- destruct (Z.eq_dec a (freeAt st o)) as [Ha' | Ha'].
           ++ left. apply P1; [done |]. rewrite Hat, Ha'.
              unfold sub32. by rewrite Z.sub_diag.
           ++ right. lia.
        -- specialize (P2 Hpos). eapply Forall_impl; [exact P2 |].
           simpl. intros o' [Ho' | Ho']; [by left | right; lia].
    + destruct (IH st diff T (np ++ [pl]) Hok Hord Hd Hsum HT)
        as (st' & diff' & added & -> & Hok' & Hsame' & Hd' & Hnames & Hs & Hnn
            & P1 & P2).
      exists st', diff', (pl :: added). rewrite <- app_assoc. simpl.
      split; [done |]. split; [done |]. split; [done |]. split; [lia |].
      split; [by rewrite Hnames |]. split; [lia |].
      split; [constructor; [lia | done] |]. split; [exact P1 |].
      intros Hpos. constructor; [right; lia | by apply P2].
    + destruct (IH st diff T (np ++ [pl]) Hok Hord Hd Hsum HT)
        as (st' & diff' & added & -> & Hok' & Hsame' & Hd' & Hnames & Hs & Hnn
            & P1 & P2).
      exists st', diff', (pl :: added). rewrite <- app_assoc. simpl.
      split; [done |]. split; [done |]. split; [done |]. split; [lia |].
      split; [by rewrite Hnames |]. split; [lia |].
      split; [constructor; [lia | done] |]. split; [exact P1 |].
      intros Hpos. constructor; [left; by apply P1 | by apply P2].
Qed.

Lemma wellFormed_valid_ordinals (d : string) :
  Forall validOrdinal (map ordinalOf (groupOf s st0 placements d)).
Proof.
  destruct Hwf as (_ & Hw & _). rewrite Forall_forall in Hw.
  apply Forall_forall. intros o Ho. apply list_elem_of_fmap in Ho as (p & -> & Hp).
  apply list_elem_of_filter in Hp as [_ Hp]. by destruct (Hw p Hp).
Qed.

Lemma group_all_in_domain (l : list Placement) (d : string) :
  map PodName l = map PodName (groupOf s st0 placements d) ->
  groupOf s st0 l d = l.
Proof.
  intros Hnames.
  assert (Hall : Forall (fun n => domainOf s st0 n = d) (map PodName l)).
  { rewrite Hnames. apply Forall_forall. intros n Hn.
    apply list_elem_of_fmap in Hn as (p & -> & Hp).
    by apply list_elem_of_filter in Hp as [Hd _]. }
  clear Hnames. unfold groupOf. induction l as [|p l IH]; simpl in *; [done |].
  apply Forall_cons in Hall as [Hp Hall].
  rewrite filter_cons, decide_True by done. by rewrite IH.
Qed.

Lemma addToDomains_spec (domainNames : list string) :
  forall (st : State) (diff : Z) (np : list Placement),
  stateOK st ->
  sameDomains st0 st ->
  0 <= diff ->
  sumVReplicas placements + diff <= MaxInt32 ->
  exists st' diff' added,
    addToDomains s placements evenSpread
      (placementsByDomainOf s st0 placements) st diff np domainNames
      = Ok (st', diff', np ++ added) /\
    stateOK st' /\ sameDomains st0 st' /\
    0 <= diff' <= diff /\
    map PodName added
      = map PodName (concat (map (groupOf s st0 placements) domainNames)) /\
    sumVReplicas added
      = sumVReplicas (concat (map (groupOf s st0 placements) domainNames))
        + (diff - diff') /\
    Forall (fun p => 0 <= VReplicas p) added /\
    (forall o, 0 <= o -> freeAt st o <= 0 -> freeAt st' o <= 0) /\
    (0 < diff' ->
     forall d p,
       d ∈ domainNames -> p ∈ groupOf s st0 placements d ->
       freeAt st' (ordinalOf p) <= 0 \/ evenSpread <= totalBy s st0 added d).
Proof.
  destruct Hwf as (Hnd & Hw & Hnn & Hmax).
  induction domainNames as [|d r IH]; intros st diff np Hok Hsame Hd Hsum.
  - exists st, diff, []. simpl. rewrite app_nil_r.
    split; [done |]. split; [done |]. split; [done |]. split; [lia |].
    split; [done |]. split; [lia |]. split; [constructor |]. split; [done |].
    intros _ d p Hin. by apply elem_of_nil in Hin.
  - simpl. rewrite placementsByDomainOf_lookup.
    assert (HT : totalInDomainOf s st placements d = totalBy s st0 placements d).
    { rewrite totalInDomainOf_exact by done. by apply totalBy_same. }
    rewrite HT.
    destruct (addToDomain_spec (map ordinalOf (groupOf s st0 placements d))
                st diff (totalBy s st0 placements d) np Hok
                (wellFormed_valid_ordinals d) Hd Hsum
                (totalBy_nonneg s st0 placements d Hnn))
      as (st1 & diff1 & added1 & -> & Hok1 & Hsame1 & Hd1 & Hnames1 & Hs1 & Hnn1
          & P1a & P2a).
    rewrite (getPlacement_group s st0 placements d Hwf) in Hnames1, Hs1.
    simpl.
    destruct (IH st1 diff1 (np ++ added1) Hok1
                (sameDomains_trans _ _ _ Hsame Hsame1) ltac:(lia) ltac:(lia))
      as (st' & diff' & added2 & -> & Hok' & Hsame' & Hd' & Hnames2 & Hs2 & Hnn2
          & P1b & P2b).
    exists st', diff', (added1 ++ added2). rewrite <- app_assoc.
    split; [done |]. split; [done |]. split; [done |]. split; [lia |].
    split; [by rewrite !map_app, Hnames1, Hnames2 |].
    split; [rewrite !sumVReplicas_app; lia |].
    split; [by apply Forall_app |]. split; [by auto |].
    intros Hpos d' p Hd'in Hp. rewrite totalBy_app.
    pose proof (totalBy_nonneg s st0 added1 d' Hnn1).
    pose proof (totalBy_nonneg s st0 added2 d' Hnn2).
    apply elem_of_cons in Hd'in as [-> | Hd'in].
    + specialize (P2a ltac:(lia)). rewrite Forall_forall in P2a.
      destruct (P2a (ordinalOf p)) as [Hle | Hle].
      * apply list_elem_of_fmap. eauto.
      * left. apply P1b; [| done].
        rewrite Forall_forall in Hw.
        apply list_elem_of_filter in Hp as [_ Hp].
        destruct (Hw p Hp) as [[? ?] _]. done.
      * right. unfold totalBy at 1.
        rewrite (group_all_in_domain added1 d Hnames1), Hs1.
        unfold totalBy in Hle. lia.
    + destruct (P2b Hpos d' p Hd'in Hp) as [Hle | Hle]; [by left | right; lia].
Qed.

Lemma total_of_new_pod (st : State) (np : list Placement) (podName : string)
    (zoneName nodeName : string) (ok : bool) :
  getPodInfo s st podName = (zoneName, nodeName, ok) ->
  (if byNode st then getTotalVReplicasInNode s st np nodeName
   else getTotalVReplicasInZone s st np zoneName)
  = totalInDomainOf s st np (domainOf s st podName).
Proof.
  intros H. unfold totalInDomainOf, domainOf, podNode, podZone. rewrite H.
  by destruct (byNode st).
Qed.

Lemma pod_name_inj (o o' : Z) :
  validOrdinal o -> validOrdinal o' ->
  PodNameFromOrdinal (statefulSetName s) o
    = PodNameFromOrdinal (statefulSetName s) o' ->
  o = o'.
Proof.
  intros [? ?] [? ?] Heq.
  rewrite <- (OrdinalFromPodName_PodNameFromOrdinal (statefulSetName s) o) by lia.
  rewrite <- (OrdinalFromPodName_PodNameFromOrdinal (statefulSetName s) o') by lia.
  by rewrite Heq.
Qed.

Lemma addToNewReplicas_loop_spec (ordinals : list Z) :
  forall (st : State) (diff : Z) (np : list Placement),
  stateOK st ->
  sameDomains st0 st ->
  Forall validOrdinal ordinals ->
  NoDup ordinals ->
  0 <= diff ->
  sumVReplicas np + diff <= MaxInt32 ->
  goodPlacements np ->
  (forall o,
     o ∈ ordinals ->
     PodNameFromOrdinal (statefulSetName s) o ∈ map PodName np ->
     freeAt st o <= 0 \/
     evenSpread
       <= totalBy s st0 np
            (domainOf s st0 (PodNameFromOrdinal (statefulSetName s) o))) ->
  exists st' diff' np',
    addToNewReplicas_loop s evenSpread st diff np ordinals = Ok (st', diff', np') /\
    0 <= diff' <= diff /\
    sumVReplicas np' + diff' = sumVReplicas np + diff /\
    goodPlacements np'.
Proof.
  induction ordinals as [|o r IH];
    intros st diff np Hok Hsame Hord Hndo Hd Hsum [Hnd Hnn] HJ.
  - exists st, diff, np. simpl. split; [done |]. split; [lia |]. by split.
  - apply Forall_cons in Hord as [[Ho1 Ho2] Hord].
    apply NoDup_cons in Hndo as [Hnotin Hndo].
    assert (HJr : forall o',
      o' ∈ r ->
      PodNameFromOrdinal (statefulSetName s) o' ∈ map PodName np ->
      freeAt st o' <= 0 \/
      evenSpread
        <= totalBy s st0 np
             (domainOf s st0 (PodNameFromOrdinal (statefulSetName s) o'))).
    { intros o' Ho'. apply HJ. by right. }
    pose proof (sumVReplicas_nonneg _ Hnn) as Hnp0.
    simpl. rewrite (Free_freeAt st o Hok Ho1). simpl.
    destruct (Z.ltb_spec 0 (freeAt st o)) as [Hf | Hf].
    + destruct (getPodInfo s st (PodNameFromOrdinal (statefulSetName s) o))
        as [[zoneName nodeName] ok] eqn:Hinfo.
      destruct ok; simpl;
        [| by apply IH].
      rewrite (total_of_new_pod _ _ _ _ _ _ Hinfo).
      rewrite totalInDomainOf_exact by (done || lia).
      rewrite (totalBy_same s st0 st _ _ Hsame).
      rewrite (domainOf_same s st0 st _ Hsame).
      set (d := domainOf s st0 (PodNameFromOrdinal (statefulSetName s) o)).
      pose proof (totalBy_nonneg s st0 np d Hnn) as HT0.
      pose proof (totalBy_le s st0 np d Hnn) as HTle.
      destruct (Z.leb_spec evenSpread (totalBy s st0 np d)) as [Hfull | Hroom];
        [by apply IH |].
      assert (Hsub : sub32 evenSpread (totalBy s st0 np d)
                     = evenSpread - totalBy s st0 np d).
      { apply sub32_id. unfold in_int32, MinInt32, MaxInt32 in *. lia. }
      rewrite !Int32Min_spec, Hsub.
      set (a := Z.min diff (Z.min (freeAt st o) (evenSpread - totalBy s st0 np d))).
      assert (Ha : 0 <= a <= diff) by lia.
      destruct (SetFree_spec st o (sub32 (freeAt st o) a) Hok (conj Ho1 Ho2))
        as (st1 & -> & Hok1 & Hat & Hother & Hsame1).
      simpl. rewrite (sub32_id diff a) by (unfold in_int32, MinInt32; lia).
      assert (Hfresh : PodNameFromOrdinal (statefulSetName s) o ∉ map PodName np).
      { intros Hin. destruct (HJ o ltac:(by left) Hin) as [H | H]; fold d in H; lia. }
      set (e := {| PodName := PodNameFromOrdinal (statefulSetName s) o;
                   VReplicas := a |}).
      assert (Hgood : goodPlacements (np ++ [e])).
      { split.
        - rewrite map_app. simpl. apply NoDup_app. split; [done |].
          split; [| apply NoDup_singleton].
          intros x Hx Hx'. apply list_elem_of_singleton in Hx' as ->. done.
        - apply Forall_app. split; [done |]. repeat constructor. simpl. lia. }
      assert (Hsum' : sumVReplicas (np ++ [e]) = sumVReplicas np + a).
      { rewrite sumVReplicas_app. simpl. lia. }
      destruct (Z.eqb_spec (diff - a) 0) as [Hz | Hz].
      * exists st1, (diff - a), (np ++ [e]).
        split; [done |]. split; [lia |]. split; [lia | done].
      * destruct (IH st1 (diff - a) (np ++ [e]) Hok1
                    (sameDomains_trans _ _ _ Hsame Hsame1) Hord Hndo
                    ltac:(lia) ltac:(lia) Hgood)
          as (st' & diff' & np' & -> & Hd' & Hs' & Hg').
        { intros o' Ho' Hin. rewrite totalBy_app.
          assert (Hv' : validOrdinal o').
          { rewrite Forall_forall in Hord. by apply Hord. }
          assert (Hne : o' <> o) by (intros ->; done).
          pose proof (totalBy_nonneg s st0 [e] 
                        (domainOf s st0 (PodNameFromOrdinal (statefulSetName s) o'))
                        ltac:(repeat constructor; simpl; lia)).
          rewrite map_app in Hin. apply elem_of_app in Hin as [Hin | Hin].
          - destruct (HJr o' Ho' Hin) as [H' | H'].
            + left. rewrite Hother; [done | by destruct Hv' | done].
            + right. lia.
          - simpl in Hin. apply list_elem_of_singleton in Hin.
            apply pod_name_inj in Hin; [done | done | done]. }
        exists st', diff', np'.
        split; [done |]. split; [lia |]. split; [lia | done].
    + simpl. destruct (Z.eqb_spec diff 0) as [Hz | Hz].
      * exists st, diff, np. split; [done |]. split; [lia |]. by split.
      * by apply IH.
Qed.

(** Scaling up under a spread policy keeps the invariant, conserves the
    vreplicas and does not panic. *)
Lemma addReplicasEvenSpread_good (diff : Z) :
  stateOK st0 ->
  replicas s <= MaxInt32 ->
  0 <= diff ->
  sumVReplicas placements + diff <= MaxInt32 ->
  exists np nleft,
    addReplicasEvenSpread s st0 diff placements evenSpread = Ok (np, nleft) /\
    0 <= nleft <= diff /\
    sumVReplicas np + nleft = sumVReplicas placements + diff /\
    goodPlacements np.
Proof.
  intros Hok Hrep Hd Hsum. unfold addReplicasEvenSpread, addToExistingReplicas.
  destruct (addToDomains_spec
              (sortedDomainNames (placementsByDomainOf s st0 placements))
              st0 diff [] Hok (sameDomains_refl st0) Hd Hsum)
    as (st1 & diff1 & added & -> & Hok1 & Hsame1 & Hd1 & Hnames & Hs & Hnn
        & _ & Q).
  simpl.
  pose proof (groups_perm s st0 placements) as Hperm.
  rewrite (sumVReplicas_perm _ _ Hperm) in Hs.
  assert (Hgood : goodPlacements added).
  { split; [| done]. rewrite Hnames, Hperm. by destruct Hwf. }
  destruct (Z.ltb_spec 0 diff1) as [Hpos | Hz].
  - unfold addToNewReplicas.
    destruct (addToNewReplicas_loop_spec (seqZ 0 (replicas s)) st1 diff1 added
                Hok1 Hsame1 (seqZ_valid _ Hrep) (NoDup_seqZ _ _)
                ltac:(lia) ltac:(lia) Hgood)
      as (st2 & diff2 & np' & -> & Hd2 & Hs2 & Hg2).
    { intros o Ho Hin.
      assert (Hvo : validOrdinal o).
      { pose proof (seqZ_valid _ Hrep) as Hv. rewrite Forall_forall in Hv. auto. }
      rewrite Hnames in Hin. apply list_elem_of_fmap in Hin as (p & Hname & Hp).
      rewrite Hperm in Hp.
      assert (Ho' : ordinalOf p = o).
      { unfold ordinalOf. rewrite <- Hname.
        apply OrdinalFromPodName_PodNameFromOrdinal. destruct Hvo. lia. }
      rewrite Hname, <- Ho'. apply (Q Hpos (domainOf s st0 (PodName p)) p).
      - by apply sortedDomainNames_complete.
      - unfold groupOf. by apply list_elem_of_filter. }
    simpl. exists np', diff2. split; [done |]. split; [lia |]. split; [lia | done].
  - exists added, diff1. simpl. split; [done |]. split; [lia |].
    split; [lia | done].
Qed.

End add_even_spread.

(** ** Placing with predicates and priorities *)

Section policy_path.
Variables (rt : Runtime) (s : StatefulSetScheduler) (pol : Policy).

Lemma findFeasiblePods_loop_range (state : State) (podIds : list Z) :
  forall (feasiblePods result : list Z),
  findFeasiblePods_loop rt pol state feasiblePods podIds = Ok result ->
  forall x, x ∈ result -> x ∈ feasiblePods \/ x ∈ podIds.
Proof.
  induction podIds as [|podId r IH]; intros feasible result; simpl.
  - intros [= <-] x Hx. by left.
  - destruct (RunFilterPlugins rt pol state podId) as [statusMap|]; [| discriminate].
    simpl. destruct (IsSuccess (Merge statusMap)); intros H x Hx.
    + destruct (IH _ _ H x Hx) as [Hin | Hin]; [| right; by right].
      apply elem_of_app in Hin as [Hin | Hin]; [by left |].
      apply list_elem_of_singleton in Hin as ->. right. by left.
    + destruct (IH _ _ H x Hx) as [Hin | Hin]; [by left | right; by right].
Qed.

Lemma findFeasiblePods_range (state : State) (result : list Z) :
  findFeasiblePods rt s pol state = Ok result ->
  forall x, x ∈ result -> 0 <= x < replicas s.
Proof.
  intros H x Hx.
  destruct (findFeasiblePods_loop_range _ _ _ _ H x Hx) as [Hin | Hin].
  - by apply elem_of_nil in Hin.
  - apply elem_of_seqZ in Hin. lia.
Qed.

Lemma imap_ID (f : nat -> Z -> PodScore) (l : list Z) :
  (forall i x, ID (f i x) = x) -> map ID (imap f l) = l.
Proof.
  revert f. induction l as [|x l IH]; intros f Hf; simpl; [done |].
  rewrite Hf. f_equal. apply IH. intros i y. apply Hf.
Qed.

Lemma prioritizePods_IDs (state : State) (feasiblePods : list Z)
    (priorityList : list PodScore) :
  prioritizePods rt pol state feasiblePods = Ok (inl priorityList) ->
  map ID priorityList = feasiblePods.
Proof.
  unfold prioritizePods. destruct (length (Priorities pol) =? 0)%nat.
  - intros [= <-]. rewrite map_map. simpl. apply map_id.
  - destruct (RunScorePlugins rt pol state feasiblePods) as [[scoresMap st]|];
      [| discriminate].
    simpl. destruct (IsSuccess st); simpl; [| discriminate].
    intros [= <-]. by apply imap_ID.
Qed.

Lemma selectPod_loop_in (rnd : nat -> Z -> Z) (l : list PodScore) :
  forall (pos : nat) (maxScore selected cnt : Z),
  selectPod_loop rnd pos maxScore selected cnt l = selected \/
  selectPod_loop rnd pos maxScore selected cnt l ∈ map ID l.
Proof.
  induction l as [|ps r IH]; intros pos maxScore selected cnt; simpl; [by left |].
  destruct (maxScore <? Score ps).
  - destruct (IH (S pos) (Score ps) (ID ps) 1) as [-> | H];
      right; [by left | by right].
  - destruct (Score ps =? maxScore).
    + destruct (rnd pos (cnt + 1) =? 0).
      * destruct (IH (S pos) maxScore (ID ps) (cnt + 1)) as [-> | H];
          right; [by left | by right].
      * destruct (IH (S pos) maxScore selected (cnt + 1)) as [-> | H];
          [by left | right; by right].
    + destruct (IH (S pos) maxScore selected cnt) as [-> | H];
        [by left | right; by right].
Qed.

Lemma selectPod_in (rnd : nat -> Z -> Z) (l : list PodScore) (podID : Z) :
  selectPod rnd l = Some podID -> podID ∈ map ID l.
Proof.
  destruct l as [|first rest]; simpl; [discriminate |]. intros [= <-].
  destruct (selectPod_loop_in rnd rest 1 (Score first) (ID first) 1) as [-> | H];
    [by left | by right].
Qed.

(** The pod a round selects is a pod of the statefulset. *)
Lemma policyRound_selected (i : Z) (st : error + State) (podID : Z) :
  policyRound rt s pol i st = Ok (RoundSelected podID) ->
  0 <= podID < replicas s.
Proof.
  unfold policyRound. destruct st as [e|state]; [discriminate |].
  destruct (replicas s =? 0); [discriminate |].
  destruct (findFeasiblePods rt s pol state) as [feasible|] eqn:Hf;
    [| discriminate].
  simpl. pose proof (findFeasiblePods_range state feasible Hf) as Hrange.
  destruct feasible as [|x [|y rest]]; [discriminate | |].
  - intros [= <-]. apply Hrange. by left.
  - destruct (prioritizePods rt pol state (x :: y :: rest)) as [[pl|e]|] eqn:Hp;
      [| discriminate | discriminate].
    simpl. destruct (selectPod (randIntn rt i) pl) as [sel|] eqn:Hs;
      [| discriminate].
    intros [= <-]. apply selectPod_in in Hs.
    rewrite (prioritizePods_IDs _ _ _ Hp) in Hs. by apply Hrange.
Qed.

End policy_path.

Section add_selection.
Variables (s : StatefulSetScheduler) (podID : Z).
Hypothesis HpodID : validOrdinal podID.

Lemma selectionBump_names (n : Z) (l : list Placement) :
  map PodName (map (selectionBump podID n) l) = map PodName l.
Proof.
  rewrite map_map. apply map_ext. intros p. unfold selectionBump.
  by destruct (selectionHit podID p).
Qed.

Lemma selectionBump_ordinals (n : Z) (l : list Placement) :
  map ordinalOf (map (selectionBump podID n) l) = map ordinalOf l.
Proof.
  rewrite map_map. apply map_ext. intros p. unfold selectionBump, ordinalOf.
  by destruct (selectionHit podID p).
Qed.

Lemma selectionHit_bump (n : Z) (l : list Placement) :
  existsb (selectionHit podID) (map (selectionBump podID n) l)
  = existsb (selectionHit podID) l.
Proof.
  induction l as [|p l IH]; simpl; [done |]. rewrite IH. f_equal.
  unfold selectionBump. destruct (selectionHit podID p) eqn:E; [| done].
  unfold selectionHit in *. done.
Qed.

Lemma selectionBump_no_hit (n : Z) (l : list Placement) :
  podID ∉ map ordinalOf l -> map (selectionBump podID n) l = l.
Proof.
  induction l as [|p l IH]; simpl; intros Hn; [done |].
  apply not_elem_of_cons in Hn as [Hp Hl]. rewrite IH by done. f_equal.
  unfold selectionBump, selectionHit. fold (ordinalOf p).
  destruct (Z.eqb_spec (ordinalOf p) podID); [congruence | done].
Qed.

Lemma selectionHit_elem (l : list Placement) :
  existsb (selectionHit podID) l = true <-> podID ∈ map ordinalOf l.
Proof.
  rewrite existsb_exists. split.
  - intros (p & Hp & Hh). apply Z.eqb_eq in Hh. rewrite <- Hh.
    apply list_elem_of_fmap. exists p. split; [done | by apply list_elem_of_In].
  - intros Hin. apply list_elem_of_fmap in Hin as (p & -> & Hp).
    exists p. split; [by apply list_elem_of_In | by apply Z.eqb_eq].
Qed.

Lemma selectionBump_total (l : list Placement) :
  NoDup (map ordinalOf l) ->
  Forall (fun p => 0 <= VReplicas p) l ->
  sumVReplicas l + 1 <= MaxInt32 ->
  Forall (fun p => 0 <= VReplicas p) (map (selectionBump podID 1) l) /\
  sumVReplicas l <= sumVReplicas (map (selectionBump podID 1) l)
    <= sumVReplicas l + 1 /\
  (podID ∈ map ordinalOf l ->
   sumVReplicas (map (selectionBump podID 1) l) = sumVReplicas l + 1).
Proof.
  induction l as [|p l IH]; simpl; intros Hnd Hnn Hsum.
  - split; [constructor |]. split; [lia |]. intros H. by apply elem_of_nil in H.
  - apply NoDup_cons in Hnd as [Hp Hnd]. apply Forall_cons in Hnn as [Hp0 Hnn].
    pose proof (sumVReplicas_nonneg l Hnn) as Hl0.
    simpl in Hsum.
    assert (Hb : selectionBump podID 1 p =
                 if ordinalOf p =? podID
                 then {| PodName := PodName p; VReplicas := add32 (VReplicas p) 1 |}
                 else p) by reflexivity.
    rewrite Hb. clear Hb.
    destruct (Z.eqb_spec (ordinalOf p) podID) as [Heq | Hne].
    + rewrite selectionBump_no_hit by congruence. simpl.
      rewrite add32_id by (unfold in_int32, MinInt32; lia).
      split; [constructor; [simpl; lia | done] |]. split; [lia |]. intros _. lia.
    + destruct (IH Hnd Hnn ltac:(lia)) as (Hnn' & Hle & Heq').
      simpl. split; [by constructor |]. split; [lia |].
      intros Hin. apply elem_of_cons in Hin as [Hin | Hin]; [congruence |].
      specialize (Heq' Hin). lia.
Qed.

(** Placing one vreplica on a pod keeps the list well formed and adds
    exactly one to its total. *)
Lemma addSelectionToPlacements_one (placements : option (list Placement)) :
  selectable (elems placements) ->
  sumVReplicas (elems placements) + 1 <= MaxInt32 ->
  exists l',
    addSelectionToPlacements s [(podID, 1)] placements = Some l' /\
    selectable l' /\
    sumVReplicas l' = sumVReplicas (elems placements) + 1.
Proof.
  intros (Hnd & Hndo & Hnn) Hsum.
  unfold addSelectionToPlacements. simpl.
  assert (He : elems (option_map (map (selectionBump podID 1)) placements)
               = map (selectionBump podID 1) (elems placements))
    by (by destruct placements).
  rewrite He, selectionHit_bump.
  destruct (selectionBump_total _ Hndo Hnn Hsum) as (Hnn' & Hle & Heq).
  destruct (existsb (selectionHit podID) (elems placements)) eqn:Hseen; simpl.
  - apply selectionHit_elem in Hseen.
    destruct placements as [ps|]; [| by apply elem_of_nil in Hseen]. simpl in *.
    eexists. split; [done |]. split; [| by apply Heq].
    split; [by rewrite selectionBump_names |].
    split; [by rewrite selectionBump_ordinals | done].
  - assert (Hno : podID ∉ map ordinalOf (elems placements)).
    { intros Hin. apply selectionHit_elem in Hin. congruence. }
    rewrite selectionBump_no_hit by done.
    eexists. split; [done |]. destruct HpodID as [Hp1 Hp2].
    assert (Hord : ordinalOf {| PodName := PodNameFromOrdinal (statefulSetName s) podID;
                                VReplicas := 1 |} = podID).
    { unfold ordinalOf. simpl. apply OrdinalFromPodName_PodNameFromOrdinal. lia. }
    split; [| rewrite sumVReplicas_app; simpl; lia].
    split; [| split].
    + rewrite map_app. simpl. apply NoDup_app. split; [done |].
      split; [| apply NoDup_singleton].
      intros x Hx Hx'. apply list_elem_of_singleton in Hx' as ->.
      apply list_elem_of_fmap in Hx as (p & Hname & Hp). apply Hno.
      apply list_elem_of_fmap. exists p. split; [| done].
      unfold ordinalOf. rewrite <- Hname.
      symmetry. apply OrdinalFromPodName_PodNameFromOrdinal. lia.
    + rewrite map_app. simpl. rewrite Hord. apply NoDup_app. split; [done |].
      split; [| apply NoDup_singleton].
      intros x Hx Hx'. apply list_elem_of_singleton in Hx' as ->. done.
    + apply Forall_app. split; [done |]. repeat constructor. simpl. lia.
Qed.

End add_selection.

(** ** The placement invariant on every path *)

Section placement_invariant.

Lemma removeReplicas_loop_good (rps : list Placement) :
  forall (diff : Z) (np : list Placement),
  Forall (fun p => 0 <= VReplicas p <= MaxInt32) rps ->
  0 <= diff <= MaxInt32 ->
  exists added,
    removeReplicas_loop rps diff np = np ++ added /\
    map PodName added `sublist_of` map PodName rps /\
    Forall (fun p => 0 <= VReplicas p) added.
Proof.
  induction rps as [|p r IH]; intros diff np Hb Hd; simpl.
  - exists []. by rewrite app_nil_r.
  - apply Forall_cons in Hb as [Hp Hb].
    destruct (Z.leb_spec (VReplicas p) diff).
    + rewrite sub32_id by (unfold in_int32, MinInt32; lia).
      destruct (IH (diff - VReplicas p) np Hb ltac:(lia)) as (added & -> & Hs & Hn).
      exists added. split; [done |]. split; [by apply sublist_cons | done].
    + rewrite sub32_id by (unfold in_int32, MinInt32; lia).
      destruct (IH 0 (np ++ [{| PodName := PodName p;
                                VReplicas := VReplicas p - diff |}]) Hb
                  ltac:(unfold MaxInt32; lia)) as (added & -> & Hs & Hn).
      exists ({| PodName := PodName p; VReplicas := VReplicas p - diff |} :: added).
      rewrite <- app_assoc. split; [done |].
      split; [by apply sublist_skip | constructor; [simpl; lia | done]].
Qed.

Lemma wellFormedTotals_bounds (l : list Placement) :
  wellFormedTotals l -> Forall (fun p => 0 <= VReplicas p <= MaxInt32) l.
Proof.
  induction l as [|p l IH]; intros Hwf; [constructor |].
  apply wellFormedTotals_cons in Hwf as [Hp Hwf]. constructor; auto.
Qed.

Lemma removeReplicas_good (diff : Z) (placements : list Placement) :
  NoDup (map PodName placements) ->
  wellFormedTotals placements ->
  0 <= diff <= MaxInt32 ->
  goodPlacements (removeReplicas diff placements).
Proof.
  intros Hnd Hwf Hd. unfold removeReplicas.
  destruct (removeReplicas_loop_good (rev placements) diff [])
    as (added & -> & Hs & Hn); [| done |].
  - apply Forall_rev. by apply wellFormedTotals_bounds.
  - simpl. split; [| done]. refine (sublist_NoDup _ _ _ Hs).
    rewrite map_rev. by rewrite <- Permutation_rev.
Qed.

Lemma wellFormed_selectable (name : string) (l : list Placement) :
  wellFormedPlacements name l -> selectable l.
Proof.
  intros (Hnd & Hw & Hnn & _). split; [done |]. split; [| done].
  apply (NoDup_fmap_1 (PodNameFromOrdinal name)).
  replace (PodNameFromOrdinal name <$> map ordinalOf l) with (map PodName l);
    [done |].
  clear Hnd Hnn. induction Hw as [|p l [_ Hp] Hl IH]; simpl; [done |].
  rewrite IH. f_equal. exact Hp.
Qed.

Lemma addReplicasWithPolicy_loop_good (rt : Runtime) (s : StatefulSetScheduler)
    (pol : Policy) (vpod : VPod) (numVreps : Z) (idxs : list Z) :
  replicas s <= MaxInt32 ->
  forall (diff : Z) (placements : option (list Placement)) (rsv : Reserved)
         (placements' : option (list Placement)) (diff' : Z) (rsv' : Reserved),
  selectable (elems placements) ->
  sumVReplicas (elems placements) + Z.of_nat (length idxs) <= MaxInt32 ->
  addReplicasWithPolicy_loop rt s pol vpod numVreps diff placements rsv idxs
    = Ok (placements', diff', rsv') ->
  selectable (elems placements').
Proof.
  intros Hrep. induction idxs as [|i r IH];
    intros diff placements rsv placements' diff' rsv' Hsel Hsum; simpl.
  - by intros [= <- _ _].
  - destruct (stateBuilder_State (stateAccessor s) rsv) as [[rsv1 st]|];
      [| discriminate].
    simpl. destruct (policyRound rt s pol i st) as [round|] eqn:Hround;
      [| discriminate].
    simpl. destruct round as [| |podID].
    + by intros [= <- _ _].
    + by intros [= <- _ _].
    + apply policyRound_selected in Hround.
      destruct (addSelectionToPlacements_one s podID
                  ltac:(unfold validOrdinal; lia) placements Hsel
                  ltac:(simpl in Hsum; lia)) as (l' & -> & Hsel' & Hsum').
      intros H. eapply IH; [| | exact H]; [done |]. simpl in *. lia.
Qed.

End placement_invariant.

Section schedule_invariant.
Variables (rt : Runtime) (s : StatefulSetScheduler) (vpod : VPod).
Hypothesis Hwf :
  wellFormedPlacements (statefulSetName s) (elems (GetPlacements vpod)).
Hypothesis Hdesired : 0 <= GetVReplicas vpod <= MaxInt32.
Hypothesis Hreplicas : replicas s <= MaxInt32.
Hypothesis Hsnapshot :
  forall rsv state,
    stateBuilder_State (stateAccessor s) (reserved s) = Ok (rsv, inr state) ->
    stateOK state.

Lemma committed_total :
  GetTotalVReplicas (GetPlacements vpod)
  = sumVReplicas (elems (GetPlacements vpod)) /\
  0 <= sumVReplicas (elems (GetPlacements vpod)) <= MaxInt32.
Proof.
  destruct Hwf as (_ & _ & Hnn & Hmax).
  pose proof (sumVReplicas_nonneg _ Hnn) as H0.
  split; [| lia]. rewrite GetTotalVReplicas_sum. apply int32_id.
  unfold in_int32, MinInt32. lia.
Qed.

Lemma committed_good : goodPlacements (elems (GetPlacements vpod)).
Proof. destruct Hwf as (Hnd & _ & Hnn & _). by split. Qed.

Lemma finishSchedule_placements (s0 : StatefulSetScheduler)
    (placements : option (list Placement)) (nleft : Z) :
  (finishSchedule s0 vpod placements nleft).1.1 = placements.
Proof. unfold finishSchedule. by destruct (0 <? nleft). Qed.

Lemma scheduleVPod_good (ps0 : list Placement) (e : option error)
    (s0 : StatefulSetScheduler) :
  scheduleVPod rt s vpod = Ok (Some ps0, e, s0) -> goodPlacements ps0.
Proof.
  destruct committed_total as [Ht Htb]. pose proof committed_good as Hgood.
  unfold scheduleVPod.
  destruct (stateBuilder_State (stateAccessor s) (reserved s))
    as [[rsv [err|state]]|] eqn:Hst; simpl; [discriminate | | discriminate].
  pose proof (Hsnapshot rsv state eq_refl) as Hok.
  rewrite Ht.
  destruct (Z.eqb_spec (sumVReplicas (elems (GetPlacements vpod))) (GetVReplicas vpod))
    as [Heq | Hne].
  { intros [= Hp _ _]. by rewrite Hp in Hgood. }
  destruct (bool_decide (SchedulerPolicy state = "")) eqn:Hpol; simpl.
  - (* predicates and priorities *)
    destruct (policy s) as [pol|].
    + destruct (ValidatePolicy rt pol); [| discriminate].
      destruct (addReplicasWithPolicy rt (withReservedTable s rsv) pol vpod _ _)
        as [[[placements' nleft] rsv']|] eqn:Hadd; [| discriminate].
      simpl. intros H.
      assert (Hp : placements' = Some ps0).
      { rewrite <- (finishSchedule_placements (withReservedTable
                      (withReservedTable s rsv) rsv') placements' nleft).
        by rewrite (f_equal (fun r => match r with Ok x => x.1.1 | Panic => None end) H). }
      subst placements'. unfold addReplicasWithPolicy in Hadd.
      apply addReplicasWithPolicy_loop_good in Hadd.
      * destruct Hadd as (Hnd & _ & Hnn). by split.
      * done.
      * by eapply wellFormed_selectable.
      * rewrite length_seqZ.
        destruct (Z.le_gt_cases (GetVReplicas vpod)
                    (sumVReplicas (elems (GetPlacements vpod)))).
        -- rewrite sub32_id by (unfold in_int32, MinInt32, MaxInt32 in *; lia). lia.
        -- rewrite sub32_id by (unfold in_int32, MinInt32, MaxInt32 in *; lia). lia.
    + intros H.
      assert (Hp : GetPlacements vpod = Some ps0).
      { rewrite <- (finishSchedule_placements (withReservedTable s rsv)
                      (GetPlacements vpod) 0).
        by rewrite (f_equal (fun r => match r with Ok x => x.1.1 | Panic => None end) H). }
      by rewrite Hp in Hgood.
  - destruct (Z.ltb_spec (GetVReplicas vpod)
                (sumVReplicas (elems (GetPlacements vpod)))) as [Hdown | Hup].
    + (* scale down *)
      destruct (isEvenSpread (SchedulerPolicy state)).
      * intros [= <- _ _].
        by apply (removeReplicasEvenSpread_good (withReservedTable s rsv)).
      * intros [= <- _ _]. destruct Hwf as (Hnd & _ & Hwt).
        apply removeReplicas_good; [done | done |].
        rewrite sub32_id by (unfold in_int32, MinInt32; lia). lia.
    + (* scale up *)
      assert (Hdiff : sub32 (GetVReplicas vpod)
                        (sumVReplicas (elems (GetPlacements vpod)))
                      = GetVReplicas vpod - sumVReplicas (elems (GetPlacements vpod))).
      { apply sub32_id. unfold in_int32, MinInt32. lia. }
      rewrite Hdiff.
      destruct (isEvenSpread (SchedulerPolicy state)).
      * destruct (addReplicasEvenSpread_good (withReservedTable s rsv) state
                    (elems (GetPlacements vpod))
                    (ceilDiv rt (GetVReplicas vpod) (spreadDomains state))
                    Hwf
                    ltac:(unfold ceilDiv; destruct (_ =? 0); apply int32_range)
                    (GetVReplicas vpod - sumVReplicas (elems (GetPlacements vpod)))
                    Hok Hreplicas ltac:(lia) ltac:(lia))
          as (np & nleft & -> & _ & _ & Hg).
        simpl. intros H.
        assert (Hp : Some np = Some ps0).
        { rewrite <- (finishSchedule_placements (withReservedTable s rsv)
                        (Some np) nleft).
          by rewrite (f_equal (fun r => match r with Ok x => x.1.1 | Panic => None end) H). }
        by injection Hp as <-.
      * destruct Hwf as (Hnd & Hw & Hnn & Hmax).
        destruct (addReplicas_spec (withReservedTable s rsv) state
                    (GetVReplicas vpod - sumVReplicas (elems (GetPlacements vpod)))
                    (elems (GetPlacements vpod)) Hok Hreplicas)
          as (np & nleft & -> & _ & _ & Hnn' & Hnd');
          [eapply Forall_impl; [exact Hw | by intros p [? _]]
          | done | lia | lia |].
        simpl. intros H.
        assert (Hp : Some np = Some ps0).
        { rewrite <- (finishSchedule_placements (withReservedTable s rsv)
                        (Some np) nleft).
          by rewrite (f_equal (fun r => match r with Ok x => x.1.1 | Panic => None end) H). }
        injection Hp as <-. split; [by apply Hnd' | done].
Qed.

(** Under a built-in policy type the call does not panic. *)
Lemma scheduleVPod_returns (rsv : Reserved) (state : State) :
  stateBuilder_State (stateAccessor s) (reserved s) = Ok (rsv, inr state) ->
  schedulerPolicy (stateAccessor s) <> "" ->
  exists r, scheduleVPod rt s vpod = Ok r.
Proof.
  intros Hst Hpol. destruct committed_total as [Ht Htb].
  pose proof (Hsnapshot rsv state Hst) as Hok.
  unfold scheduleVPod. rewrite Hst. simpl.
  rewrite (State_policy s rsv state Hst), Ht.
  destruct (_ =? _); [eauto |].
  rewrite bool_decide_eq_false_2 by done. simpl.
  destruct (Z.ltb_spec (GetVReplicas vpod)
              (sumVReplicas (elems (GetPlacements vpod)))) as [Hdown | Hup].
  - destruct (isEvenSpread _); eauto.
  - assert (Hdiff : sub32 (GetVReplicas vpod)
                      (sumVReplicas (elems (GetPlacements vpod)))
                    = GetVReplicas vpod - sumVReplicas (elems (GetPlacements vpod))).
    { apply sub32_id. unfold in_int32, MinInt32. lia. }
    rewrite Hdiff. destruct (isEvenSpread _).
    + destruct (addReplicasEvenSpread_good (withReservedTable s rsv) state
                  (elems (GetPlacements vpod))
                  (ceilDiv rt (GetVReplicas vpod) (spreadDomains state))
                  Hwf
                  ltac:(unfold ceilDiv; destruct (_ =? 0); apply int32_range)
                  (GetVReplicas vpod - sumVReplicas (elems (GetPlacements vpod)))
                  Hok Hreplicas ltac:(lia) ltac:(lia))
        as (np & nleft & -> & _). simpl. eauto.
    + destruct Hwf as (Hnd & Hw & Hnn & Hmax).
      destruct (addReplicas_spec (withReservedTable s rsv) state
                  (GetVReplicas vpod - sumVReplicas (elems (GetPlacements vpod)))
                  (elems (GetPlacements vpod)) Hok Hreplicas)
        as (np & nleft & -> & _);
        [eapply Forall_impl; [exact Hw | by intros p [? _]]
        | done | lia | lia |].
      simpl. eauto.
Qed.

End schedule_invariant.

(** C5. [Schedule] keeps the placement invariant of the data model: when
    the committed list of the vpod has one entry per pod name, names of
    pods of the pool at addressable ordinals and non-negative counts of
    int32 total, the desired count is a non-negative int32, and the
    snapshot has fewer than 2^31 slots, every non-nil list that
    [Schedule] returns has at most one entry per pod name and no negative
    vreplicas count.  This covers every path: already placed, MAXFILLUP,
    EVENSPREAD and EVENSPREAD_BYNODE (scale-down, and scale-up filling
    existing placements and then scanning all ordinals), and the
    predicate/priority path, whatever the plugins and the random source
    are.  Under a built-in policy type the call moreover returns. *)
Theorem Schedule_placement_invariant (rt : Runtime) (s : StatefulSetScheduler)
    (vpod : VPod) :
  wellFormedPlacements (statefulSetName s) (elems (GetPlacements vpod)) ->
  0 <= GetVReplicas vpod <= MaxInt32 ->
  replicas s <= MaxInt32 ->
  (forall rsv state,
     stateBuilder_State (stateAccessor s) (reserved s) = Ok (rsv, inr state) ->
     stateOK state) ->
  (forall ps e s',
     Schedule rt s vpod = Ok (Some ps, e, s') ->
     NoDup (map PodName ps) /\ Forall (fun p => 0 <= VReplicas p) ps) /\
  (forall rsv state,
     stateBuilder_State (stateAccessor s) (reserved s) = Ok (rsv, inr state) ->
     schedulerPolicy (stateAccessor s) <> "" ->
     exists r, Schedule rt s vpod = Ok r).
Proof.
  intros Hwf Hd Hrep Hsnap. split.
  - intros ps e s' H. apply Schedule_inv in H as (ps0 & s0 & Hs & -> & _).
    destruct (scheduleVPod_good rt s vpod Hwf Hd Hrep Hsnap ps0 e s0 Hs)
      as [Hnd Hnn].
    pose proof (SliceStable_perm ordinalOf ps0) as Hperm. split.
    + by rewrite Hperm.
    + by rewrite Hperm.
  - intros rsv state Hst Hpol.
    destruct (scheduleVPod_returns rt s vpod Hwf Hd Hrep Hsnap rsv state Hst Hpol)
      as [[[ps e] s0] Hs].
    unfold Schedule. rewrite Hs. simpl. destruct ps; eauto.
Qed.

Lemma Schedule_placement_invariant_witness :
  NoDup (map PodName [Example.P "pool-0" 2; Example.P "pool-1" 2;
                      Example.P "pool-2" 1]) /\
  Forall (fun p => 0 <= VReplicas p)
    [Example.P "pool-0" 2; Example.P "pool-1" 2; Example.P "pool-2" 1].
Proof.
  refine (proj1 (Schedule_placement_invariant Example.rt Example.schedSpread
                   Example.vpodSpread _ _ _ _)
            [Example.P "pool-0" 2; Example.P "pool-1" 2; Example.P "pool-2" 1]
            None Example.schedSpread_final _).
  - split; [| split].
    + simpl. apply NoDup_singleton.
    + repeat constructor; vm_compute; congruence.
    + split; [repeat constructor; simpl; lia | vm_compute; congruence].
  - unfold MaxInt32. simpl. lia.
  - unfold MaxInt32. simpl. lia.
  - intros rsv state H. vm_compute in H. injection H as _ <-.
    unfold stateOK, MaxInt32. simpl. lia.
  - vm_compute. reflexivity.
Defined.

(** * Further properties of the code *)

(** ** Pod names (helpers.go) *)

Section pod_name_codec.

Lemma append_cons (x : ascii) (a b : string) :
  String x a +:+ b = String x (a +:+ b).
Proof. reflexivity. Qed.

Lemma append_assoc3 (a b c : string) : (a +:+ b) +:+ c = a +:+ (b +:+ c).
Proof.
  induction a as [|x a IH]; [done |]. by rewrite !append_cons, IH.
Qed.


Lemma Itoa_neg (o : Z) :
  o < 0 -> Itoa o = String "-" (Itoa (- o)).
Proof.
  intros Ho. destruct o as [|p|p]; [lia | lia |]. reflexivity.
Qed.





End pod_name_codec.

(** X1. Pod names and ordinals: for every pool name (dashes allowed) and
    every ordinal from 0 to [MaxInt32], decoding the encoded name gives
    the ordinal back, so distinct ordinals have distinct names; for a
    negative ordinal the sign is lost, the decoded value is its
    opposite. *)
Theorem pod_name_round_trip (name : string) (o : Z) :
  (0 <= o <= MaxInt32 ->
   OrdinalFromPodName (PodNameFromOrdinal name o) = o /\
   forall o', 0 <= o' <= MaxInt32 ->
              PodNameFromOrdinal name o' = PodNameFromOrdinal name o -> o' = o) /\
  (- MaxInt32 <= o < 0 ->
   OrdinalFromPodName (PodNameFromOrdinal name o) = - o).
Proof.
  split.
  - intros Ho. split.
    + by apply OrdinalFromPodName_PodNameFromOrdinal.
    + intros o' Ho' Heq.
      rewrite <- (OrdinalFromPodName_PodNameFromOrdinal name o') by done.
      rewrite Heq. by apply OrdinalFromPodName_PodNameFromOrdinal.
  - intros Ho.
    assert (Hname : PodNameFromOrdinal name o
                    = PodNameFromOrdinal (name +:+ "-") (- o)).
    { unfold PodNameFromOrdinal. rewrite (Itoa_neg o) by lia.
      by rewrite append_assoc3. }
    rewrite Hname. apply OrdinalFromPodName_PodNameFromOrdinal. lia.
Qed.

Lemma pod_name_round_trip_witness :
  OrdinalFromPodName (PodNameFromOrdinal "my-pool" 12) = 12 /\
  OrdinalFromPodName (PodNameFromOrdinal "my-pool" (-3)) = 3.
Proof.
  split.
  - refine (proj1 (proj1 (pod_name_round_trip "my-pool" 12) _)).
    unfold MaxInt32. lia.
  - refine (proj2 (pod_name_round_trip "my-pool" (-3)) _).
    unfold MaxInt32. lia.
Defined.

Section pod_name_suffix.

(** The part of a name after its last dash holds no dash; it is the whole
    name when the name has none. *)
Lemma LastIndex_from_suffix (s : string) :
  forall (i found : Z),
  found < i ->
  (LastIndex_from s i found = found \/ i <= LastIndex_from s i found) /\
  noDash (sliceFrom (Z.to_nat (LastIndex_from s i found + 1 - i)) s).
Proof.
  induction s as [|c s IH]; intros i found Hlt; simpl.
  - split; [by left |]. replace (Z.to_nat (found + 1 - i)) with O by lia.
    intros c Hc. destruct Hc.
  - destruct (Ascii.eqb_spec c "-") as [-> | Hc].
    + destruct (IH (i + 1) i ltac:(lia)) as [Hr Hn].
      split; [right; lia |].
      replace (Z.to_nat (LastIndex_from s (i + 1) i + 1 - i))
        with (S (Z.to_nat (LastIndex_from s (i + 1) i + 1 - (i + 1)))) by lia.
      exact Hn.
    + destruct (IH (i + 1) found ltac:(lia)) as [Hr Hn].
      destruct Hr as [Hr | Hr].
      * split; [by left |]. rewrite Hr in *.
        replace (Z.to_nat (found + 1 - i)) with O by lia.
        replace (Z.to_nat (found + 1 - (i + 1))) with O in Hn by lia.
        simpl in *. intros c' [<- | Hc']; [done | by apply Hn].
      * split; [right; lia |].
        replace (Z.to_nat (LastIndex_from s (i + 1) found + 1 - i))
          with (S (Z.to_nat (LastIndex_from s (i + 1) found + 1 - (i + 1)))) by lia.
        exact Hn.
Qed.

Lemma Z_of_uint_nonneg (d : Decimal.uint) : 0 <= Z.of_uint d.
Proof. unfold Z.of_uint. apply N2Z.is_nonneg. Qed.

Lemma parseDigits_nonneg (s : string) (n : Z) : parseDigits s = Some n -> 0 <= n.
Proof.
  unfold parseDigits. destruct s; [done |].
  destruct (NilEmpty.uint_of_string _); simpl; [| done].
  intros [= <-]. apply Z_of_uint_nonneg.
Qed.

Lemma ParseInt32_noDash (s : string) (n : Z) :
  noDash s -> ParseInt32 s = Some n -> 0 <= n <= MaxInt32.
Proof.
  intros Hs. unfold ParseInt32. destruct s as [|c r]; [done |].
  destruct (Ascii.eqb_spec c "+").
  - destruct (parseDigits r) as [m|] eqn:E; [| done].
    destruct (Z.leb_spec m MaxInt32); [| done].
    intros [= <-]. split; [by eapply parseDigits_nonneg | done].
  - destruct (Ascii.eqb_spec c "-") as [-> | _].
    + exfalso. apply (Hs "-"%char); [by left | done].
    + destruct (parseDigits (String c r)) as [m|] eqn:E; [| done].
      destruct (Z.leb_spec m MaxInt32); [| done].
      intros [= <-]. split; [by eapply parseDigits_nonneg | done].
Qed.

End pod_name_suffix.

(** X2. [OrdinalFromPodName] never yields a negative ordinal: for every
    string the result lies between 0 and [MaxInt32], since the text
    after the last dash cannot carry a minus sign. *)
Theorem OrdinalFromPodName_range (podName : string) :
  0 <= OrdinalFromPodName podName <= MaxInt32.
Proof.
  unfold OrdinalFromPodName, LastIndexDash.
  destruct (LastIndex_from_suffix podName 0 (-1) ltac:(lia)) as [_ Hn].
  rewrite Z.sub_0_r in Hn.
  destruct (ParseInt32 _) as [n|] eqn:E; [| unfold MaxInt32; lia].
  pose proof (ParseInt32_noDash _ _ Hn E) as Hb.
  rewrite int32_id; [done |]. unfold in_int32, MinInt32, MaxInt32 in *. lia.
Qed.



(** ** The free-capacity slots (state.go) *)

Section free_slots.

(** Whatever its arguments, [grow] only appends default values. *)
Lemma grow_app (slice : list Z) (o def : Z) :
  exists k, grow slice o def = slice ++ replicate k def.
Proof.
  unfold grow. destruct (_ <=? 0).
  - exists O. simpl. by rewrite app_nil_r.
  - by eexists.
Qed.

Lemma grow_length_ge (slice : list Z) (o def : Z) :
  (length slice <= length (grow slice o def))%nat.
Proof.
  destruct (grow_app slice o def) as [k ->]. rewrite length_app. lia.
Qed.

Lemma SetFree_fields (s s' : State) (o v : Z) :
  SetFree s o v = Ok s' ->
  LastOrdinal s' = LastOrdinal s /\ NumZones s' = NumZones s /\
  NumNodes s' = NumNodes s.
Proof.
  unfold SetFree. destruct (store _ _ _); simpl; [| done].
  by intros [= <-].
Qed.

End free_slots.

(** X4. Writing then reading a slot: on a snapshot of fewer than 2^31
    slots and at an addressable ordinal, [SetFree] succeeds, [Free] then
    reads the value written there and what it read before at every other
    ordinal, the slice grows to hold the ordinal and no further, and the
    last ordinal and the capacity are kept. *)
Theorem SetFree_then_Free (s : State) (o v : Z) :
  stateOK s -> validOrdinal o ->
  exists s',
    SetFree s o v = Ok s' /\
    Free s' o = Ok v /\
    (forall o', 0 <= o' -> o' <> o -> Free s' o' = Free s o') /\
    Z.of_nat (length (FreeCap s'))
      = Z.max (Z.of_nat (length (FreeCap s))) (o + 1) /\
    LastOrdinal s' = LastOrdinal s /\ Capacity s' = Capacity s.
Proof.
  intros Hok Ho.
  destruct (SetFree_spec s o v Hok Ho) as (s' & Hset & Hok' & Hat & Hother & Hsame).
  exists s'. split; [done |]. split; [| split; [| split; [| split]]].
  - rewrite Free_freeAt by (done || apply Ho). by rewrite Hat.
  - intros o' Ho' Hne. rewrite !Free_freeAt by done. f_equal. by apply Hother.
  - revert Hset. unfold SetFree, store.
    destruct (o <? 0); [done |].
    destruct (_ <? _)%nat; [| done]. simpl. intros [= <-]. simpl.
    rewrite length_insert. by apply grow_length.
  - by destruct (SetFree_fields _ _ _ _ Hset) as [-> _].
  - by destruct Hsame as (_ & _ & ->).
Qed.

Lemma SetFree_then_Free_witness :
  exists s',
    SetFree (mkState [4] 0 10 0 0 MAXFILLUP ∅) 2 7 = Ok s' /\
    Free s' 2 = Ok 7 /\
    (forall o', 0 <= o' -> o' <> 2 ->
                Free s' o' = Free (mkState [4] 0 10 0 0 MAXFILLUP ∅) o') /\
    Z.of_nat (length (FreeCap s')) = Z.max (Z.of_nat (length [4])) (2 + 1) /\
    LastOrdinal s' = 0 /\ Capacity s' = 10.
Proof.
  apply (SetFree_then_Free (mkState [4] 0 10 0 0 MAXFILLUP ∅) 2 7).
  - unfold stateOK, MaxInt32. simpl. lia.
  - unfold validOrdinal, MaxInt32. lia.
Defined.

(** X5. The safe accessors are not safe below zero or at the sentinel:
    on a snapshot of fewer than 2^31 slots, [Free] and [SetFree] panic
    at every negative ordinal; and at the ordinal [MaxInt32], which
    [OrdinalFromPodName] gives for a name it cannot parse, the length
    computation of [grow] overflows on the empty slice, which is returned
    as it is, so that [SetFree] panics. *)
Theorem Free_SetFree_out_of_range (s : State) (o v : Z) :
  stateOK s ->
  (MinInt32 <= o < 0 -> Free s o = Panic /\ SetFree s o v = Panic) /\
  (FreeCap s = [] ->
   grow (FreeCap s) MaxInt32 (Capacity s) = [] /\ SetFree s MaxInt32 v = Panic).
Proof.
  intros Hok. split.
  - intros Ho. unfold Free, SetFree, store, index.
    rewrite len32_id by done.
    destruct (Z.leb_spec (Z.of_nat (length (FreeCap s))) o); [lia |].
    destruct (Z.ltb_spec o 0); [done | lia].
  - intros Hnil. unfold SetFree. rewrite Hnil. split; reflexivity.
Qed.

Lemma Free_SetFree_out_of_range_witness :
  (Free (mkState [4] 0 10 0 0 MAXFILLUP ∅) (-1) = Panic /\
   SetFree (mkState [4] 0 10 0 0 MAXFILLUP ∅) (-1) 3 = Panic) /\
  (grow [] MaxInt32 10 = [] /\
   SetFree (mkState [] (-1) 10 0 0 MAXFILLUP ∅) MaxInt32 3 = Panic).
Proof.
  split.
  - refine (proj1 (Free_SetFree_out_of_range
                     (mkState [4] 0 10 0 0 MAXFILLUP ∅) (-1) 3 _) _).
    + unfold stateOK, MaxInt32. simpl. lia.
    + unfold MinInt32. lia.
  - refine (proj2 (Free_SetFree_out_of_range
                     (mkState [] (-1) 10 0 0 MAXFILLUP ∅) 0 3 _) _).
    + unfold stateOK, MaxInt32. simpl. lia.
    + reflexivity.
Defined.

(** X6. A placement whose pod name carries no parsable ordinal makes the
    state build panic when it is the first placement accounted for: its
    ordinal is the sentinel [MaxInt32], [grow] leaves the empty slice
    empty, and the update of the slot is out of range. *)
Theorem State_panics_on_unparsable_pod_name (sb : stateBuilder)
    (reserved : Reserved) (vpod : VPod) (vpods : list VPod)
    (p : Placement) (ps : list Placement) :
  vpodLister sb = inr (vpod :: vpods) ->
  GetPlacements vpod = Some (p :: ps) ->
  OrdinalFromPodName (PodName p) = MaxInt32 ->
  stateBuilder_State sb reserved = Panic.
Proof.
  intros Hl Hp Ho. unfold stateBuilder_State. rewrite Hl. simpl.
  unfold vpodStep. rewrite Hp. simpl. unfold placementStep. simpl.
  destruct (withReserved _ _ _ _) as [v r].
  unfold updateFreeCapacity. rewrite Ho. reflexivity.
Qed.

Lemma State_panics_on_unparsable_pod_name_witness :
  stateBuilder_State
    {| vpodLister :=
         inr [ {| GetKey := Example.key "g"; GetVReplicas := 1;
                  GetPlacements := Some [Example.P "pool-x" 1] |} ];
       capacity := 10; schedulerPolicy := MAXFILLUP; nodeLister := inr [] |}
    [] = Panic.
Proof.
  eapply State_panics_on_unparsable_pod_name; reflexivity.
Defined.

(** ** What a successful state build returns (state.go) *)

Section state_build.
Variable cap : Z.

Lemma updateFreeCapacity_range (free : list Z) (last : Z) (podName : string)
    (vreplicas : Z) (free' : list Z) (last' : Z) :
  updateFreeCapacity cap free last podName vreplicas = Ok (free', last') ->
  -1 <= last < Z.of_nat (length free) ->
  -1 <= last' < Z.of_nat (length free').
Proof.
  intros H Hr.
  apply updateFreeCapacity_inv in H as (f & Ho & Hf & -> & ->).
  rewrite length_insert.
  pose proof (lookup_lt_Some _ _ _ Hf) as Hlt.
  pose proof (grow_length_ge free (OrdinalFromPodName podName) cap) as Hge.
  destruct (_ && _); lia.
Qed.

Lemma placementsLoop_range (key : Key) (ps : list Placement) :
  forall a a',
  placementsLoop cap key a ps = Ok a' ->
  -1 <= aLast a < Z.of_nat (length (aFree a)) ->
  -1 <= aLast a' < Z.of_nat (length (aFree a')).
Proof.
  induction ps as [|p ps IH]; intros a a' H Hr; simpl in H.
  - by injection H as <-.
  - destruct (placementStep cap key a p) as [a1|] eqn:E; [| discriminate].
    simpl in H. apply (IH a1 a' H).
    apply placementStep_inv in E as (free & last & Hu & <- & <- & _).
    by eapply updateFreeCapacity_range.
Qed.

Lemma vpodsLoop_range (vpods : list VPod) :
  forall a a',
  vpodsLoop cap a vpods = Ok a' ->
  -1 <= aLast a < Z.of_nat (length (aFree a)) ->
  -1 <= aLast a' < Z.of_nat (length (aFree a')).
Proof.
  induction vpods as [|vpod vpods IH]; intros a a' H Hr; simpl in H.
  - by injection H as <-.
  - destruct (vpodStep cap a vpod) as [a1|] eqn:E; [| discriminate].
    simpl in H. apply (IH a1 a' H).
    unfold vpodStep in E. by apply placementsLoop_range in E.
Qed.

Lemma reservedPodsLoop_range (wp : option (gset string)) (ps : list (string * Z)) :
  forall free last free' last',
  reservedPodsLoop cap wp free last ps = Ok (free', last') ->
  -1 <= last < Z.of_nat (length free) ->
  -1 <= last' < Z.of_nat (length free').
Proof.
  induction ps as [|[podName rv] ps IH]; intros free last free' last' H Hr;
    simpl in H.
  - by injection H as <- <-.
  - destruct (match wp with Some _ => _ | None => _ end).
    + by injection H as <- <-.
    + destruct (updateFreeCapacity cap free last podName rv)
        as [[free1 last1]|] eqn:E; [| discriminate].
      simpl in H. apply (IH _ _ _ _ H). by eapply updateFreeCapacity_range.
Qed.

Lemma reservedLoop_range (wp : gmap (string * string) (gset string))
    (reserved : Reserved) :
  forall free last free' last',
  reservedLoop cap wp free last reserved = Ok (free', last') ->
  -1 <= last < Z.of_nat (length free) ->
  -1 <= last' < Z.of_nat (length free').
Proof.
  induction reserved as [|[key ps] reserved IH];
    intros free last free' last' H Hr; simpl in H.
  - by injection H as <- <-.
  - destruct (reservedPodsLoop cap (wp !! key) free last ps)
      as [[free1 last1]|] eqn:E; [| discriminate].
    simpl in H. apply (IH _ _ _ _ H). by eapply reservedPodsLoop_range.
Qed.

End state_build.

(** The parts of a successful state build. *)
Lemma stateBuilder_State_parts (sb : stateBuilder) (reserved reserved' : Reserved)
    (st : State) :
  stateBuilder_State sb reserved = Ok (reserved', inr st) ->
  exists vpods a,
    vpodLister sb = inr vpods /\
    vpodsLoop (capacity sb)
      {| aFree := []; aLast := -1; aWithPlacement := ∅; aReserved := reserved |}
      vpods = Ok a /\
    reserved' = aReserved a /\
    reservedLoop (capacity sb) (aWithPlacement a) (aFree a) (aLast a) (aReserved a)
      = Ok (FreeCap st, LastOrdinal st) /\
    Capacity st = capacity sb /\
    SchedulerPolicy st = schedulerPolicy sb /\
    (if isEvenSpread (schedulerPolicy sb)
     then exists nodes,
            nodeLister sb = inr nodes /\
            NodeToZoneMap st = (nodesLoop nodes ∅ ∅).1 /\
            NumNodes st = int32 (Z.of_nat (size (nodesLoop nodes ∅ ∅).1)) /\
            NumZones st = int32 (Z.of_nat (size (nodesLoop nodes ∅ ∅).2))
     else NodeToZoneMap st = ∅ /\ NumNodes st = 0 /\ NumZones st = 0).
Proof.
  unfold stateBuilder_State. intros H.
  destruct (vpodLister sb) as [e|vpods]; [discriminate |].
  destruct (vpodsLoop _ _ _) as [a|] eqn:Ev; [| discriminate]. simpl in H.
  destruct (reservedLoop _ _ _ _ _) as [[free last]|] eqn:Er; [| discriminate].
  simpl in H. exists vpods, a.
  destruct (isEvenSpread _).
  - destruct (nodeLister sb) as [e|nodes]; [discriminate |].
    destruct (nodesLoop nodes ∅ ∅) as [m z] eqn:En.
    injection H as <- <-. simpl.
    do 6 (split; [done |]). exists nodes. by rewrite En.
  - injection H as <- <-. simpl. done.
Qed.

Section free_capacity.

Lemma sumZ_app (l1 l2 : list Z) : sumZ (l1 ++ l2) = sumZ l1 + sumZ l2.
Proof. unfold sumZ. induction l1 as [|x l1 IH]; simpl; lia. Qed.

Lemma FreeCapacity_loop_ok (free : list Z) (n : nat) :
  forall (k : nat) (t : Z),
  (k + n <= length free)%nat ->
  FreeCapacity_loop free (int32 t) (seqZ (Z.of_nat k) (Z.of_nat n))
  = Ok (int32 (t + sumZ (take n (drop k free)))).
Proof.
  induction n as [|n IH]; intros k t Hlen.
  - simpl. by rewrite Z.add_0_r.
  - rewrite seqZ_cons by lia.
    destruct (lookup_lt_is_Some_2 free k ltac:(lia)) as [f Hf].
    simpl. unfold index. destruct (Z.ltb_spec (Z.of_nat k) 0); [lia |].
    rewrite Nat2Z.id, Hf. simpl.
    replace (Z.succ (Z.of_nat k)) with (Z.of_nat (S k)) by lia.
    replace (Z.pred (Z.of_nat (S n))) with (Z.of_nat n) by lia.
    unfold add32. rewrite int32_add_l, IH by lia. do 2 f_equal.
    rewrite (drop_S free f k Hf). simpl. unfold sumZ. simpl.
    fold (sumZ (take n (drop (S k) free))). lia.
Qed.

Lemma FreeCapacity_loop_panic (free : list Z) (idxs : list Z) :
  forall t,
  Exists (fun i => index free i = Panic) idxs ->
  FreeCapacity_loop free t idxs = Panic.
Proof.
  induction idxs as [|i idxs IH]; intros t H; [by apply Exists_nil in H |].
  simpl. destruct (index free i) as [f|] eqn:E; [| done]. simpl.
  apply IH. apply Exists_cons in H as [H | H]; [congruence | done].
Qed.

Lemma FreeCapacity_ok (s : State) :
  stateOK s ->
  LastOrdinal s < Z.of_nat (length (FreeCap s)) ->
  FreeCapacity s
  = Ok (int32 (sumZ (take (Z.to_nat (LastOrdinal s + 1)) (FreeCap s)))).
Proof.
  intros Hok Hlt. unfold stateOK in Hok. unfold FreeCapacity.
  pose proof (FreeCapacity_loop_ok (FreeCap s)
                (Z.to_nat (LastOrdinal s + 1)) 0 0 ltac:(lia)) as Hloop.
  rewrite drop_0 in Hloop. change (Z.of_nat 0) with 0 in Hloop.
  replace (int32 0) with 0 in Hloop by reflexivity.
  destruct (Z.le_gt_cases 0 (LastOrdinal s + 1)) as [Hnn | Hneg].
  - rewrite Z2Nat.id in Hloop by done. rewrite Hloop. simpl.
    destruct (Z.eqb_spec (LastOrdinal s) MaxInt32); [lia | done].
  - rewrite seqZ_nil by lia. simpl.
    destruct (Z.eqb_spec (LastOrdinal s) MaxInt32); [unfold MaxInt32 in *; lia |].
    replace (Z.to_nat (LastOrdinal s + 1)) with O by lia. done.
Qed.

End free_capacity.

(** X7. [FreeCapacity] adds up the slots up to the last ordinal: on a
    snapshot of fewer than 2^31 slots whose last ordinal addresses a
    slot, or is negative, it returns the int32 sum of the first
    [LastOrdinal + 1] free capacities, which is 0 when the last ordinal
    is -1; it panics when the last ordinal lies beyond the slots. *)
Theorem FreeCapacity_spec (s : State) :
  stateOK s ->
  (LastOrdinal s < Z.of_nat (length (FreeCap s)) ->
   FreeCapacity s
   = Ok (int32 (sumZ (take (Z.to_nat (LastOrdinal s + 1)) (FreeCap s))))) /\
  (Z.of_nat (length (FreeCap s)) <= LastOrdinal s -> FreeCapacity s = Panic).
Proof.
  intros Hok. split; [by apply FreeCapacity_ok |].
  unfold stateOK in Hok. unfold FreeCapacity.
  intros Hge. rewrite FreeCapacity_loop_panic; [done |].
  apply Exists_exists. exists (Z.of_nat (length (FreeCap s))). split.
  - apply elem_of_seqZ. lia.
  - unfold index. destruct (Z.ltb_spec (Z.of_nat (length (FreeCap s))) 0); [done |].
    by rewrite Nat2Z.id, lookup_ge_None_2.
Qed.

Lemma FreeCapacity_spec_witness :
  FreeCapacity (mkState [8; 5; 5] 1 10 0 0 MAXFILLUP ∅)
    = Ok (int32 (sumZ (take (Z.to_nat (1 + 1)) [8; 5; 5]))) /\
  FreeCapacity (mkState [] 0 10 0 0 MAXFILLUP ∅) = Panic.
Proof.
  split.
  - refine (proj1 (FreeCapacity_spec (mkState [8; 5; 5] 1 10 0 0 MAXFILLUP ∅) _) _).
    + unfold stateOK, MaxInt32. simpl. lia.
    + simpl. lia.
  - refine (proj2 (FreeCapacity_spec (mkState [] 0 10 0 0 MAXFILLUP ∅) _) _).
    + unfold stateOK, MaxInt32. simpl. lia.
    + simpl. lia.
Defined.

(** X8. Every snapshot that [State] returns is consistent: its last
    ordinal is -1 or addresses one of its slots, its capacity and policy
    type are those of the builder; so [FreeCapacity] returns on it
    whenever it has fewer than 2^31 slots. *)
Theorem State_last_ordinal_in_range (sb : stateBuilder)
    (reserved reserved' : Reserved) (st : State) :
  stateBuilder_State sb reserved = Ok (reserved', inr st) ->
  -1 <= LastOrdinal st < Z.of_nat (length (FreeCap st)) /\
  Capacity st = capacity sb /\
  SchedulerPolicy st = schedulerPolicy sb /\
  (stateOK st -> exists t, FreeCapacity st = Ok t).
Proof.
  intros H.
  destruct (stateBuilder_State_parts _ _ _ _ H)
    as (vpods & a & _ & Hv & _ & Hr & Hc & Hp & _).
  assert (Hrange : -1 <= LastOrdinal st < Z.of_nat (length (FreeCap st))).
  { eapply reservedLoop_range; [exact Hr |].
    eapply vpodsLoop_range; [exact Hv |]. simpl. lia. }
  repeat split; try done; try lia.
  intros Hok. eexists. apply FreeCapacity_ok; [done | lia].
Qed.

Lemma State_last_ordinal_in_range_witness :
  -1 <= 0 < Z.of_nat (length [5]) /\
  10 = capacity Example.builderGrow /\
  MAXFILLUP = schedulerPolicy Example.builderGrow /\
  (stateOK (mkState [5] 0 10 0 0 MAXFILLUP ∅) ->
   exists t, FreeCapacity (mkState [5] 0 10 0 0 MAXFILLUP ∅) = Ok t).
Proof.
  apply (State_last_ordinal_in_range Example.builderGrow Example.reservedGrow
           Example.reservedGrow (mkState [5] 0 10 0 0 MAXFILLUP ∅)).
  reflexivity.
Defined.

Lemma stateBuilder_State_sub (sb : stateBuilder) (reserved reserved' : Reserved)
    (res : error + State) :
  stateBuilder_State sb reserved = Ok (reserved', res) ->
  subReserved reserved' reserved.
Proof.
  intros H. destruct (vpodLister sb) as [e|vpods] eqn:El.
  - unfold stateBuilder_State in H. rewrite El in H. injection H as <- <-.
    apply subReserved_refl.
  - destruct (stateBuilder_State_reserved _ _ _ _ _ H El) as (a & Ha & ->).
    apply (vpodsLoop_sub _ _ _ _ Ha).
Qed.

(** X9. A state build only ever removes reservations: every entry of the
    table it leaves is an entry of the table it was given, with the same
    count; the entries of a vpod that the lister does not list are all
    kept; and when the vpod lister fails the table is returned as it
    was, with the lister's error. *)
Theorem State_only_removes_reservations (sb : stateBuilder)
    (reserved reserved' : Reserved) (res : error + State) :
  stateBuilder_State sb reserved = Ok (reserved', res) ->
  subReserved reserved' reserved /\
  (forall vpods key podName,
     vpodLister sb = inr vpods ->
     (forall vpod, vpod ∈ vpods -> GetKey vpod <> key) ->
     lookupReserved reserved' key podName = lookupReserved reserved key podName) /\
  (forall e, vpodLister sb = inl e -> reserved' = reserved /\ res = inl e).
Proof.
  intros H. destruct (vpodLister sb) as [e|vpods] eqn:El.
  - unfold stateBuilder_State in H. rewrite El in H. injection H as <- <-.
    split; [apply subReserved_refl |]. split; [done |].
    by intros e' [= <-].
  - destruct (stateBuilder_State_reserved _ _ _ _ _ H El) as (a & Ha & ->).
    pose proof (vpodsLoop_sub _ _ _ _ Ha) as Hsub. simpl in Hsub.
    split; [done |]. split; [| done].
    intros vpods' key podName [= <-] Hkeys.
    destruct (lookupReserved reserved key podName) as [r|] eqn:Er.
    + eapply vpodsLoop_keeps; [exact Ha | | exact Er].
      intros vpod p Hin Hk. by destruct (Hkeys vpod Hin).
    + destruct (Hsub key podName) as [Hn | Hn]; [done | by rewrite Hn].
Qed.

Lemma State_only_removes_reservations_witness :
  subReserved [(Example.key "d", [("pool-0", 3); ("pool-2", 4)])]
    Example.reservedStale /\
  (forall vpods key podName,
     vpodLister Example.builderStale = inr vpods ->
     (forall vpod, vpod ∈ vpods -> GetKey vpod <> key) ->
     lookupReserved [(Example.key "d", [("pool-0", 3); ("pool-2", 4)])] key podName
     = lookupReserved Example.reservedStale key podName) /\
  (forall e, vpodLister Example.builderStale = inl e ->
     [(Example.key "d", [("pool-0", 3); ("pool-2", 4)])] = Example.reservedStale /\
     inr (mkState [5; 9] 1 10 0 0 MAXFILLUP ∅) = inl e).
Proof.
  apply (State_only_removes_reservations Example.builderStale
           Example.reservedStale _ (inr (mkState [5; 9] 1 10 0 0 MAXFILLUP ∅))).
  reflexivity.
Defined.

Section zones.

Lemma nodesLoop_fold (nodes : list Node) :
  forall (m : gmap string string) (z : gset string),
  nodesLoop nodes m z
  = (foldl (fun m nz => <[nz.1 := nz.2]> m) m (zonedNodes nodes),
     list_to_set (zonedNodes nodes).*2 ∪ z).
Proof.
  induction nodes as [|node nodes IH]; intros m z; simpl.
  - f_equal. set_solver.
  - unfold zonedNodes. simpl. fold (zonedNodes nodes).
    destruct (nodeUnschedulable node); [apply IH |].
    destruct (nodeZoneLabel node) as [zn|]; simpl; [| apply IH].
    rewrite IH. f_equal. set_solver.
Qed.

Lemma foldl_insert_lookup (l : list (string * string)) :
  forall (m : gmap string string) (n z : string),
  foldl (fun m nz => <[nz.1 := nz.2]> m) m l !! n = Some z ->
  (n, z) ∈ l \/ m !! n = Some z.
Proof.
  induction l as [|[n' z'] l IH]; intros m n z H; simpl in H; [by right |].
  apply IH in H as [H | H]; [left; by right |].
  destruct (decide (n' = n)) as [-> | Hne].
  - rewrite lookup_insert_eq in H. injection H as ->. left. by left.
  - rewrite lookup_insert_ne in H by done. by right.
Qed.

Lemma foldl_insert_dom (l : list (string * string)) :
  forall (m : gmap string string),
  dom (foldl (fun m nz => <[nz.1 := nz.2]> m) m l) = list_to_set l.*1 ∪ dom m.
Proof.
  induction l as [|[n z] l IH]; intros m; simpl; [set_solver |].
  rewrite IH, dom_insert_L. set_solver.
Qed.

Lemma foldl_insert_NoDup (l : list (string * string)) :
  forall (m : gmap string string) (n z : string),
  NoDup l.*1 -> (n, z) ∈ l ->
  foldl (fun m nz => <[nz.1 := nz.2]> m) m l !! n = Some z.
Proof.
  induction l as [|[n' z'] l IH]; intros m n z Hnd Hin; [by apply elem_of_nil in Hin |].
  simpl in Hnd. apply NoDup_cons in Hnd as [Hn' Hnd]. simpl.
  apply elem_of_cons in Hin as [[= -> ->] | Hin]; [| by apply IH].
  destruct (foldl (fun m nz => <[nz.1 := nz.2]> m) (<[n' := z']> m) l !! n')
    as [z|] eqn:E.
  - apply foldl_insert_lookup in E as [E | E].
    + destruct Hn'. apply list_elem_of_fmap. by exists (n', z).
    + by rewrite lookup_insert_eq in E.
  - apply not_elem_of_dom in E. rewrite foldl_insert_dom, dom_insert_L in E.
    set_solver.
Qed.

Lemma zonedNodes_names (nodes : list Node) :
  (zonedNodes nodes).*1 `sublist_of` map nodeName nodes.
Proof.
  induction nodes as [|node nodes IH]; [done |].
  unfold zonedNodes. simpl. fold (zonedNodes nodes).
  destruct (nodeUnschedulable node); [by apply sublist_cons |].
  destruct (nodeZoneLabel node); simpl; [by apply sublist_skip | by apply sublist_cons].
Qed.

Lemma size_list_to_set_le (l : list string) :
  (size (list_to_set l : gset string) <= length l)%nat.
Proof.
  induction l as [|x l IH]; [by rewrite list_to_set_nil, size_empty |].
  rewrite list_to_set_cons. simpl length.
  pose proof (size_union_alt ({[x]} : gset string) (list_to_set l)) as Hu.
  rewrite size_singleton in Hu.
  pose proof (subseteq_size (list_to_set l ∖ {[x]} : gset string) (list_to_set l)
                ltac:(set_solver)).
  lia.
Qed.

End zones.

(** X10. The zone information of a snapshot.  Under the spread policies
    the node-to-zone map holds exactly the names of the listed nodes that
    are schedulable and carry a zone label, each with a zone label of
    such a node of that name; [NumNodes] counts these names and
    [NumZones] the distinct zone labels; when the listed nodes have
    distinct names every such node is mapped to its own label and there
    are at most as many zones as nodes.  Under any other policy type no
    node is read: the map is empty and both counts are 0. *)
Theorem State_zone_information (sb : stateBuilder)
    (reserved reserved' : Reserved) (st : State) :
  stateBuilder_State sb reserved = Ok (reserved', inr st) ->
  (forall nodes,
     isEvenSpread (schedulerPolicy sb) = true ->
     nodeLister sb = inr nodes ->
     dom (NodeToZoneMap st) = list_to_set (zonedNodes nodes).*1 /\
     (forall n z, NodeToZoneMap st !! n = Some z -> (n, z) ∈ zonedNodes nodes) /\
     NumNodes st = int32 (Z.of_nat (size (dom (NodeToZoneMap st)))) /\
     NumZones st
     = int32 (Z.of_nat (size (list_to_set (zonedNodes nodes).*2 : gset string))) /\
     (NoDup (map nodeName nodes) ->
      (forall n z, (n, z) ∈ zonedNodes nodes -> NodeToZoneMap st !! n = Some z) /\
      (size (list_to_set (zonedNodes nodes).*2 : gset string)
       <= size (dom (NodeToZoneMap st)))%nat)) /\
  (isEvenSpread (schedulerPolicy sb) = false ->
   NodeToZoneMap st = ∅ /\ NumNodes st = 0 /\ NumZones st = 0).
Proof.
  intros H.
  destruct (stateBuilder_State_parts _ _ _ _ H)
    as (vpods & a & _ & _ & _ & _ & _ & _ & Hz).
  split.
  - intros nodes Hes Hn. rewrite Hes in Hz.
    destruct Hz as (nodes' & Hn' & Hm & Hnn & Hnz).
    rewrite Hn in Hn'. injection Hn' as <-.
    rewrite nodesLoop_fold in Hm, Hnn, Hnz. simpl in Hm, Hnn, Hnz.
    assert (Hdom : dom (NodeToZoneMap st) = list_to_set (zonedNodes nodes).*1).
    { rewrite Hm, foldl_insert_dom. set_solver. }
    split; [done |]. split; [| split; [| split; [| intros Hnd; split]]].
    + intros n z Hl. rewrite Hm in Hl.
      by apply foldl_insert_lookup in Hl as [Hl | Hl].
    + by rewrite Hnn, size_dom, Hm.
    + rewrite Hnz. do 3 f_equal. set_solver.
    + intros n z Hin. rewrite Hm. apply foldl_insert_NoDup; [| done].
      exact (sublist_NoDup _ _ Hnd (zonedNodes_names nodes)).
    + rewrite Hdom.
      assert (Hnd' : NoDup (zonedNodes nodes).*1)
        by exact (sublist_NoDup _ _ Hnd (zonedNodes_names nodes)).
      rewrite (size_list_to_set (zonedNodes nodes).*1) by done.
      etrans; [apply size_list_to_set_le |]. by rewrite !length_fmap.
  - intros Hes. by rewrite Hes in Hz.
Qed.

Lemma State_zone_information_witness :
  (forall nodes,
     isEvenSpread (schedulerPolicy (stateAccessor Example.schedSpread)) = true ->
     nodeLister (stateAccessor Example.schedSpread) = inr nodes ->
     dom (NodeToZoneMap Example.stateSpread) = list_to_set (zonedNodes nodes).*1 /\
     (forall n z, NodeToZoneMap Example.stateSpread !! n = Some z ->
                  (n, z) ∈ zonedNodes nodes) /\
     NumNodes Example.stateSpread
     = int32 (Z.of_nat (size (dom (NodeToZoneMap Example.stateSpread)))) /\
     NumZones Example.stateSpread
     = int32 (Z.of_nat (size (list_to_set (zonedNodes nodes).*2 : gset string))) /\
     (NoDup (map nodeName nodes) ->
      (forall n z, (n, z) ∈ zonedNodes nodes ->
                   NodeToZoneMap Example.stateSpread !! n = Some z) /\
      (size (list_to_set (zonedNodes nodes).*2 : gset string)
       <= size (dom (NodeToZoneMap Example.stateSpread)))%nat)) /\
  (isEvenSpread (schedulerPolicy (stateAccessor Example.schedSpread)) = false ->
   NodeToZoneMap Example.stateSpread = ∅ /\
   NumNodes Example.stateSpread = 0 /\ NumZones Example.stateSpread = 0).
Proof.
  apply (State_zone_information (stateAccessor Example.schedSpread) [] []
           Example.stateSpread).
  vm_compute. reflexivity.
Defined.

(** ** The snapshot of the committed placements (state.go) *)

Section accounting.
Variable cap : Z.
Hypothesis Hcap : in_int32 cap.

Lemma int32_shift (z : Z) : exists k, int32 z = z + k * 4294967296.
Proof.
  unfold int32, wrap.
  change (2 ^ (32 - 1)) with 2147483648. change (2 ^ 32) with 4294967296.
  exists (- ((z + 2147483648) / 4294967296)).
  pose proof (Z.div_mod (z + 2147483648) 4294967296 ltac:(lia)). lia.
Qed.

Lemma slot_is_capacity (x : Z) :
  0 <= x <= MaxInt32 -> (int32 (cap - x) = cap <-> x = 0).
Proof.
  intros Hx. split.
  - destruct (int32_shift (cap - x)) as [k Hk]. rewrite Hk. intros H.
    unfold MaxInt32 in Hx. lia.
  - intros ->. rewrite Z.sub_0_r. by apply int32_id.
Qed.

Lemma totalOn_app (l1 l2 : list Placement) (o : Z) :
  totalOn (l1 ++ l2) o = totalOn l1 o + totalOn l2 o.
Proof. unfold totalOn. by rewrite filter_app, sumVReplicas_app. Qed.

Lemma totalOn_bounds (l : list Placement) (o : Z) :
  Forall (fun p => 0 <= VReplicas p) l -> 0 <= totalOn l o <= sumVReplicas l.
Proof.
  unfold totalOn. induction 1 as [|p l Hp Hl IH]; [done |].
  rewrite filter_cons. destruct (decide (ordinalOf p = o)); simpl; lia.
Qed.

Lemma totalOn_singleton (p : Placement) (o : Z) :
  totalOn [p] o = if decide (ordinalOf p = o) then VReplicas p else 0.
Proof.
  unfold totalOn. rewrite filter_cons, filter_nil.
  destruct (decide (ordinalOf p = o)); simpl; lia.
Qed.

Lemma updateFreeCapacity_accounted (free : list Z) (last : Z)
    (pre : list Placement) (p : Placement) :
  accounted cap free last pre ->
  validOrdinal (ordinalOf p) ->
  Forall (fun q => 0 <= VReplicas q) pre ->
  0 <= VReplicas p ->
  sumVReplicas pre + VReplicas p <= MaxInt32 ->
  exists free' last',
    updateFreeCapacity cap free last (PodName p) (VReplicas p) = Ok (free', last') /\
    accounted cap free' last' (pre ++ [p]).
Proof.
  intros (Hlen & Hslot & Habove & Hlast) Ho Hpre Hv Hsum.
  pose proof Ho as [Ho1 Ho2]. unfold ordinalOf in Ho, Ho1, Ho2.
  set (o := OrdinalFromPodName (PodName p)) in *.
  pose proof (grow_length free o cap Hlen Ho) as Hgl.
  pose proof (totalOn_bounds pre o Hpre) as Ht.
  unfold updateFreeCapacity. fold o.
  destruct (lookup_lt_is_Some_2 (grow free o cap) (Z.to_nat o)) as [f Hf]; [lia |].
  assert (Hfv : f = int32 (cap - totalOn pre o)).
  { rewrite <- Hslot by done. rewrite <- (grow_lookup free o cap) by done.
    by rewrite Hf. }
  unfold index, store. destruct (Z.ltb_spec o 0); [lia |].
  rewrite Hf. simpl.
  destruct (Nat.ltb_spec (Z.to_nat o) (length (grow free o cap))); [| lia].
  simpl. rewrite list_lookup_insert_eq by done. simpl.
  eexists _, _. split; [reflexivity |].
  assert (Hnew : sub32 f (VReplicas p) = int32 (cap - totalOn (pre ++ [p]) o)).
  { rewrite totalOn_app, totalOn_singleton. unfold ordinalOf. fold o.
    destruct (decide (o = o)); [| done]. rewrite Hfv. unfold sub32.
    replace (int32 (cap - totalOn pre o) - VReplicas p)
      with (int32 (cap - totalOn pre o) + - VReplicas p) by lia.
    rewrite int32_add_l. f_equal. lia. }
  assert (Hother : forall o', o' <> o ->
                     totalOn (pre ++ [p]) o' = totalOn pre o').
  { intros o' Hne. rewrite totalOn_app, totalOn_singleton. unfold ordinalOf.
    fold o. destruct (decide (o = o')); [congruence | lia]. }
  assert (Hhere : totalOn (pre ++ [p]) o = totalOn pre o + VReplicas p).
  { rewrite totalOn_app, totalOn_singleton. unfold ordinalOf. fold o.
    by destruct (decide (o = o)). }
  split; [| split; [| split]].
  - rewrite length_insert. unfold MaxInt32 in *. lia.
  - intros o' Ho'. destruct (decide (o' = o)) as [-> | Hne].
    + rewrite list_lookup_insert_eq by done. simpl. exact Hnew.
    + rewrite list_lookup_insert_ne by lia.
      rewrite grow_lookup by done. rewrite Hother by done. by apply Hslot.
  - intros o' Hlt. rewrite Hnew in Hlt.
    destruct (Z.ltb_spec last o); simpl in Hlt.
    + destruct (Z.eqb_spec (int32 (cap - totalOn (pre ++ [p]) o)) cap) as [E | E];
        simpl in Hlt.
      * apply slot_is_capacity in E; [| lia].
        destruct (decide (o' = o)) as [-> | Hne]; [done |].
        rewrite Hother by done. by apply Habove.
      * rewrite Hother by lia. apply Habove. lia.
    + rewrite Hother by lia. by apply Habove.
  - rewrite Hnew.
    destruct (Z.ltb_spec last o); simpl.
    + destruct (Z.eqb_spec (int32 (cap - totalOn (pre ++ [p]) o)) cap) as [E | E];
        simpl.
      * destruct Hlast as [-> | Hpos]; [by left |]. right.
        rewrite Hother by lia. done.
      * right. rewrite slot_is_capacity in E by lia. lia.
    + destruct Hlast as [-> | Hpos]; [by left |]. right.
      destruct (decide (last = o)) as [-> | Hne]; [lia |].
      by rewrite Hother.
Qed.

Lemma placementsLoop_accounted (key : Key) (ps : list Placement) :
  forall (a : acc) (pre : list Placement),
  aReserved a = [] ->
  accounted cap (aFree a) (aLast a) pre ->
  Forall (fun p => validOrdinal (ordinalOf p)) ps ->
  Forall (fun q => 0 <= VReplicas q) (pre ++ ps) ->
  sumVReplicas (pre ++ ps) <= MaxInt32 ->
  exists a',
    placementsLoop cap key a ps = Ok a' /\
    aReserved a' = [] /\
    accounted cap (aFree a') (aLast a') (pre ++ ps).
Proof.
  induction ps as [|p ps IH]; intros a pre Hr Hacc Hvalid Hnn Hsum.
  - exists a. by rewrite app_nil_r.
  - apply Forall_cons in Hvalid as [Hp Hvalid].
    pose proof Hnn as Hnn'. rewrite Forall_app in Hnn'.
    destruct Hnn' as [Hpre Hps]. apply Forall_cons in Hps as [Hv Hps].
    rewrite sumVReplicas_app in Hsum. simpl in Hsum.
    pose proof (sumVReplicas_nonneg ps Hps) as Hpsnn.
    destruct (updateFreeCapacity_accounted (aFree a) (aLast a) pre p
                Hacc Hp Hpre Hv ltac:(lia)) as (free' & last' & Hu & Hacc').
    simpl. unfold placementStep. rewrite Hr. simpl. rewrite Hu. simpl.
    replace (pre ++ p :: ps) with ((pre ++ [p]) ++ ps)
      by by rewrite <- app_assoc.
    apply IH; simpl; try done.
    + by rewrite <- app_assoc.
    + rewrite <- app_assoc, sumVReplicas_app. simpl. lia.
Qed.

Lemma vpodsLoop_accounted (vpods : list VPod) :
  forall (a : acc) (pre : list Placement),
  aReserved a = [] ->
  accounted cap (aFree a) (aLast a) pre ->
  Forall (fun p => validOrdinal (ordinalOf p)) (listedPlacements vpods) ->
  Forall (fun q => 0 <= VReplicas q) (pre ++ listedPlacements vpods) ->
  sumVReplicas (pre ++ listedPlacements vpods) <= MaxInt32 ->
  exists a',
    vpodsLoop cap a vpods = Ok a' /\
    aReserved a' = [] /\
    accounted cap (aFree a') (aLast a') (pre ++ listedPlacements vpods).
Proof.
  induction vpods as [|vpod vpods IH]; intros a pre Hr Hacc Hvalid Hnn Hsum.
  - exists a. unfold listedPlacements. simpl. by rewrite app_nil_r.
  - unfold listedPlacements in *. simpl in *.
    fold (listedPlacements vpods) in *.
    apply Forall_app in Hvalid as [Hv1 Hv2].
    rewrite app_assoc in Hnn, Hsum.
    pose proof Hnn as Hnn'. apply Forall_app in Hnn' as [Hnn1 Hnn2].
    rewrite sumVReplicas_app in Hsum.
    pose proof (sumVReplicas_nonneg _ Hnn2) as Hrest.
    unfold vpodStep.
    destruct (placementsLoop_accounted (GetKey vpod) (elems (GetPlacements vpod))
                {| aFree := aFree a; aLast := aLast a;
                   aWithPlacement := <[GetKey vpod := ∅]> (aWithPlacement a);
                   aReserved := aReserved a |} pre Hr Hacc Hv1 Hnn1 ltac:(lia))
      as (a1 & H1 & Hr1 & Hacc1).
    rewrite H1. simpl. rewrite app_assoc.
    apply IH; try done. rewrite sumVReplicas_app. lia.
Qed.

End accounting.

(** X11. The snapshot of committed placements.  With an empty reservation
    table, pod names of addressable ordinals, non-negative counts of
    int32 total and an int32 capacity, the state build does not panic and
    leaves the table empty; it fails only with the error of the node
    lister; and in the snapshot the free capacity that [Free] reads at
    every ordinal is the capacity less the vreplicas that the listed
    vpods hold there (as an int32), and the last ordinal is the largest
    ordinal that holds vreplicas, or -1 when none does. *)
Theorem State_without_reservations (sb : stateBuilder) (vpods : list VPod) :
  vpodLister sb = inr vpods ->
  in_int32 (capacity sb) ->
  Forall (fun p => validOrdinal (ordinalOf p)) (listedPlacements vpods) ->
  wellFormedTotals (listedPlacements vpods) ->
  exists res,
    stateBuilder_State sb [] = Ok ([], res) /\
    (forall e, res = inl e ->
       isEvenSpread (schedulerPolicy sb) = true /\ nodeLister sb = inl e) /\
    (forall st, res = inr st ->
       stateOK st /\
       (forall o, 0 <= o ->
          Free st o
          = Ok (int32 (capacity sb - totalOn (listedPlacements vpods) o))) /\
       (forall o, LastOrdinal st < o -> totalOn (listedPlacements vpods) o = 0) /\
       (LastOrdinal st = -1
        \/ 0 < totalOn (listedPlacements vpods) (LastOrdinal st))).
Proof.
  intros Hl Hcap Hvalid [Hnn Hsum].
  destruct (vpodsLoop_accounted (capacity sb) Hcap vpods
              {| aFree := []; aLast := -1; aWithPlacement := ∅; aReserved := [] |}
              []) as (a & Ha & Hr & Hacc); simpl; try done.
  { unfold accounted. simpl. split; [unfold MaxInt32; lia |].
    split; [| split; [done | by left]].
    intros o _. unfold totalOn. simpl.
    rewrite Z.sub_0_r. symmetry. by apply int32_id. }
  simpl in Hacc.
  assert (Hsnap : forall st,
            FreeCap st = aFree a -> LastOrdinal st = aLast a ->
            Capacity st = capacity sb ->
            stateOK st /\
            (forall o, 0 <= o ->
               Free st o
               = Ok (int32 (capacity sb - totalOn (listedPlacements vpods) o))) /\
            (forall o, LastOrdinal st < o ->
               totalOn (listedPlacements vpods) o = 0) /\
            (LastOrdinal st = -1
             \/ 0 < totalOn (listedPlacements vpods) (LastOrdinal st))).
  { intros st Hf Hlo Hc. destruct Hacc as (Hlen & Hslot & Habove & Hlast).
    assert (Hok : stateOK st) by (unfold stateOK; by rewrite Hf).
    split; [done |]. split; [| split].
    - intros o Ho. rewrite Free_freeAt by done. f_equal.
      unfold freeAt. rewrite Hf, Hc. by apply Hslot.
    - by rewrite Hlo.
    - by rewrite Hlo. }
  unfold stateBuilder_State. rewrite Hl, Ha. simpl. rewrite Hr. simpl.
  destruct (isEvenSpread (schedulerPolicy sb)) eqn:Hes.
  - destruct (nodeLister sb) as [e|nodes] eqn:Hn.
    + eexists. split; [reflexivity |]. split; [by intros e' [= <-] | done].
    + destruct (nodesLoop nodes ∅ ∅) as [m z].
      eexists. split; [reflexivity |]. split; [done |].
      intros st [= <-]. by apply Hsnap.
  - eexists. split; [reflexivity |]. split; [done |].
    intros st [= <-]. by apply Hsnap.
Qed.

Lemma State_without_reservations_witness :
  exists res,
    stateBuilder_State Example.builderStale [] = Ok ([], res) /\
    (forall e, res = inl e ->
       isEvenSpread (schedulerPolicy Example.builderStale) = true /\
       nodeLister Example.builderStale = inl e) /\
    (forall st, res = inr st ->
       stateOK st /\
       (forall o, 0 <= o ->
          Free st o
          = Ok (int32 (capacity Example.builderStale
                       - totalOn (listedPlacements [Example.vpodStale]) o))) /\
       (forall o, LastOrdinal st < o ->
          totalOn (listedPlacements [Example.vpodStale]) o = 0) /\
       (LastOrdinal st = -1
        \/ 0 < totalOn (listedPlacements [Example.vpodStale]) (LastOrdinal st))).
Proof.
  apply (State_without_reservations Example.builderStale [Example.vpodStale]).
  - reflexivity.
  - unfold in_int32, MinInt32, MaxInt32. simpl. lia.
  - unfold listedPlacements. simpl.
    repeat (apply Forall_cons; split; [vm_compute; split; congruence |]).
    constructor.
  - unfold listedPlacements. simpl. split; [| vm_compute; congruence].
    repeat (apply Forall_cons; split; [simpl; lia |]). constructor.
Defined.

(** ** Statuses (interface.go) *)

Section statuses.

Lemma Merge_fold (p : list (string * option Status)) :
  forall final : Status,
  let merged :=
    fold_left
      (fun final '(_, s) =>
         {| code := if codeRank (code final) <? codeRank (StatusCode s)
                    then StatusCode s else code final;
            reasons := reasons final ++
                       match s with Some s => reasons s | None => [] end;
            err := match s with
                   | Some s' => if bool_decide (code s' = Error)
                                then AsError s' else err final
                   | None => err final
                   end |})
      p final in
  (code merged = Success <->
   code final = Success /\ Forall (fun e => StatusCode e.2 = Success) p) /\
  (code merged = Error <->
   code final = Error \/ Exists (fun e => StatusCode e.2 = Error) p) /\
  reasons merged = reasons final ++ concat (map (fun e => reasonsOf e.2) p).
Proof.
  induction p as [|[name s] p IH]; intros final; simpl.
  - split; [| split].
    + split; [by intros -> | by intros [-> _]].
    + split; [by left | intros [H | H]; [done | by apply Exists_nil in H]].
    + by rewrite app_nil_r.
  - match goal with |- context [fold_left _ p ?f] => specialize (IH f) end.
    simpl in IH. destruct IH as (IH1 & IH2 & IH3).
    split; [| split].
    + rewrite IH1, Forall_cons. simpl.
      destruct (code final), (StatusCode s); simpl; intuition congruence.
    + rewrite IH2, Exists_cons. simpl.
      destruct (code final), (StatusCode s); simpl; intuition congruence.
    + rewrite IH3. simpl. by rewrite <- app_assoc.
Qed.

End statuses.

(** X12. [Merge] follows the precedence Error, Unschedulable, Success.
    On a map without nil statuses: the merged status is a success (nil
    for the empty map) exactly when every status is one; its code is
    Error exactly when some status has code Error; and its reasons are
    the reasons of all the statuses, in the order of iteration. *)
Theorem Merge_precedence (p : list (string * option Status)) :
  Forall (fun e => is_Some e.2) p ->
  (p = [] <-> Merge p = None) /\
  (IsSuccess (Merge p) = true <-> Forall (fun e => StatusCode e.2 = Success) p) /\
  (StatusCode (Merge p) = Error <-> Exists (fun e => StatusCode e.2 = Error) p) /\
  reasonsOf (Merge p) = concat (map (fun e => reasonsOf e.2) p).
Proof.
  intros _. destruct p as [|e p].
  - simpl. split; [done |]. split; [| split; [| done]].
    + split; [constructor | done].
    + split; [done | by intros H; apply Exists_nil in H].
  - pose proof (Merge_fold (e :: p) (NewStatus Success [])) as H.
    simpl in H. destruct H as (H1 & H2 & H3).
    unfold Merge, IsSuccess, StatusCode.
    split; [done |]. split; [| split].
    + rewrite bool_decide_eq_true. rewrite H1. intuition.
    + rewrite H2. intuition congruence.
    + exact H3.
Qed.

Lemma Merge_precedence_witness :
  ([("PodFitsResources",
     Some (NewStatus Unschedulable ["pod at full capacity"]))] = []
   <-> Merge [("PodFitsResources",
               Some (NewStatus Unschedulable ["pod at full capacity"]))] = None) /\
  (IsSuccess (Merge [("PodFitsResources",
                      Some (NewStatus Unschedulable ["pod at full capacity"]))])
   = true
   <-> Forall (fun e => StatusCode e.2 = Success)
         [("PodFitsResources",
           Some (NewStatus Unschedulable ["pod at full capacity"]))]) /\
  (StatusCode (Merge [("PodFitsResources",
                       Some (NewStatus Unschedulable ["pod at full capacity"]))])
   = Error
   <-> Exists (fun e => StatusCode e.2 = Error)
         [("PodFitsResources",
           Some (NewStatus Unschedulable ["pod at full capacity"]))]) /\
  reasonsOf (Merge [("PodFitsResources",
                     Some (NewStatus Unschedulable ["pod at full capacity"]))])
  = concat (map (fun e => reasonsOf e.2)
              [("PodFitsResources",
                Some (NewStatus Unschedulable ["pod at full capacity"]))]).
Proof.
  apply (Merge_precedence
           [("PodFitsResources",
             Some (NewStatus Unschedulable ["pod at full capacity"]))]).
  repeat constructor. by eexists.
Defined.

(** X13. Statuses and errors.  [AsError] is nil exactly for a success;
    for a status made by [NewStatus] with another code the error text is
    the message of the status, its reasons joined by ", "; and
    [AsStatus] followed by [AsError] gives the wrapped error back, as a
    status of code Error whose message is the text of the error. *)
Theorem Status_error_round_trip (c : Code) (rs : list string) (e : string) :
  (forall s : Status, AsError s = None <-> IsSuccess (Some s) = true) /\
  (c <> Success ->
   AsError (NewStatus c rs) = Some (Message (Some (NewStatus c rs)))) /\
  AsError (AsStatus e) = Some e /\
  StatusCode (Some (AsStatus e)) = Error /\
  Message (Some (AsStatus e)) = e.
Proof.
  split; [| split; [| split; [| split]]].
  - intros s. unfold AsError. destruct (IsSuccess (Some s)); [done |].
    by destruct (err s).
  - intros Hc. unfold AsError, IsSuccess, StatusCode, NewStatus. simpl.
    destruct c; simpl; done.
  - reflexivity.
  - reflexivity.
  - unfold Message, AsStatus. simpl. by destruct e.
Qed.

Lemma Status_error_round_trip_witness :
  (forall s : Status, AsError s = None <-> IsSuccess (Some s) = true) /\
  AsError (NewStatus Unschedulable ["a"; "b"])
  = Some (Message (Some (NewStatus Unschedulable ["a"; "b"]))) /\
  AsError (AsStatus "boom") = Some "boom" /\
  StatusCode (Some (AsStatus "boom")) = Error /\
  Message (Some (AsStatus "boom")) = "boom".
Proof.
  destruct (Status_error_round_trip Unschedulable ["a"; "b"] "boom")
    as (H1 & H2 & H3).
  split; [exact H1 |]. split; [by apply H2 | exact H3].
Defined.

(** ** The plugins and the plugin runners *)

Section int64_facts.

Lemma int64_id (z : Z) :
  -9223372036854775808 <= z <= 9223372036854775807 -> int64 z = z.
Proof.
  unfold int64, wrap. intros H.
  change (2 ^ (64 - 1)) with 9223372036854775808.
  change (2 ^ 64) with 18446744073709551616.
  rewrite Z.mod_small by lia. lia.
Qed.

End int64_facts.

(** X14. [LowestOrdinalPriority.Score] never returns a negative score.
    When [(LastOrdinal + 2) * 100] is an int32, a pod whose ordinal is at
    most that bound scores the bound less its ordinal, with a success
    status, so that of two such pods the one of lower ordinal scores
    strictly higher; a pod beyond the bound scores 0 with the Error
    status "computed score is negative". *)
Theorem LowestOrdinalPriority_Score_spec (states : State) (podID podID' : Z) :
  (exists score status,
     LowestOrdinalPriority.Score states podID = Ok (score, status) /\ 0 <= score) /\
  (-1 <= LastOrdinal states ->
   (LastOrdinal states + 2) * 100 <= MaxInt32 ->
   0 <= podID <= MaxInt32 ->
   (podID <= (LastOrdinal states + 2) * 100 ->
    LowestOrdinalPriority.Score states podID
    = Ok ((LastOrdinal states + 2) * 100 - podID, Some (NewStatus Success []))) /\
   ((LastOrdinal states + 2) * 100 < podID ->
    LowestOrdinalPriority.Score states podID
    = Ok (0, Some (NewStatus Error ["computed score is negative"]))) /\
   (podID < podID' <= (LastOrdinal states + 2) * 100 ->
    exists score score',
      LowestOrdinalPriority.Score states podID
      = Ok (score, Some (NewStatus Success [])) /\
      LowestOrdinalPriority.Score states podID'
      = Ok (score', Some (NewStatus Success [])) /\
      score' < score)).
Proof.
  split.
  - unfold LowestOrdinalPriority.Score.
    destruct (Z.ltb_spec
                (int64 (sub32 (mul32 (add32 (LastOrdinal states) 2) 100) podID)) 0);
      eexists _, _; (split; [reflexivity | lia]).
  - intros Hlast Htop Hpod.
    assert (Hscore : forall p, 0 <= p <= MaxInt32 ->
              int64 (sub32 (mul32 (add32 (LastOrdinal states) 2) 100) p)
              = (LastOrdinal states + 2) * 100 - p).
    { intros p Hp. unfold MaxInt32 in *.
      rewrite add32_id by (unfold in_int32, MinInt32, MaxInt32; lia).
      unfold mul32. rewrite int32_id by (unfold in_int32, MinInt32, MaxInt32; lia).
      rewrite sub32_id by (unfold in_int32, MinInt32, MaxInt32; lia).
      apply int64_id. lia. }
    unfold LowestOrdinalPriority.Score. split; [| split].
    + intros Hle. rewrite Hscore by done.
      destruct (Z.ltb_spec ((LastOrdinal states + 2) * 100 - podID) 0); [lia | done].
    + intros Hgt. rewrite Hscore by done.
      destruct (Z.ltb_spec ((LastOrdinal states + 2) * 100 - podID) 0); [done | lia].
    + intros Hlt. rewrite !Hscore by lia.
      destruct (Z.ltb_spec ((LastOrdinal states + 2) * 100 - podID) 0); [lia |].
      destruct (Z.ltb_spec ((LastOrdinal states + 2) * 100 - podID') 0); [lia |].
      eexists _, _. split; [reflexivity |]. split; [reflexivity | lia].
Qed.

Lemma LowestOrdinalPriority_Score_spec_witness :
  LowestOrdinalPriority.Score (mkState [] 0 10 0 0 "" ∅) 1
  = Ok ((0 + 2) * 100 - 1, Some (NewStatus Success [])) /\
  LowestOrdinalPriority.Score (mkState [] 2 10 0 0 "" ∅) 1000
  = Ok (0, Some (NewStatus Error ["computed score is negative"])) /\
  exists score score',
    LowestOrdinalPriority.Score (mkState [] 0 10 0 0 "" ∅) 1
    = Ok (score, Some (NewStatus Success [])) /\
    LowestOrdinalPriority.Score (mkState [] 0 10 0 0 "" ∅) 2
    = Ok (score', Some (NewStatus Success [])) /\
    score' < score.
Proof.
  pose proof (proj2 (LowestOrdinalPriority_Score_spec
                       (mkState [] 0 10 0 0 "" ∅) 1 2)) as H.
  pose proof (proj2 (LowestOrdinalPriority_Score_spec
                       (mkState [] 2 10 0 0 "" ∅) 1000 0)) as H'.
  simpl in H, H'. unfold MaxInt32 in H, H'.
  destruct (H ltac:(lia) ltac:(lia) ltac:(lia)) as (H1 & _ & H3).
  destruct (H' ltac:(lia) ltac:(lia) ltac:(lia)) as (_ & H2 & _).
  split; [apply H1; lia |]. split; [apply H2; lia | apply H3; lia].
Defined.

Section selection.

Lemma selectPod_loop_max (rnd : nat -> Z -> Z) (l : list PodScore) :
  forall (seen : list PodScore) (pos : nat) (best : PodScore) (cnt : Z),
  best ∈ seen ->
  (forall q, q ∈ seen -> Score q <= Score best) ->
  exists ps,
    selectPod_loop rnd pos (Score best) (ID best) cnt l = ID ps /\
    ps ∈ seen ++ l /\
    forall q, q ∈ seen ++ l -> Score q <= Score ps.
Proof.
  induction l as [|x l IH]; intros seen pos best cnt Hin Hmax.
  - exists best. simpl. rewrite app_nil_r. done.
  - simpl.
    replace (seen ++ x :: l) with ((seen ++ [x]) ++ l) by by rewrite <- app_assoc.
    destruct (Z.ltb_spec (Score best) (Score x)).
    + apply (IH (seen ++ [x]) (S pos) x 1).
      * apply elem_of_app. right. by left.
      * intros q Hq. apply elem_of_app in Hq as [Hq | Hq].
        -- specialize (Hmax q Hq). lia.
        -- apply list_elem_of_singleton in Hq as ->. lia.
    + destruct (Z.eqb_spec (Score x) (Score best)) as [Heq | Hne].
      * destruct (rnd pos (cnt + 1) =? 0).
        -- rewrite <- Heq. apply (IH (seen ++ [x]) (S pos) x (cnt + 1)).
           ++ apply elem_of_app. right. by left.
           ++ intros q Hq. apply elem_of_app in Hq as [Hq | Hq].
              ** specialize (Hmax q Hq). lia.
              ** apply list_elem_of_singleton in Hq as ->. lia.
        -- apply (IH (seen ++ [x]) (S pos) best (cnt + 1)).
           ++ apply elem_of_app. by left.
           ++ intros q Hq. apply elem_of_app in Hq as [Hq | Hq].
              ** by apply Hmax.
              ** apply list_elem_of_singleton in Hq as ->. lia.
      * apply (IH (seen ++ [x]) (S pos) best cnt).
        -- apply elem_of_app. by left.
        -- intros q Hq. apply elem_of_app in Hq as [Hq | Hq].
           ++ by apply Hmax.
           ++ apply list_elem_of_singleton in Hq as ->. lia.
Qed.

End selection.

(** X15. [selectPod] fails on the empty list and otherwise picks a pod
    of maximal score, whatever the random source answers: the ordinal it
    returns is that of an entry of the list whose score no other entry
    exceeds. *)
Theorem selectPod_picks_a_maximum (rnd : nat -> Z -> Z) (l : list PodScore) :
  (l = [] <-> selectPod rnd l = None) /\
  (forall podID,
     selectPod rnd l = Some podID ->
     exists ps, ID ps = podID /\ ps ∈ l /\ forall q, q ∈ l -> Score q <= Score ps).
Proof.
  destruct l as [|first rest]; [done |].
  split; [done |]. intros podID [= <-].
  destruct (selectPod_loop_max rnd rest [first] 1%nat first 1)
    as (ps & Hps & Hin & Hmax).
  - by left.
  - intros q Hq. apply list_elem_of_singleton in Hq as ->. lia.
  - exists ps. by rewrite Hps.
Qed.

Lemma selectPod_picks_a_maximum_witness :
  exists ps,
    ID ps = 4 /\
    ps ∈ [mkPodScore 3 7; mkPodScore 4 9; mkPodScore 5 8] /\
    forall q, q ∈ [mkPodScore 3 7; mkPodScore 4 9; mkPodScore 5 8] ->
              Score q <= Score ps.
Proof.
  apply (proj2 (selectPod_picks_a_maximum (fun _ _ => 0)
                  [mkPodScore 3 7; mkPodScore 4 9; mkPodScore 5 8]) 4).
  reflexivity.
Defined.

Section filter_runner.
Variables (rt : Runtime) (states : State) (podID : Z).

Lemma RunFilterPlugins_loop_spec (predicates : list PredicatePolicy)
    (m : list (string * option Status)) :
  RunFilterPlugins_loop rt states podID predicates = Ok m ->
  (m = [] /\
   forall pp pl,
     pp ∈ predicates -> GetFilterPlugin rt (predicateName pp) = Some pl ->
     exists st, Filter pl states podID = Ok st /\ IsSuccess st = true) \/
  (exists before pp after pl st st',
     predicates = before ++ pp :: after /\
     GetFilterPlugin rt (predicateName pp) = Some pl /\
     Filter pl states podID = Ok st /\
     IsSuccess st = false /\
     (forall pp' pl',
        pp' ∈ before -> GetFilterPlugin rt (predicateName pp') = Some pl' ->
        exists st0, Filter pl' states podID = Ok st0 /\ IsSuccess st0 = true) /\
     m = [(fpName pl, Some st')] /\
     code st' = (if IsUnschedulable st then Unschedulable else Error)).
Proof.
  revert m. induction predicates as [|pp predicates IH]; intros m H; simpl in H.
  - injection H as <-. left. split; [done |].
    intros pp pl Hin. by apply elem_of_nil in Hin.
  - destruct (GetFilterPlugin rt (predicateName pp)) as [pl|] eqn:Eg.
    + destruct (Filter pl states podID) as [st|] eqn:Ef; [| discriminate].
      simpl in H. destruct (IsSuccess st) eqn:Es; simpl in H.
      * destruct (IH m H) as [[-> Hall] | Hfail].
        -- left. split; [done |]. intros pp' pl' Hin Hg.
           apply elem_of_cons in Hin as [-> | Hin]; [| by eapply Hall].
           rewrite Eg in Hg. injection Hg as <-. by exists st.
        -- right.
           destruct Hfail as (before & pp1 & after & pl1 & st1 & st1' & -> & Hg1
                              & Hf1 & Hs1 & Hb & -> & Hc).
           exists (pp :: before), pp1, after, pl1, st1, st1'.
           do 4 (split; [done |]). split; [| done].
           intros pp' pl' Hin Hg.
           apply elem_of_cons in Hin as [-> | Hin]; [| by eapply Hb].
           rewrite Eg in Hg. injection Hg as <-. by exists st.
      * right. destruct (IsUnschedulable st) eqn:Eu; simpl in H;
          injection H as <-.
        -- destruct st as [st0|]; [| done].
           exists [], pp, predicates, pl, (Some st0), st0.
           do 4 (split; [done |]). split.
           ++ intros pp' pl' Hin. by apply elem_of_nil in Hin.
           ++ split; [done |]. rewrite Eu.
              unfold IsUnschedulable in Eu. by apply bool_decide_eq_true in Eu.
        -- eexists [], pp, predicates, pl, st, _.
           do 4 (split; [done |]). split.
           ++ intros pp' pl' Hin. by apply elem_of_nil in Hin.
           ++ split; [reflexivity |]. by rewrite Eu.
    + destruct (IH m H) as [[-> Hall] | Hfail].
      * left. split; [done |]. intros pp' pl' Hin Hg.
        apply elem_of_cons in Hin as [-> | Hin]; [congruence | by eapply Hall].
      * right.
        destruct Hfail as (before & pp1 & after & pl1 & st1 & st1' & -> & Hg1
                           & Hf1 & Hs1 & Hb & -> & Hc).
        exists (pp :: before), pp1, after, pl1, st1, st1'.
        do 4 (split; [done |]). split; [| done].
        intros pp' pl' Hin Hg.
        apply elem_of_cons in Hin as [-> | Hin]; [congruence | by eapply Hb].
Qed.

End filter_runner.

(** X16. [RunFilterPlugins] stops at the first plugin that does not
    return a success.  Its map is empty when every registered plugin of
    the policy passes the pod (names that the registry does not know are
    skipped); otherwise it holds one entry, under the name of the first
    failing plugin, of code Unschedulable if that plugin said so and
    Error for any other status, and no later plugin is consulted.  So
    the merged status is a success exactly when the map is empty. *)
Theorem RunFilterPlugins_stops_at_first_failure (rt : Runtime) (pol : Policy)
    (states : State) (podID : Z) (m : list (string * option Status)) :
  RunFilterPlugins rt pol states podID = Ok m ->
  ((m = [] /\
    forall pp pl,
      pp ∈ Predicates pol -> GetFilterPlugin rt (predicateName pp) = Some pl ->
      exists st, Filter pl states podID = Ok st /\ IsSuccess st = true) \/
   (exists before pp after pl st st',
      Predicates pol = before ++ pp :: after /\
      GetFilterPlugin rt (predicateName pp) = Some pl /\
      Filter pl states podID = Ok st /\
      IsSuccess st = false /\
      (forall pp' pl',
         pp' ∈ before -> GetFilterPlugin rt (predicateName pp') = Some pl' ->
         exists st0, Filter pl' states podID = Ok st0 /\ IsSuccess st0 = true) /\
      m = [(fpName pl, Some st')] /\
      code st' = (if IsUnschedulable st then Unschedulable else Error))) /\
  (IsSuccess (Merge m) = true <-> m = []).
Proof.
  intros H. unfold RunFilterPlugins in H.
  pose proof (RunFilterPlugins_loop_spec rt states podID _ _ H) as Hspec.
  split; [exact Hspec |].
  destruct Hspec as [[-> _] | (before & pp & after & pl & st & st' & _ & _ & _
                               & _ & _ & -> & Hc)].
  - done.
  - split; [| done]. unfold Merge, IsSuccess. simpl.
    rewrite Hc. by destruct (IsUnschedulable st).
Qed.

Lemma RunFilterPlugins_stops_at_first_failure_witness :
  (([("PodFitsResources", Some (NewStatus Unschedulable ["pod at full capacity"]))]
    = [] /\
    forall pp pl,
      pp ∈ Predicates Example.lowestPolicy ->
      GetFilterPlugin Example.rtBuiltin (predicateName pp) = Some pl ->
      exists st, Filter pl (mkState [0; 3] 1 10 0 0 "" ∅) 0 = Ok st /\
                 IsSuccess st = true) \/
   (exists before pp after pl st st',
      Predicates Example.lowestPolicy = before ++ pp :: after /\
      GetFilterPlugin Example.rtBuiltin (predicateName pp) = Some pl /\
      Filter pl (mkState [0; 3] 1 10 0 0 "" ∅) 0 = Ok st /\
      IsSuccess st = false /\
      (forall pp' pl',
         pp' ∈ before ->
         GetFilterPlugin Example.rtBuiltin (predicateName pp') = Some pl' ->
         exists st0, Filter pl' (mkState [0; 3] 1 10 0 0 "" ∅) 0 = Ok st0 /\
                     IsSuccess st0 = true) /\
      [("PodFitsResources", Some (NewStatus Unschedulable ["pod at full capacity"]))]
      = [(fpName pl, Some st')] /\
      code st' = (if IsUnschedulable st then Unschedulable else Error))) /\
  (IsSuccess
     (Merge [("PodFitsResources",
              Some (NewStatus Unschedulable ["pod at full capacity"]))]) = true
   <-> [("PodFitsResources", Some (NewStatus Unschedulable ["pod at full capacity"]))]
       = []).
Proof.
  apply (RunFilterPlugins_stops_at_first_failure Example.rtBuiltin
           Example.lowestPolicy (mkState [0; 3] 1 10 0 0 "" ∅) 0).
  reflexivity.
Defined.

Section feasible_pods.
Variables (rt : Runtime) (pol : Policy) (state : State).

Lemma findFeasiblePods_loop_filter (Q : Z -> bool) (podIds : list Z) :
  forall feasiblePods,
  (forall o, o ∈ podIds ->
     exists m, RunFilterPlugins rt pol state o = Ok m /\
               IsSuccess (Merge m) = Q o) ->
  findFeasiblePods_loop rt pol state feasiblePods podIds
  = Ok (feasiblePods ++ filter (fun o => Q o = true) podIds).
Proof.
  induction podIds as [|o podIds IH]; intros feasible Hall; simpl.
  - by rewrite app_nil_r.
  - destruct (Hall o ltac:(by left)) as (m & -> & Hm). simpl. rewrite Hm.
    rewrite filter_cons.
    destruct (Q o) eqn:EQ.
    + rewrite decide_True by done. rewrite IH.
      * by rewrite <- app_assoc.
      * intros o' Hin. apply Hall. by right.
    + rewrite decide_False by done. apply IH.
      intros o' Hin. apply Hall. by right.
Qed.

Lemma filter_all (Q : Z -> bool) (l : list Z) :
  (forall o, Q o = true) -> filter (fun o => Q o = true) l = l.
Proof.
  intros HQ. induction l as [|o l IH]; [done |].
  rewrite filter_cons, decide_True by done. by rewrite IH.
Qed.

Lemma findFeasiblePods_loop_sublist (podIds : list Z) :
  forall feasiblePods result,
  findFeasiblePods_loop rt pol state feasiblePods podIds = Ok result ->
  exists added, result = feasiblePods ++ added /\ added `sublist_of` podIds.
Proof.
  induction podIds as [|o podIds IH]; intros feasible result H; simpl in H.
  - injection H as <-. exists []. by rewrite app_nil_r.
  - destruct (RunFilterPlugins rt pol state o) as [m|]; [| discriminate].
    simpl in H. destruct (IsSuccess (Merge m)).
    + destruct (IH _ _ H) as (added & -> & Hsub).
      exists (o :: added). rewrite <- app_assoc. split; [done |].
      by apply sublist_skip.
    + destruct (IH _ _ H) as (added & -> & Hsub).
      exists added. split; [done |]. by apply sublist_cons.
Qed.

Lemma PodFitsResources_Filter_podFits (o : Z) :
  stateOK state -> 0 <= o ->
  PodFitsResources.Filter state o
  = Ok (Some (if podFits state o then NewStatus Success []
              else NewStatus Unschedulable [PodFitsResources.ErrReasonUnschedulable])).
Proof.
  intros Hok Ho. unfold PodFitsResources.Filter, podFits.
  destruct (length (FreeCap state) =? 0)%nat; [done |]. simpl.
  rewrite Free_freeAt by done. simpl.
  by destruct (0 <? freeAt state o).
Qed.

Lemma RunFilterPlugins_loop_builtin (o : Z) (predicates : list PredicatePolicy) :
  stateOK state -> 0 <= o ->
  (forall pp pl,
     pp ∈ predicates -> GetFilterPlugin rt (predicateName pp) = Some pl ->
     pl ∈ builtinFilters) ->
  exists m,
    RunFilterPlugins_loop rt state o predicates = Ok m /\
    IsSuccess (Merge m)
    = (podFits state o
       || negb (existsb
                  (fun pp => match GetFilterPlugin rt (predicateName pp) with
                             | Some pl => bool_decide
                                            (fpName pl = PodFitsResources.Name)
                             | None => false
                             end)
                  predicates)).
Proof.
  intros Hok Ho. induction predicates as [|pp predicates IH]; intros Hreg.
  - simpl. exists []. split; [done |]. by rewrite orb_true_r.
  - destruct IH as (m & Hm & Hs).
    { intros pp' pl' Hin. apply Hreg. by right. }
    simpl. destruct (GetFilterPlugin rt (predicateName pp)) as [pl|] eqn:Eg.
    + pose proof (Hreg pp pl ltac:(by left) Eg) as Hin.
      unfold builtinFilters in Hin.
      apply elem_of_cons in Hin as [-> | Hin];
        [| apply elem_of_cons in Hin as [-> | Hin];
           [| apply list_elem_of_singleton in Hin as ->]].
      * simpl. rewrite PodFitsResources_Filter_podFits by done. simpl.
        rewrite orb_false_r.
        destruct (podFits state o) eqn:Ef; simpl.
        -- exists m. split; [done |]. by rewrite Hs.
        -- eexists. split; [reflexivity | done].
      * simpl. exists m. split; [done |]. by rewrite Hs.
      * simpl. exists m. split; [done |]. by rewrite Hs.
    + exists m. split; [done |]. by rewrite Hs.
Qed.

End feasible_pods.

(** X17. Feasible pods under the filter plugins of the repository.  When
    the predicates of the policy resolve to built-in filters only and the
    snapshot has fewer than 2^31 slots, [findFeasiblePods] returns, in
    increasing order, exactly the ordinals below the number of replicas
    that pass the test of PodFitsResources (free capacity left, or a
    snapshot with no slot) if that plugin is among the predicates, and
    every ordinal below the number of replicas if it is not. *)
Theorem findFeasiblePods_builtin (rt : Runtime) (s : StatefulSetScheduler)
    (pol : Policy) (state : State) :
  stateOK state ->
  (forall pp pl,
     pp ∈ Predicates pol -> GetFilterPlugin rt (predicateName pp) = Some pl ->
     pl ∈ builtinFilters) ->
  (Exists (fun pp => GetFilterPlugin rt (predicateName pp)
                     = Some PodFitsResources.plugin) (Predicates pol) ->
   findFeasiblePods rt s pol state
   = Ok (filter (fun o => podFits state o = true) (seqZ 0 (replicas s)))) /\
  (Forall (fun pp => GetFilterPlugin rt (predicateName pp)
                     <> Some PodFitsResources.plugin) (Predicates pol) ->
   findFeasiblePods rt s pol state = Ok (seqZ 0 (replicas s))).
Proof.
  intros Hok Hreg. unfold findFeasiblePods.
  set (uses := existsb
                 (fun pp => match GetFilterPlugin rt (predicateName pp) with
                            | Some pl => bool_decide
                                           (fpName pl = PodFitsResources.Name)
                            | None => false
                            end)
                 (Predicates pol)).
  assert (Hloop : findFeasiblePods_loop rt pol state [] (seqZ 0 (replicas s))
                  = Ok (filter (fun o => podFits state o || negb uses = true)
                          (seqZ 0 (replicas s)))).
  { rewrite (findFeasiblePods_loop_filter rt pol state
               (fun o => podFits state o || negb uses)); [done |].
    intros o Hin. apply elem_of_seqZ in Hin.
    apply RunFilterPlugins_loop_builtin; [done | lia | done]. }
  rewrite Hloop. split.
  - intros Hex.
    assert (Hu : uses = true).
    { apply existsb_exists. apply Exists_exists in Hex as (pp & Hin & Hg).
      exists pp. split; [by apply list_elem_of_In | by rewrite Hg]. }
    rewrite Hu. f_equal. apply list_filter_iff. intros o. simpl.
    by rewrite orb_false_r.
  - intros Hall.
    assert (Hu : uses = false).
    { destruct uses eqn:Eu; [| done]. unfold uses in Eu.
      apply existsb_exists in Eu as (pp & Hin & Hg).
      apply list_elem_of_In in Hin.
      destruct (GetFilterPlugin rt (predicateName pp)) as [pl|] eqn:Eg; [| done].
      apply bool_decide_eq_true in Hg. rewrite Forall_forall in Hall.
      destruct (Hall pp Hin). rewrite Eg. f_equal.
      pose proof (Hreg pp pl Hin Eg) as Hb. unfold builtinFilters in Hb.
      apply elem_of_cons in Hb as [-> | Hb]; [done |].
      apply elem_of_cons in Hb as [-> | Hb]; [done |].
      by apply list_elem_of_singleton in Hb as ->. }
    rewrite Hu. f_equal. apply filter_all. intros o. simpl.
    by rewrite orb_true_r.
Qed.

Lemma findFeasiblePods_builtin_witness :
  findFeasiblePods Example.rtBuiltin (Example.sched "" None 3 [] [])
    Example.lowestPolicy (mkState [0; 3] 1 10 0 0 "" ∅)
  = Ok (filter (fun o => podFits (mkState [0; 3] 1 10 0 0 "" ∅) o = true)
          (seqZ 0 (replicas (Example.sched "" None 3 [] [])))).
Proof.
  refine (proj1 (findFeasiblePods_builtin Example.rtBuiltin
                   (Example.sched "" None 3 [] []) Example.lowestPolicy
                   (mkState [0; 3] 1 10 0 0 "" ∅) _ _) _).
  - unfold stateOK, MaxInt32. simpl. lia.
  - intros pp pl Hin Hg. unfold Example.lowestPolicy in Hin. simpl in Hin.
    unfold builtinFilters.
    apply elem_of_cons in Hin as [-> | Hin];
      [| apply elem_of_cons in Hin as [-> | Hin];
         [| apply list_elem_of_singleton in Hin as ->]].
    + change (Some PodFitsResources.plugin = Some pl) in Hg.
      injection Hg as <-. by left.
    + change (Some NoMaxResourceCount.plugin = Some pl) in Hg.
      injection Hg as <-. right. by left.
    + change (Some EvenPodSpread.plugin = Some pl) in Hg.
      injection Hg as <-. right. right. by left.
  - apply Exists_cons. left. reflexivity.
Defined.

Section lowest_ordinal.
Variables (rt : Runtime) (state : State) (weight : Z).
Hypothesis Hlast : -1 <= LastOrdinal state.
Hypothesis Htop : (LastOrdinal state + 2) * 100 <= MaxInt32.
Hypothesis Hweight : 0 < weight.
Hypothesis Hscore : (LastOrdinal state + 2) * 100 * weight <= 9223372036854775807.

Lemma scorePods_lowest (feasiblePods : list Z) :
  Forall (fun o => 0 <= o <= (LastOrdinal state + 2) * 100) feasiblePods ->
  scorePods LowestOrdinalPriority.plugin weight state feasiblePods
  = Ok (inl (map (fun o => {| ID := o;
                              Score := ((LastOrdinal state + 2) * 100 - o) * weight |})
               feasiblePods)).
Proof.
  induction 1 as [|o l Ho Hl IH]; [done |].
  simpl. unfold LowestOrdinalPriority.Score.
  assert (Hs : int64 (sub32 (mul32 (add32 (LastOrdinal state) 2) 100) o)
               = (LastOrdinal state + 2) * 100 - o).
  { unfold MaxInt32 in *.
    rewrite add32_id by (unfold in_int32, MinInt32, MaxInt32; lia).
    unfold mul32. rewrite int32_id by (unfold in_int32, MinInt32, MaxInt32; lia).
    rewrite sub32_id by (unfold in_int32, MinInt32, MaxInt32; lia).
    apply int64_id. lia. }
  rewrite Hs.
  destruct (Z.ltb_spec ((LastOrdinal state + 2) * 100 - o) 0); [lia |].
  simpl. rewrite IH. simpl. do 4 f_equal.
  unfold mul64. apply int64_id. nia.
Qed.

Lemma selectPod_loop_first (rnd : nat -> Z -> Z) (l : list PodScore) :
  forall (pos : nat) (maxScore selected cnt : Z),
  Forall (fun ps => Score ps < maxScore) l ->
  selectPod_loop rnd pos maxScore selected cnt l = selected.
Proof.
  induction l as [|ps l IH]; intros pos maxScore selected cnt Hl; [done |].
  apply Forall_cons in Hl as [Hps Hl]. simpl.
  destruct (Z.ltb_spec maxScore (Score ps)); [lia |].
  destruct (Z.eqb_spec (Score ps) maxScore); [lia |].
  by apply IH.
Qed.

Lemma selectPod_first (rnd : nat -> Z -> Z) (f : Z -> PodScore)
    (first : Z) (rest : list Z) :
  Forall (fun o => Score (f o) < Score (f first)) rest ->
  selectPod rnd (map f (first :: rest)) = Some (ID (f first)).
Proof.
  intros Hl. simpl. f_equal. apply selectPod_loop_first.
  apply Forall_forall. intros ps Hps.
  apply list_elem_of_fmap in Hps as (o & -> & Ho).
  rewrite Forall_forall in Hl. by apply Hl.
Qed.

Lemma sublist_sorted (k : list Z) :
  StronglySorted Z.lt k ->
  forall l, l `sublist_of` k -> StronglySorted Z.lt l.
Proof.
  induction 1 as [|x k Hk IH Hx]; intros l Hsub.
  - apply sublist_nil_r in Hsub as ->. constructor.
  - apply sublist_cons_r in Hsub as [Hsub | (l' & -> & Hsub)]; [by apply IH |].
    constructor; [by apply IH |].
    apply Forall_forall. intros y Hy. rewrite Forall_forall in Hx.
    apply Hx. by eapply elem_of_sublist.
Qed.

Lemma seqZ_sorted (n : Z) : StronglySorted Z.lt (seqZ 0 n).
Proof.
  unfold seqZ. generalize 0%nat as k.
  induction (Z.to_nat n) as [|m IH]; intros k; simpl; constructor.
  - apply IH.
  - apply Forall_forall. intros x Hx.
    apply list_elem_of_fmap in Hx as (j & -> & Hj).
    apply elem_of_seq in Hj. lia.
Qed.

Lemma prioritizePods_lowest (pol : Policy) (pp : PriorityPolicy)
    (feasiblePods : list Z) :
  Priorities pol = [pp] ->
  Weight pp = weight ->
  GetScorePlugin rt (priorityName pp) = Some LowestOrdinalPriority.plugin ->
  Forall (fun o => 0 <= o <= (LastOrdinal state + 2) * 100) feasiblePods ->
  prioritizePods rt pol state feasiblePods
  = Ok (inl (map (fun o => {| ID := o;
                              Score := ((LastOrdinal state + 2) * 100 - o) * weight |})
               feasiblePods)).
Proof.
  intros Hpri Hwt Hreg Hall. unfold prioritizePods, RunScorePlugins.
  rewrite Hpri. cbn [length Nat.eqb RunScorePlugins_loop]. rewrite Hreg, Hwt.
  rewrite (scorePods_lowest feasiblePods Hall).
  cbn [mbind outcome_bind RunScorePlugins_loop IsSuccess StatusCode NewStatus
       code bool_decide decide_rel negb].
  change (negb (IsSuccess (Some (NewStatus Success [])))) with false.
  cbn iota. do 2 f_equal. rewrite insert_empty.
  rewrite <- imap_const. apply imap_ext. intros j o Hj. unfold const.
  f_equal. rewrite map_fold_singleton, list_lookup_imap, Hj. simpl.
  unfold add64. apply int64_id.
  rewrite Forall_forall in Hall. specialize (Hall o (list_elem_of_lookup_2 _ _ _ Hj)).
  nia.
Qed.

End lowest_ordinal.

(** X18. The lowest ordinal wins.  When LowestOrdinalPriority, with a
    positive weight, is the only priority of the policy, every ordinal
    below the number of replicas gets a non-negative score and the
    weighted scores are int64 values, a round of the plugin path gives
    the vreplica to the first feasible pod, which is the feasible pod of
    lowest ordinal, whatever the random source answers. *)
Theorem lowest_feasible_pod_is_selected (rt : Runtime) (s : StatefulSetScheduler)
    (pol : Policy) (state : State) (i : Z) (pp : PriorityPolicy)
    (first : Z) (rest : list Z) :
  Priorities pol = [pp] ->
  GetScorePlugin rt (priorityName pp) = Some LowestOrdinalPriority.plugin ->
  0 < Weight pp ->
  -1 <= LastOrdinal state ->
  (LastOrdinal state + 2) * 100 <= MaxInt32 ->
  (LastOrdinal state + 2) * 100 * Weight pp <= 9223372036854775807 ->
  replicas s <= (LastOrdinal state + 2) * 100 + 1 ->
  findFeasiblePods rt s pol state = Ok (first :: rest) ->
  policyRound rt s pol i (inr state) = Ok (RoundSelected first) /\
  Forall (fun o => first < o) rest.
Proof.
  intros Hpri Hreg Hw Hlast Htop Hmax Hrep Hf.
  assert (Hsorted : StronglySorted Z.lt (first :: rest)).
  { unfold findFeasiblePods in Hf.
    apply findFeasiblePods_loop_sublist in Hf as (added & Heq & Hsub).
    simpl in Heq. subst added.
    exact (sublist_sorted _ (seqZ_sorted (replicas s)) _ Hsub). }
  apply StronglySorted_inv in Hsorted as [Hsr Hfirst].
  split; [| done].
  pose proof (findFeasiblePods_range rt s pol state _ Hf) as Hrange.
  unfold policyRound.
  destruct (Z.eqb_spec (replicas s) 0) as [Hz | _].
  { specialize (Hrange first ltac:(by left)). lia. }
  rewrite Hf. simpl. destruct rest as [|second rest]; [done |].
  rewrite (prioritizePods_lowest rt state (Weight pp) Hlast Htop Hw Hmax
             pol pp _ Hpri eq_refl Hreg).
  2:{ apply Forall_forall. intros o Ho. specialize (Hrange o Ho). lia. }
  cbn [mbind outcome_bind]. rewrite selectPod_first; [done |].
  apply Forall_forall. intros o Ho. simpl.
  rewrite Forall_forall in Hfirst. specialize (Hfirst o Ho). nia.
Qed.

Lemma lowest_feasible_pod_is_selected_witness :
  policyRound Example.rtBuiltin
    (Example.sched "" (Some Example.lowestPolicy) 3 [] [])
    Example.lowestPolicy 0 (inr (mkState [0; 3] 1 10 0 0 "" ∅))
  = Ok (RoundSelected 1) /\
  Forall (fun o => 1 < o) [2].
Proof.
  apply (lowest_feasible_pod_is_selected Example.rtBuiltin
           (Example.sched "" (Some Example.lowestPolicy) 3 [] [])
           Example.lowestPolicy (mkState [0; 3] 1 10 0 0 "" ∅) 0
           {| priorityName := "LowestOrdinalPriority"; Weight := 2 |} 1 [2]).
  - reflexivity.
  - reflexivity.
  - simpl. lia.
  - simpl. lia.
  - unfold MaxInt32. simpl. lia.
  - simpl. lia.
  - simpl. lia.
  - reflexivity.
Defined.

(** ** The scheduler facade (the statefulset scheduler) *)

Section validate_policy.
Variable rt : Runtime.

Lemma ValidatePolicy_fold_errors (l : list PriorityPolicy) :
  forall acc : list string,
  fold_left
    (fun validationErrors priority =>
       if weightOutOfRange rt priority then
         validationErrors ++
           ["priority " +:+ priorityName priority +:+
            " should have a positive weight applied to it or it has overflown"]
       else validationErrors) l acc
  = acc ++ map weightError (filter (fun p => weightOutOfRange rt p = true) l).
Proof.
  induction l as [|p l IH]; intros acc; simpl.
  - by rewrite app_nil_r.
  - rewrite IH, filter_cons.
    destruct (weightOutOfRange rt p) eqn:E.
    + rewrite decide_True by done. simpl. by rewrite <- app_assoc.
    + by rewrite decide_False.
Qed.

End validate_policy.

(** X19. [ValidatePolicy] reports one error per priority whose weight is
    not strictly between 0 and [MaxTotalWeight], in the order of the
    priorities, each naming its priority; so the number of errors is
    the number of such priorities. *)
Theorem ValidatePolicy_errors (rt : Runtime) (pol : Policy) :
  ValidatePolicy rt pol
  = map weightError
      (filter (fun p => weightOutOfRange rt p = true) (Priorities pol)) /\
  length (ValidatePolicy rt pol)
  = length (filter (fun p => ~ 0 < Weight p < MaxTotalWeight rt) (Priorities pol)).
Proof.
  assert (H : ValidatePolicy rt pol
              = map weightError
                  (filter (fun p => weightOutOfRange rt p = true) (Priorities pol)))
    by apply (ValidatePolicy_fold_errors rt (Priorities pol) []).
  split; [exact H |]. rewrite H, length_map. f_equal.
  apply list_filter_iff. intros p. unfold weightOutOfRange.
  destruct (Z.leb_spec (Weight p) 0), (Z.leb_spec (MaxTotalWeight rt) (Weight p));
    simpl; split; intros; (done || lia).
Qed.

(** X20. When the state build fails, [Schedule] returns no placements and
    the error of the build; it does not touch the pending table nor the
    autoscaler, and leaves in the reservation table what the build left,
    which is the table itself when the vpod lister failed. *)
Theorem Schedule_state_error (rt : Runtime) (s : StatefulSetScheduler)
    (vpod : VPod) (rsv : Reserved) (e : error) :
  stateBuilder_State (stateAccessor s) (reserved s) = Ok (rsv, inl e) ->
  exists s',
    Schedule rt s vpod = Ok (None, Some e, s') /\
    pending s' = pending s /\
    autoscaleCalls s' = autoscaleCalls s /\
    reserved s' = rsv /\
    subReserved rsv (reserved s) /\
    (vpodLister (stateAccessor s) = inl e -> rsv = reserved s).
Proof.
  intros H. exists (withReservedTable s rsv).
  split; [| split; [done | split; [done | split; [done | split]]]].
  - unfold Schedule, scheduleVPod. rewrite H. reflexivity.
  - by eapply stateBuilder_State_sub.
  - intros Hl. unfold stateBuilder_State in H. rewrite Hl in H.
    by injection H as <-.
Qed.

Lemma Schedule_state_error_witness :
  exists s',
    Schedule Example.rt Example.schedBroken Example.vpodUp
    = Ok (None, Some (ErrListing "lister down"), s') /\
    pending s' = pending Example.schedBroken /\
    autoscaleCalls s' = autoscaleCalls Example.schedBroken /\
    reserved s' = [] /\
    subReserved [] (reserved Example.schedBroken) /\
    (vpodLister (stateAccessor Example.schedBroken)
     = inl (ErrListing "lister down") -> [] = reserved Example.schedBroken).
Proof.
  apply (Schedule_state_error Example.rt Example.schedBroken Example.vpodUp []
           (ErrListing "lister down")).
  reflexivity.
Defined.

(** X21. The predicate/priority path never scales down.  When the policy
    type is unset and the plugin policy is valid, a vpod that wants fewer
    vreplicas than it has committed gets its committed placements back
    (ordered by ordinal) with no error: the loop that places vreplicas
    does not run, nothing is removed, the pending entry of the vpod is
    deleted and the autoscaler is not called. *)
Theorem policy_path_never_scales_down (rt : Runtime) (s : StatefulSetScheduler)
    (vpod : VPod) (pol : Policy) (rsv : Reserved) (state : State) :
  stateBuilder_State (stateAccessor s) (reserved s) = Ok (rsv, inr state) ->
  schedulerPolicy (stateAccessor s) = "" ->
  policy s = Some pol ->
  ValidatePolicy rt pol = [] ->
  0 <= GetVReplicas vpod < GetTotalVReplicas (GetPlacements vpod) ->
  scheduleVPod rt s vpod
  = Ok (GetPlacements vpod, None,
        withPending (withReservedTable s rsv) (delete (GetKey vpod) (pending s))) /\
  exists s',
    Schedule rt s vpod
    = Ok (option_map (Sort.SliceStable (keyLess ordinalOf)) (GetPlacements vpod),
          None, s') /\
    elems (option_map (Sort.SliceStable (keyLess ordinalOf)) (GetPlacements vpod))
      ≡ₚ elems (GetPlacements vpod) /\
    pending s' = delete (GetKey vpod) (pending s) /\
    autoscaleCalls s' = autoscaleCalls s.
Proof.
  intros Hst Hpol Hp Hvalid Hless.
  pose proof (int32_range (sumVReplicas (elems (GetPlacements vpod)))) as Htr.
  rewrite <- GetTotalVReplicas_sum in Htr.
  set (tr := GetTotalVReplicas (GetPlacements vpod)) in *.
  assert (Hdiff : sub32 (GetVReplicas vpod) tr < 0).
  { rewrite sub32_id; unfold in_int32, MinInt32, MaxInt32 in *; lia. }
  assert (Hs : scheduleVPod rt s vpod
               = Ok (GetPlacements vpod, None,
                     withPending (withReservedTable s rsv)
                       (delete (GetKey vpod) (pending s)))).
  { unfold scheduleVPod. rewrite Hst. simpl. fold tr.
    destruct (Z.eqb_spec tr (GetVReplicas vpod)); [lia |].
    rewrite (State_policy s rsv state Hst), Hpol. simpl. rewrite Hp, Hvalid.
    unfold addReplicasWithPolicy. rewrite seqZ_nil by lia. simpl.
    unfold finishSchedule.
    destruct (Z.ltb_spec 0 (sub32 (GetVReplicas vpod) tr)); [lia | done]. }
  split; [exact Hs |].
  destruct (Schedule_of_committed rt s _ vpod Hs) as (s' & HS & Hpend & Hauto).
  exists s'. split; [exact HS |]. split; [| done].
  destruct (GetPlacements vpod) as [ps|]; simpl; [| done].
  apply SliceStable_perm_any.
Qed.

Lemma policy_path_never_scales_down_witness :
  scheduleVPod Example.rtBuiltin Example.schedPolicyDown Example.vpodDown
  = Ok (GetPlacements Example.vpodDown, None,
        withPending (withReservedTable Example.schedPolicyDown [])
          (delete (GetKey Example.vpodDown) (pending Example.schedPolicyDown))) /\
  exists s',
    Schedule Example.rtBuiltin Example.schedPolicyDown Example.vpodDown
    = Ok (option_map (Sort.SliceStable (keyLess ordinalOf))
            (GetPlacements Example.vpodDown), None, s') /\
    elems (option_map (Sort.SliceStable (keyLess ordinalOf))
             (GetPlacements Example.vpodDown))
      ≡ₚ elems (GetPlacements Example.vpodDown) /\
    pending s' = delete (GetKey Example.vpodDown) (pending Example.schedPolicyDown) /\
    autoscaleCalls s' = autoscaleCalls Example.schedPolicyDown.
Proof.
  apply (policy_path_never_scales_down Example.rtBuiltin Example.schedPolicyDown
           Example.vpodDown Example.lowestPolicy []
           (mkState [7; 10; 6; 8] 3 10 0 0 "" ∅)).
  - vm_compute. reflexivity.
  - reflexivity.
  - reflexivity.
  - reflexivity.
  - vm_compute. split; congruence.
Defined.

Section placement_lookup.
Variable s : StatefulSetScheduler.

Lemma find_first_match (placements : list Placement) (name : string) :
  match List.find (fun p => bool_decide (PodName p = name)) placements with
  | Some p =>
      exists before after,
        placements = before ++ p :: after /\ PodName p = name /\
        Forall (fun q => PodName q <> name) before
  | None => Forall (fun q => PodName q <> name) placements
  end.
Proof.
  induction placements as [|q l IH]; simpl; [constructor |].
  destruct (decide (PodName q = name)) as [Heq | Hne].
  - rewrite bool_decide_eq_true_2 by done.
    exists [], l. split; [done |]. split; [done | constructor].
  - rewrite bool_decide_eq_false_2 by done.
    destruct (List.find _ l) as [p|].
    + destruct IH as (before & after & -> & Hp & Hb).
      exists (q :: before), after. split; [done |]. split; [done |].
      by constructor.
    + by constructor.
Qed.

End placement_lookup.

(** X22. [getPlacementFromPodOrdinal] returns the first placement of the
    list that bears the name of the pod of that ordinal, and the zero
    placement (empty name, no vreplicas) when there is none; for an
    ordinal from 0 to [MaxInt32] a placement that is found is addressed
    by that ordinal. *)
Theorem getPlacementFromPodOrdinal_spec (s : StatefulSetScheduler)
    (placements : list Placement) (ordinal : Z) :
  (Forall (fun q => PodName q <> PodNameFromOrdinal (statefulSetName s) ordinal)
     placements ->
   getPlacementFromPodOrdinal s placements ordinal
   = {| PodName := ""; VReplicas := 0 |}) /\
  (forall before p after,
     placements = before ++ p :: after ->
     PodName p = PodNameFromOrdinal (statefulSetName s) ordinal ->
     Forall (fun q => PodName q <> PodNameFromOrdinal (statefulSetName s) ordinal)
       before ->
     getPlacementFromPodOrdinal s placements ordinal = p /\
     (0 <= ordinal <= MaxInt32 -> ordinalOf p = ordinal)).
Proof.
  unfold getPlacementFromPodOrdinal.
  pose proof (find_first_match placements
                (PodNameFromOrdinal (statefulSetName s) ordinal)) as Hfind.
  split.
  - intros Hnone.
    destruct (List.find _ placements) as [p|]; [| done].
    destruct Hfind as (before & after & -> & Hp & _).
    apply Forall_app in Hnone as [_ Hnone].
    apply Forall_cons in Hnone as [Hnone _]. done.
  - intros before p after -> Hp Hbefore.
    assert (Hfound :
              List.find
                (fun q => bool_decide
                            (PodName q
                             = PodNameFromOrdinal (statefulSetName s) ordinal))
                (before ++ p :: after) = Some p).
    { clear Hfind. induction before as [|q before IH]; simpl.
      - by rewrite bool_decide_eq_true_2.
      - apply Forall_cons in Hbefore as [Hq Hbefore].
        rewrite bool_decide_eq_false_2 by done. by apply IH. }
    rewrite Hfound. split; [done |].
    intros Ho. unfold ordinalOf. rewrite Hp.
    by apply OrdinalFromPodName_PodNameFromOrdinal.
Qed.

Lemma getPlacementFromPodOrdinal_spec_witness :
  getPlacementFromPodOrdinal Example.schedUp [Example.P "pool-1" 1] 0
  = {| PodName := ""; VReplicas := 0 |} /\
  getPlacementFromPodOrdinal Example.schedUp
    ([Example.P "pool-1" 1] ++ Example.P "pool-0" 4 :: [Example.P "pool-0" 9]) 0
  = Example.P "pool-0" 4 /\
  ordinalOf (Example.P "pool-0" 4) = 0.
Proof.
  split.
  - apply (proj1 (getPlacementFromPodOrdinal_spec Example.schedUp
                    [Example.P "pool-1" 1] 0)).
    repeat constructor. simpl. discriminate.
  - destruct (proj2 (getPlacementFromPodOrdinal_spec Example.schedUp
                       ([Example.P "pool-1" 1] ++ Example.P "pool-0" 4
                          :: [Example.P "pool-0" 9]) 0)
                [Example.P "pool-1" 1] (Example.P "pool-0" 4)
                [Example.P "pool-0" 9] eq_refl eq_refl) as [H1 H2].
    + repeat constructor. simpl. discriminate.
    + split; [exact H1 |]. apply H2. unfold MaxInt32. lia.
Defined.

Section reserve_placements.
Variable vpod : VPod.

Lemma reserve_step_lookup (reserved : Reserved) (p : Placement)
    (key : Key) (podName : string) :
  lookupReserved
    (if committedOnPod vpod (PodName p) <? VReplicas p then
       ainsert (GetKey vpod)
         (ainsert (PodName p) (VReplicas p)
            (default [] (alookup (GetKey vpod) reserved)))
         reserved
     else reserved) key podName
  = if bool_decide (key = GetKey vpod /\ podName = PodName p)
       && (committedOnPod vpod (PodName p) <? VReplicas p)
    then Some (VReplicas p)
    else lookupReserved reserved key podName.
Proof.
  destruct (committedOnPod vpod (PodName p) <? VReplicas p);
    [| by rewrite andb_false_r].
  rewrite andb_true_r. unfold lookupReserved.
  destruct (decide (key = GetKey vpod)) as [-> | Hk].
  - rewrite alookup_ainsert_eq. simpl.
    destruct (decide (podName = PodName p)) as [-> | Hn].
    + rewrite bool_decide_eq_true_2 by done. apply alookup_ainsert_eq.
    + rewrite bool_decide_eq_false_2 by (by intros [_ ?]).
      rewrite alookup_ainsert_ne by done.
      by destruct (alookup (GetKey vpod) reserved).
  - rewrite bool_decide_eq_false_2 by (by intros [? _]).
    by rewrite alookup_ainsert_ne.
Qed.

Lemma reservePlacements_cons (p : Placement) (l : list Placement)
    (reserved : Reserved) :
  reservePlacements vpod (p :: l) reserved
  = reservePlacements vpod l
      (if committedOnPod vpod (PodName p) <? VReplicas p then
         ainsert (GetKey vpod)
           (ainsert (PodName p) (VReplicas p)
              (default [] (alookup (GetKey vpod) reserved)))
           reserved
       else reserved).
Proof. reflexivity. Qed.

Lemma reservePlacements_frame (l : list Placement) :
  forall (reserved : Reserved) (key : Key) (podName : string),
  key <> GetKey vpod \/ podName ∉ map PodName l ->
  lookupReserved (reservePlacements vpod l reserved) key podName
  = lookupReserved reserved key podName.
Proof.
  induction l as [|p l IH]; intros reserved key podName Hout; [done |].
  rewrite reservePlacements_cons, IH, reserve_step_lookup.
  - rewrite bool_decide_eq_false_2; [done |].
    intros [-> ->]. destruct Hout as [Hk | Hn]; [done |].
    apply Hn. simpl. by left.
  - destruct Hout as [Hk | Hn]; [by left | right].
    intros Hin. apply Hn. simpl. by right.
Qed.

Lemma reservePlacements_hit (l : list Placement) :
  forall (reserved : Reserved) (p : Placement),
  NoDup (map PodName l) ->
  p ∈ l ->
  lookupReserved (reservePlacements vpod l reserved) (GetKey vpod) (PodName p)
  = if committedOnPod vpod (PodName p) <? VReplicas p
    then Some (VReplicas p)
    else lookupReserved reserved (GetKey vpod) (PodName p).
Proof.
  induction l as [|q l IH]; intros reserved p Hnd Hin;
    [by apply elem_of_nil in Hin |].
  simpl in Hnd. apply NoDup_cons in Hnd as [Hq Hnd].
  rewrite reservePlacements_cons.
  apply elem_of_cons in Hin as [-> | Hin].
  - rewrite reservePlacements_frame by (by right).
    rewrite reserve_step_lookup. by rewrite bool_decide_eq_true_2.
  - rewrite IH by done. rewrite reserve_step_lookup.
    rewrite bool_decide_eq_false_2; [done |].
    intros [_ Heq]. apply Hq. rewrite <- Heq.
    apply list_elem_of_fmap. by exists p.
Qed.

End reserve_placements.

(** X23. [reservePlacements] records the placements that exceed what the
    vpod has committed.  For a list with one entry per pod name, after
    the call the table holds, for every placement of the list with more
    vreplicas than the vpod has committed on that pod, exactly that
    count; a placement that does not exceed the committed count leaves
    its entry as it was; and the entries of other pods of the vpod and
    of all other vpods are untouched. *)
Theorem reservePlacements_spec (vpod : VPod) (placements : list Placement)
    (reserved : Reserved) :
  NoDup (map PodName placements) ->
  (forall p,
     p ∈ placements ->
     lookupReserved (reservePlacements vpod placements reserved)
       (GetKey vpod) (PodName p)
     = if committedOnPod vpod (PodName p) <? VReplicas p
       then Some (VReplicas p)
       else lookupReserved reserved (GetKey vpod) (PodName p)) /\
  (forall podName,
     podName ∉ map PodName placements ->
     lookupReserved (reservePlacements vpod placements reserved)
       (GetKey vpod) podName
     = lookupReserved reserved (GetKey vpod) podName) /\
  (forall key podName,
     key <> GetKey vpod ->
     lookupReserved (reservePlacements vpod placements reserved) key podName
     = lookupReserved reserved key podName).
Proof.
  intros Hnd. split; [| split].
  - intros p Hp. by apply reservePlacements_hit.
  - intros podName Hn. apply reservePlacements_frame. by right.
  - intros key podName Hk. apply reservePlacements_frame. by left.
Qed.

Lemma reservePlacements_spec_witness :
  (forall p,
     p ∈ [Example.P "pool-0" 10; Example.P "pool-1" 1] ->
     lookupReserved
       (reservePlacements Example.vpodUp
          [Example.P "pool-0" 10; Example.P "pool-1" 1] [])
       (GetKey Example.vpodUp) (PodName p)
     = if committedOnPod Example.vpodUp (PodName p) <? VReplicas p
       then Some (VReplicas p)
       else lookupReserved [] (GetKey Example.vpodUp) (PodName p)) /\
  (forall podName,
     podName ∉ map PodName [Example.P "pool-0" 10; Example.P "pool-1" 1] ->
     lookupReserved
       (reservePlacements Example.vpodUp
          [Example.P "pool-0" 10; Example.P "pool-1" 1] [])
       (GetKey Example.vpodUp) podName
     = lookupReserved [] (GetKey Example.vpodUp) podName) /\
  (forall key podName,
     key <> GetKey Example.vpodUp ->
     lookupReserved
       (reservePlacements Example.vpodUp
          [Example.P "pool-0" 10; Example.P "pool-1" 1] []) key podName
     = lookupReserved [] key podName).
Proof.
  apply (reservePlacements_spec Example.vpodUp
           [Example.P "pool-0" 10; Example.P "pool-1" 1] []).
  simpl. repeat constructor; set_solver.
Defined.

(** X24. [Schedule] reserves what it returns.  Under a built-in policy
    type (MAXFILLUP, EVENSPREAD, EVENSPREAD_BYNODE), whose branches of
    [scheduleVPod] build a fresh placement list and leave the committed
    list of the vpod untouched: when [Schedule] returns a list with one
    entry per pod name, the reservation table of the scheduler
    afterwards holds, for every returned placement with more vreplicas
    than the vpod has committed on that pod, exactly the returned count;
    the reservations of the other vpods are those that the scheduling
    left, and the pending table and the autoscaler calls are not changed
    by the reservation. *)
Theorem Schedule_reserves_its_result (rt : Runtime) (s : StatefulSetScheduler)
    (vpod : VPod) (ps : list Placement) (e : option error)
    (s' : StatefulSetScheduler) :
  schedulerPolicy (stateAccessor s) <> "" ->
  Schedule rt s vpod = Ok (Some ps, e, s') ->
  NoDup (map PodName ps) ->
  exists ps0 s0,
    scheduleVPod rt s vpod = Ok (Some ps0, e, s0) /\
    (forall p,
       p ∈ ps -> committedOnPod vpod (PodName p) < VReplicas p ->
       lookupReserved (reserved s') (GetKey vpod) (PodName p)
       = Some (VReplicas p)) /\
    (forall key podName,
       key <> GetKey vpod ->
       lookupReserved (reserved s') key podName
       = lookupReserved (reserved s0) key podName) /\
    pending s' = pending s0 /\
    autoscaleCalls s' = autoscaleCalls s0.
Proof.
  intros _ H Hnd.
  destruct (Schedule_inv rt s vpod ps e s' H) as (ps0 & s0 & Hs & _ & ->).
  exists ps0, s0. split; [done |]. simpl. split; [| split; [| done]].
  - intros p Hp Hlt. rewrite reservePlacements_hit by done.
    destruct (Z.ltb_spec (committedOnPod vpod (PodName p)) (VReplicas p));
      [done | lia].
  - intros key podName Hk. apply reservePlacements_frame. by left.
Qed.

Lemma Schedule_reserves_its_result_witness :
  exists ps0 s0,
    scheduleVPod Example.rt Example.schedUp Example.vpodUp
    = Ok (Some ps0, Some ErrNotEnoughReplicas, s0) /\
    (forall p,
       p ∈ [Example.P "pool-0" 10; Example.P "pool-1" 10] ->
       committedOnPod Example.vpodUp (PodName p) < VReplicas p ->
       lookupReserved (reserved Example.schedUp_final) (GetKey Example.vpodUp)
         (PodName p)
       = Some (VReplicas p)) /\
    (forall key podName,
       key <> GetKey Example.vpodUp ->
       lookupReserved (reserved Example.schedUp_final) key podName
       = lookupReserved (reserved s0) key podName) /\
    pending Example.schedUp_final = pending s0 /\
    autoscaleCalls Example.schedUp_final = autoscaleCalls s0.
Proof.
  apply (Schedule_reserves_its_result Example.rt Example.schedUp Example.vpodUp
           [Example.P "pool-0" 10; Example.P "pool-1" 10]
           (Some ErrNotEnoughReplicas) Example.schedUp_final).
  - done.
  - vm_compute. reflexivity.
  - simpl. repeat constructor; set_solver.
Defined.

Section pending_total.

Lemma add32_swap (t a b : Z) : add32 (add32 t a) b = add32 (add32 t b) a.
Proof.
  unfold add32. rewrite !int32_add_l. f_equal. lia.
Qed.

Lemma pending_fold_insert (m : gmap (string * string) Z) (k : string * string)
    (n : Z) :
  map_fold (fun _ v t => add32 t v) 0 (<[k := n]> m)
  = add32 (map_fold (fun _ v t => add32 t v) 0 (delete k m)) n.
Proof.
  rewrite <- (insert_delete_eq m k n).
  rewrite map_fold_insert_L.
  - done.
  - intros j1 j2 z1 z2 y _ _ _. apply add32_swap.
  - apply lookup_delete_eq.
Qed.

End pending_total.

(** X25. What the autoscaler is told.  When vreplicas are left over, the
    tail of [scheduleVPod] records them as the pending count of the vpod
    (replacing an older count), returns the error for not enough
    replicas and, when an autoscaler is set, calls it once with
    [pendingVReplicas]: the int32 sum of the pending counts of all other
    vpods and of this remainder.  When nothing is left over the pending
    entry of the vpod is deleted, no error is returned and the
    autoscaler is not called. *)
Theorem autoscaler_is_told_the_pending_total (s : StatefulSetScheduler)
    (vpod : VPod) (placements : option (list Placement)) (nleft : Z) :
  (0 < nleft ->
   exists s',
     finishSchedule s vpod placements nleft
     = (placements, Some ErrNotEnoughReplicas, s') /\
     pending s' = <[GetKey vpod := nleft]> (pending s) /\
     pendingVReplicas s'
     = add32 (pendingVReplicas
                (withPending s (delete (GetKey vpod) (pending s)))) nleft /\
     autoscaleCalls s'
     = (if hasAutoscaler s then [pendingVReplicas s'] else [])
       ++ autoscaleCalls s) /\
  (nleft <= 0 ->
   exists s',
     finishSchedule s vpod placements nleft = (placements, None, s') /\
     pending s' = delete (GetKey vpod) (pending s) /\
     autoscaleCalls s' = autoscaleCalls s).
Proof.
  unfold finishSchedule. split; intros Hn.
  - destruct (Z.ltb_spec 0 nleft); [| lia].
    eexists. split; [reflexivity |].
    destruct (hasAutoscaler s) eqn:Ha; simpl; rewrite Ha; simpl;
      (split; [done |]); (split; [| done]);
      unfold pendingVReplicas; simpl; apply pending_fold_insert.
  - destruct (Z.ltb_spec 0 nleft); [lia |].
    eexists. split; [reflexivity |]. done.
Qed.

Lemma autoscaler_is_told_the_pending_total_witness :
  (exists s',
     finishSchedule Example.schedUp Example.vpodUp (Some []) 5
     = (Some [], Some ErrNotEnoughReplicas, s') /\
     pending s' = <[GetKey Example.vpodUp := 5]> (pending Example.schedUp) /\
     pendingVReplicas s'
     = add32 (pendingVReplicas
                (withPending Example.schedUp
                   (delete (GetKey Example.vpodUp) (pending Example.schedUp)))) 5 /\
     autoscaleCalls s'
     = (if hasAutoscaler Example.schedUp then [pendingVReplicas s'] else [])
       ++ autoscaleCalls Example.schedUp) /\
  (exists s',
     finishSchedule Example.schedUp Example.vpodUp (Some []) 0
     = (Some [], None, s') /\
     pending s' = delete (GetKey Example.vpodUp) (pending Example.schedUp) /\
     autoscaleCalls s' = autoscaleCalls Example.schedUp).
Proof.
  split.
  - apply (proj1 (autoscaler_is_told_the_pending_total Example.schedUp
                    Example.vpodUp (Some []) 5)). lia.
  - apply (proj2 (autoscaler_is_told_the_pending_total Example.schedUp
                    Example.vpodUp (Some []) 0)). lia.
Defined.

(** X26. Conservation under the spread policies.  Scaling a well-formed
    vpod up under EVENSPREAD or EVENSPREAD_BYNODE, on a snapshot of fewer
    than 2^31 slots, does not panic: [addReplicasEvenSpread] returns
    placements and a remainder with placed plus remainder equal to the
    desired count, and [Schedule] returns these placements ordered by
    ordinal, with the error for not enough replicas and the remainder as
    the pending count of the vpod exactly when the remainder is
    positive. *)
Theorem even_spread_conservation (rt : Runtime) (s : StatefulSetScheduler)
    (vpod : VPod) (rsv : Reserved) (state : State) :
  stateBuilder_State (stateAccessor s) (reserved s) = Ok (rsv, inr state) ->
  isEvenSpread (schedulerPolicy (stateAccessor s)) = true ->
  stateOK state ->
  replicas s <= MaxInt32 ->
  wellFormedPlacements (statefulSetName s) (elems (GetPlacements vpod)) ->
  sumVReplicas (elems (GetPlacements vpod)) < GetVReplicas vpod <= MaxInt32 ->
  exists np nleft s',
    addReplicasEvenSpread (withReservedTable s rsv) state
      (GetVReplicas vpod - sumVReplicas (elems (GetPlacements vpod)))
      (elems (GetPlacements vpod))
      (ceilDiv rt (GetVReplicas vpod) (spreadDomains state)) = Ok (np, nleft) /\
    0 <= nleft <= GetVReplicas vpod - sumVReplicas (elems (GetPlacements vpod)) /\
    sumVReplicas np + nleft = GetVReplicas vpod /\
    Schedule rt s vpod
    = Ok (Some (Sort.SliceStable (keyLess ordinalOf) np),
          (if 0 <? nleft then Some ErrNotEnoughReplicas else None), s') /\
    sumVReplicas (Sort.SliceStable (keyLess ordinalOf) np) = sumVReplicas np /\
    pending s' !! GetKey vpod = (if 0 <? nleft then Some nleft else None).
Proof.
  intros Hst Hes Hok Hrep Hwf Hup.
  pose proof Hwf as (_ & _ & Hnn & Hmax).
  pose proof (sumVReplicas_nonneg _ Hnn) as Hsum0.
  assert (Ht : GetTotalVReplicas (GetPlacements vpod)
               = sumVReplicas (elems (GetPlacements vpod))).
  { rewrite GetTotalVReplicas_sum. apply int32_id.
    unfold in_int32, MinInt32. lia. }
  destruct (addReplicasEvenSpread_good (withReservedTable s rsv) state
              (elems (GetPlacements vpod))
              (ceilDiv rt (GetVReplicas vpod) (spreadDomains state))
              Hwf
              ltac:(unfold ceilDiv; destruct (_ =? 0); apply int32_range)
              (GetVReplicas vpod - sumVReplicas (elems (GetPlacements vpod)))
              Hok Hrep ltac:(lia) ltac:(lia))
    as (np & nleft & Hadd & Hleft & Hcons & _).
  assert (Hs : scheduleVPod rt s vpod
               = Ok (finishSchedule (withReservedTable s rsv) vpod (Some np) nleft)).
  { unfold scheduleVPod. rewrite Hst. simpl. rewrite Ht.
    destruct (Z.eqb_spec (sumVReplicas (elems (GetPlacements vpod)))
                (GetVReplicas vpod)); [lia |].
    rewrite (State_policy s rsv state Hst).
    assert (Hne : bool_decide (schedulerPolicy (stateAccessor s) = "") = false).
    { apply bool_decide_eq_false. intros Heq. rewrite Heq in Hes. done. }
    rewrite Hne. simpl.
    destruct (Z.ltb_spec (GetVReplicas vpod)
                (sumVReplicas (elems (GetPlacements vpod)))); [lia |].
    rewrite Hes.
    rewrite sub32_id by (unfold in_int32, MinInt32; lia).
    rewrite Hadd. done. }
  exists np, nleft.
  unfold finishSchedule in Hs.
  destruct (Z.ltb_spec 0 nleft).
  - eexists. split; [done |]. split; [done |]. split; [lia |].
    split; [by apply Schedule_sorts |].
    split; [apply sumVReplicas_perm, SliceStable_perm_any |].
    simpl. destruct (hasAutoscaler s); simpl; apply lookup_insert_eq.
  - eexists. split; [done |]. split; [done |]. split; [lia |].
    split; [by apply Schedule_sorts |].
    split; [apply sumVReplicas_perm, SliceStable_perm_any |].
    simpl. apply lookup_delete_eq.
Qed.

Lemma even_spread_conservation_witness :
  exists np nleft s',
    addReplicasEvenSpread (withReservedTable Example.schedSpread [])
      Example.stateSpread
      (GetVReplicas Example.vpodSpread
       - sumVReplicas (elems (GetPlacements Example.vpodSpread)))
      (elems (GetPlacements Example.vpodSpread))
      (ceilDiv Example.rt (GetVReplicas Example.vpodSpread)
         (spreadDomains Example.stateSpread)) = Ok (np, nleft) /\
    0 <= nleft <= GetVReplicas Example.vpodSpread
                   - sumVReplicas (elems (GetPlacements Example.vpodSpread)) /\
    sumVReplicas np + nleft = GetVReplicas Example.vpodSpread /\
    Schedule Example.rt Example.schedSpread Example.vpodSpread
    = Ok (Some (Sort.SliceStable (keyLess ordinalOf) np),
          (if 0 <? nleft then Some ErrNotEnoughReplicas else None), s') /\
    sumVReplicas (Sort.SliceStable (keyLess ordinalOf) np) = sumVReplicas np /\
    pending s' !! GetKey Example.vpodSpread
    = (if 0 <? nleft then Some nleft else None).
Proof.
  apply (even_spread_conservation Example.rt Example.schedSpread
           Example.vpodSpread [] Example.stateSpread).
  - vm_compute. reflexivity.
  - reflexivity.
  - unfold stateOK, MaxInt32. simpl. lia.
  - unfold MaxInt32. simpl. lia.
  - split; [| split].
    + simpl. repeat constructor. set_solver.
    + repeat constructor; vm_compute; congruence.
    + split; [repeat constructor; simpl; lia | vm_compute; congruence].
  - unfold MaxInt32. simpl. lia.
Defined.

Section policy_conservation.
Variables (rt : Runtime) (s : StatefulSetScheduler) (pol : Policy) (vpod : VPod).
Variable numVreps : Z.
Hypothesis Hrep : replicas s <= MaxInt32.
Hypothesis Hnum : 0 <= numVreps <= MaxInt32.

Lemma addReplicasWithPolicy_loop_conserves (n : nat) :
  forall (k diff : Z) (placements : option (list Placement)) (rsv : Reserved)
         (placements' : option (list Placement)) (diff' : Z) (rsv' : Reserved),
  0 <= k ->
  k + Z.of_nat n = numVreps ->
  diff = Z.of_nat n ->
  selectable (elems placements) ->
  sumVReplicas (elems placements) + Z.of_nat n <= MaxInt32 ->
  addReplicasWithPolicy_loop rt s pol vpod numVreps diff placements rsv
    (seqZ k (Z.of_nat n)) = Ok (placements', diff', rsv') ->
  0 <= diff' <= diff /\
  sumVReplicas (elems placements') + diff'
  = sumVReplicas (elems placements) + diff.
Proof.
  induction n as [|n IH];
    intros k diff placements rsv placements' diff' rsv' Hk Hend Hdiff Hsel Hsum.
  - simpl. intros [= <- <- _]. lia.
  - rewrite seqZ_cons by lia. simpl.
    destruct (stateBuilder_State (stateAccessor s) rsv) as [[rsv1 st]|];
      [| discriminate].
    simpl. destruct (policyRound rt s pol k st) as [round|] eqn:Hround;
      [| discriminate].
    simpl. destruct round as [| |podID].
    + intros [= <- <- _]. lia.
    + intros [= <- <- _].
      rewrite sub32_id by (unfold in_int32, MinInt32, MaxInt32 in *; lia). lia.
    + apply policyRound_selected in Hround.
      destruct (addSelectionToPlacements_one s podID
                  ltac:(unfold validOrdinal; lia) placements Hsel ltac:(lia))
        as (l' & -> & Hsel' & Hsum').
      replace (Z.pred (Z.of_nat (S n))) with (Z.of_nat n) by lia.
      intros H.
      apply (IH (Z.succ k) _ _ _ _ _ _ ltac:(lia) ltac:(lia)) in H.
      * simpl in H. rewrite Hsum' in H.
        rewrite sub32_id in H by (unfold in_int32, MinInt32, MaxInt32 in *; lia).
        lia.
      * rewrite sub32_id by (unfold in_int32, MinInt32, MaxInt32 in *; lia). lia.
      * done.
      * simpl. lia.
Qed.

End policy_conservation.

(** X27. Conservation on the predicate/priority path.  When the policy
    type is unset, the plugin policy is valid and a vpod whose committed
    list has one entry per pod name and per ordinal, with non-negative
    counts, wants more vreplicas than it has, then whatever the plugins,
    the state builds along the way and the random source do, a call of
    [Schedule] that returns gives placements whose total, together with
    the pending count it records for the vpod, is the desired count; it
    reports the error for not enough replicas exactly when it records a
    pending count. *)
Theorem policy_path_conservation (rt : Runtime) (s : StatefulSetScheduler)
    (vpod : VPod) (pol : Policy) (rsv : Reserved) (state : State)
    (placements : option (list Placement)) (e : option error)
    (s' : StatefulSetScheduler) :
  stateBuilder_State (stateAccessor s) (reserved s) = Ok (rsv, inr state) ->
  schedulerPolicy (stateAccessor s) = "" ->
  policy s = Some pol ->
  ValidatePolicy rt pol = [] ->
  replicas s <= MaxInt32 ->
  selectable (elems (GetPlacements vpod)) ->
  sumVReplicas (elems (GetPlacements vpod)) < GetVReplicas vpod <= MaxInt32 ->
  Schedule rt s vpod = Ok (placements, e, s') ->
  sumVReplicas (elems placements) + default 0 (pending s' !! GetKey vpod)
  = GetVReplicas vpod /\
  (e = Some ErrNotEnoughReplicas /\ is_Some (pending s' !! GetKey vpod) \/
   e = None /\ pending s' !! GetKey vpod = None).
Proof.
  intros Hst Hpol Hp Hvalid Hrep Hsel Hup HS.
  destruct Hsel as (Hnd & Hndo & Hnn).
  pose proof (sumVReplicas_nonneg _ Hnn) as Hsum0.
  assert (Ht : GetTotalVReplicas (GetPlacements vpod)
               = sumVReplicas (elems (GetPlacements vpod))).
  { rewrite GetTotalVReplicas_sum. apply int32_id.
    unfold in_int32, MinInt32. lia. }
  set (diff := GetVReplicas vpod - sumVReplicas (elems (GetPlacements vpod))) in *.
  unfold Schedule in HS.
  destruct (scheduleVPod rt s vpod) as [[[ps0 e0] s0]|] eqn:Hs; [| discriminate].
  unfold scheduleVPod in Hs. rewrite Hst in Hs. simpl in Hs. rewrite Ht in Hs.
  destruct (Z.eqb_spec (sumVReplicas (elems (GetPlacements vpod)))
              (GetVReplicas vpod)); [lia |].
  rewrite (State_policy s rsv state Hst), Hpol in Hs. simpl in Hs.
  rewrite Hp, Hvalid in Hs.
  rewrite sub32_id in Hs by (unfold in_int32, MinInt32; lia). fold diff in Hs.
  unfold addReplicasWithPolicy in Hs.
  destruct (addReplicasWithPolicy_loop rt (withReservedTable s rsv) pol vpod
              diff diff (GetPlacements vpod)
              (reserved (withReservedTable s rsv)) (seqZ 0 diff))
    as [[[placements1 nleft] rsv1]|] eqn:Hloop; [| discriminate].
  simpl in Hs.
  replace diff with (Z.of_nat (Z.to_nat diff)) in Hloop at 3 by (unfold diff; lia).
  apply (addReplicasWithPolicy_loop_conserves rt (withReservedTable s rsv) pol
           vpod diff Hrep ltac:(unfold diff; lia)) in Hloop;
    [| lia | unfold diff; lia | unfold diff; lia | done | unfold diff; lia].
  destruct Hloop as [Hleft Hcons].
  assert (Hfin : sumVReplicas (elems ps0) + default 0 (pending s0 !! GetKey vpod)
                 = GetVReplicas vpod /\
                 (e0 = Some ErrNotEnoughReplicas /\ is_Some (pending s0 !! GetKey vpod)
                  \/ e0 = None /\ pending s0 !! GetKey vpod = None)).
  { unfold finishSchedule in Hs. destruct (Z.ltb_spec 0 nleft).
    - injection Hs as <- <- <-. simpl.
      assert (Hl : pending
                     (if hasAutoscaler s
                      then withAutoscaleCall
                             (withPending (withReservedTable
                                             (withReservedTable s rsv) rsv1)
                                (<[GetKey vpod := nleft]> (pending s)))
                             (pendingVReplicas
                                (withPending (withReservedTable
                                                (withReservedTable s rsv) rsv1)
                                   (<[GetKey vpod := nleft]> (pending s))))
                      else withPending (withReservedTable
                                          (withReservedTable s rsv) rsv1)
                             (<[GetKey vpod := nleft]> (pending s)))
                   !! GetKey vpod = Some nleft).
      { destruct (hasAutoscaler s); simpl; apply lookup_insert_eq. }
      rewrite Hl. simpl. split; [unfold diff in *; lia |]. left. by split.
    - injection Hs as <- <- <-. simpl. rewrite lookup_delete_eq. simpl.
      split; [unfold diff in *; lia |]. right. done. }
  destruct ps0 as [l0|].
  - injection HS as <- <- <-. simpl in *.
    rewrite (sumVReplicas_perm _ _ (SliceStable_perm_any _ l0)). exact Hfin.
  - injection HS as <- <- <-. exact Hfin.
Qed.

Lemma policy_path_conservation_witness :
  sumVReplicas (elems (Some [Example.P "pool-0" 2; Example.P "pool-1" 1]))
  + default 0 (pending Example.schedPlug_final !! GetKey Example.vpodPlug)
  = GetVReplicas Example.vpodPlug /\
  ((None : option error) = Some ErrNotEnoughReplicas /\
   is_Some (pending Example.schedPlug_final !! GetKey Example.vpodPlug) \/
   (None : option error) = None /\
   pending Example.schedPlug_final !! GetKey Example.vpodPlug = None).
Proof.
  apply (policy_path_conservation Example.rtBuiltin Example.schedPlug
           Example.vpodPlug Example.lowestPolicy []
           (mkState [10; 9] 1 10 0 0 "" ∅)
           (Some [Example.P "pool-0" 2; Example.P "pool-1" 1]) None
           Example.schedPlug_final).
  - vm_compute. reflexivity.
  - reflexivity.
  - reflexivity.
  - reflexivity.
  - unfold MaxInt32. simpl. lia.
  - split; [| split].
    + simpl. repeat constructor. set_solver.
    + simpl. repeat constructor. set_solver.
    + repeat constructor. simpl. lia.
  - unfold MaxInt32. simpl. lia.
  - vm_compute. reflexivity.
Defined.

(** X28. Grouping by failure domain.  [getPlacementsByZoneKey] and
    [getPlacementsByNodeKey] map every zone, respectively node, to the
    ordinals of the placements whose pod lies there, in the order of the
    list (no entry, read as the empty list, for a domain without
    placement); a pod that the pod lister does not know is filed under
    the empty zone and node name; and for non-negative counts of int32
    total, [getTotalVReplicasInZone] and [getTotalVReplicasInNode] are
    the exact totals of the vreplicas of the placements in the domain. *)
Theorem placements_by_zone_and_node (s : StatefulSetScheduler) (state : State)
    (placements : list Placement) :
  (forall d,
     default [] (getPlacementsByZoneKey s state placements !! d)
     = map ordinalOf
         (filter (fun p => podZone s state (PodName p) = d) placements)) /\
  (forall d,
     default [] (getPlacementsByNodeKey s state placements !! d)
     = map ordinalOf
         (filter (fun p => podNode s state (PodName p) = d) placements)) /\
  (forall podName,
     podLister s !! podName = None ->
     podZone s state podName = "" /\ podNode s state podName = "") /\
  (wellFormedTotals placements ->
   forall d,
     getTotalVReplicasInZone s state placements d
     = sumVReplicas
         (filter (fun p => podZone s state (PodName p) = d) placements) /\
     getTotalVReplicasInNode s state placements d
     = sumVReplicas
         (filter (fun p => podNode s state (PodName p) = d) placements)).
Proof.
  split; [| split; [| split]].
  - intros d. unfold getPlacementsByZoneKey.
    apply (group_fold (podZone s state) placements [] ∅). intros d'.
    by rewrite lookup_empty.
  - intros d. unfold getPlacementsByNodeKey.
    apply (group_fold (podNode s state) placements [] ∅). intros d'.
    by rewrite lookup_empty.
  - intros podName Hnone. unfold podZone, podNode, getPodInfo.
    by rewrite Hnone.
  - intros [Hnn Hsum] d. split.
    + unfold getTotalVReplicasInZone.
      rewrite (domain_total_fold (podZone s state) d placements 0); [lia | done | lia | lia].
    + unfold getTotalVReplicasInNode.
      rewrite (domain_total_fold (podNode s state) d placements 0); [lia | done | lia | lia].
Qed.

Lemma placements_by_zone_and_node_witness :
  (forall podName,
     podLister Example.schedSpread !! podName = None ->
     podZone Example.schedSpread Example.stateSpread podName = "" /\
     podNode Example.schedSpread Example.stateSpread podName = "") /\
  (forall d,
     getTotalVReplicasInZone Example.schedSpread Example.stateSpread
       [Example.P "pool-0" 2; Example.P "pool-1" 2; Example.P "pool-9" 1] d
     = sumVReplicas
         (filter (fun p => podZone Example.schedSpread Example.stateSpread
                             (PodName p) = d)
            [Example.P "pool-0" 2; Example.P "pool-1" 2; Example.P "pool-9" 1]) /\
     getTotalVReplicasInNode Example.schedSpread Example.stateSpread
       [Example.P "pool-0" 2; Example.P "pool-1" 2; Example.P "pool-9" 1] d
     = sumVReplicas
         (filter (fun p => podNode Example.schedSpread Example.stateSpread
                             (PodName p) = d)
            [Example.P "pool-0" 2; Example.P "pool-1" 2; Example.P "pool-9" 1])).
Proof.
  destruct (placements_by_zone_and_node Example.schedSpread Example.stateSpread
              [Example.P "pool-0" 2; Example.P "pool-1" 2; Example.P "pool-9" 1])
    as (_ & _ & H3 & H4).
  split; [exact H3 |]. apply H4.
  split; [repeat constructor; simpl; lia | vm_compute; congruence].
Defined.

(** ** MAXFILLUP fills every pod before it gives up *)

Section max_fill_up.

Lemma addReplicas_additional_fills (name : string) (ordinals : list Z) :
  forall (st : State) (diff : Z) (np : list Placement),
  stateOK st ->
  Forall validOrdinal ordinals ->
  0 < diff <= MaxInt32 ->
  exists st' diff' np',
    addReplicas_additional name st diff np ordinals = Ok (st', diff', np') /\
    0 <= diff' /\
    (forall o, 0 <= o -> freeAt st o <= 0 -> freeAt st' o <= 0) /\
    (0 < diff' -> Forall (fun o => freeAt st' o <= 0) ordinals).
Proof.
  induction ordinals as [|o r IH]; intros st diff np Hok Hord Hd.
  - exists st, diff, np. simpl. split; [done |]. split; [lia |].
    split; [done |]. constructor.
  - apply Forall_cons in Hord as [[Ho1 Ho2] Hord].
    simpl. rewrite (Free_freeAt st o Hok Ho1). simpl.
    destruct (Z.ltb_spec 0 (freeAt st o)) as [Hf | Hf].
    + rewrite Int32Min_spec.
      set (a := Z.min (freeAt st o) diff).
      assert (Ha : 0 < a <= diff /\ a <= freeAt st o) by lia.
      destruct (SetFree_spec st o (sub32 (freeAt st o) a) Hok (conj Ho1 Ho2))
        as (st1 & -> & Hok1 & Hat & Hother & _).
      simpl.
      rewrite (sub32_id diff a)
        by (unfold in_int32, MinInt32, MaxInt32 in *; lia).
      assert (Hkeep : forall o', 0 <= o' -> freeAt st o' <= 0 ->
                                 freeAt st1 o' <= 0).
      { intros o' Ho' Hle. rewrite Hother; [done | done | intros ->; lia]. }
      destruct (Z.eqb_spec (diff - a) 0) as [Hz | Hnz].
      * exists st1, (diff - a), (np ++ [{| PodName := PodNameFromOrdinal name o;
                                           VReplicas := a |}]).
        split; [done |]. split; [lia |]. split; [exact Hkeep |]. lia.
      * destruct (IH st1 (diff - a)
                    (np ++ [{| PodName := PodNameFromOrdinal name o;
                               VReplicas := a |}])
                    Hok1 Hord ltac:(lia))
          as (st' & diff' & np' & -> & Hd' & P1 & P2).
        exists st', diff', np'. split; [done |]. split; [done |]. split.
        -- intros o' Ho' Hle. apply P1; [done |]. by apply Hkeep.
        -- intros Hpos. constructor; [| by apply P2].
           apply P1; [done |]. rewrite Hat.
           assert (Ha' : a = freeAt st o) by lia.
           rewrite Ha'. unfold sub32. by rewrite Z.sub_diag.
    + simpl. destruct (Z.eqb_spec diff 0) as [Hz | Hnz]; [lia |].
      destruct (IH st diff np Hok Hord Hd) as (st' & diff' & np' & -> & Hd' & P1 & P2).
      exists st', diff', np'. split; [done |]. split; [done |].
      split; [exact P1 |].
      intros Hpos. constructor; [by apply P1 | by apply P2].
Qed.

End max_fill_up.

(** X29. MAXFILLUP gives up only when every pod is full.  For committed
    placements at ordinals in [0, MaxInt32) with non-negative counts and
    an int32 total, on a snapshot of fewer than 2^31 slots, the two loops
    of [addReplicas] run without a panic; when the first loop leaves
    vreplicas to place the second loop runs, and when it too leaves some
    ([left > 0], reported as "not enough replicas"), the snapshot that
    the loops have updated holds no free capacity at any ordinal of the
    statefulset, [0 <= o < replicas], nor at the ordinal of any committed
    placement. *)
Theorem addReplicas_fills_every_pod (s : StatefulSetScheduler) (st : State)
    (diff : Z) (placements : list Placement) :
  stateOK st ->
  replicas s <= MaxInt32 ->
  Forall (fun p => validOrdinal (ordinalOf p)) placements ->
  Forall (fun p => 0 <= VReplicas p) placements ->
  0 <= diff ->
  sumVReplicas placements + diff <= MaxInt32 ->
  exists st1 diff1 np1,
    addReplicas_existing st diff [] placements = Ok (st1, diff1, np1) /\
    (diff1 <= 0 -> addReplicas s st diff placements = Ok (np1, diff1)) /\
    (0 < diff1 ->
     exists st2 left np2,
       addReplicas_additional (statefulSetName s) st1 diff1 np1
         (seqZ 0 (replicas s)) = Ok (st2, left, np2) /\
       addReplicas s st diff placements = Ok (np2, left) /\
       (0 < left ->
        (forall o, 0 <= o < replicas s -> freeAt st2 o <= 0) /\
        Forall (fun p => freeAt st2 (ordinalOf p) <= 0) placements)).
Proof.
  intros Hok Hrep Hord Hnn Hd Hsum.
  destruct (addReplicas_existing_spec placements st diff [] Hok Hord Hnn Hd Hsum)
    as (st1 & diff1 & added1 & He & Hok1 & Hd1 & _ & _ & _ & _ & P2).
  simpl in He. exists st1, diff1, added1. split; [exact He |].
  pose proof (sumVReplicas_nonneg _ Hnn) as Hs0.
  split.
  - intros Hz. unfold addReplicas. rewrite He. simpl.
    destruct (Z.ltb_spec 0 diff1); [lia | done].
  - intros Hpos.
    destruct (addReplicas_additional_fills (statefulSetName s)
                (seqZ 0 (replicas s)) st1 diff1 added1 Hok1
                (seqZ_valid _ Hrep) ltac:(lia))
      as (st2 & left & np2 & Ha & Hl & Q1 & Q2).
    exists st2, left, np2. split; [exact Ha |]. split.
    + unfold addReplicas. rewrite He. simpl.
      destruct (Z.ltb_spec 0 diff1); [| lia]. rewrite Ha. done.
    + intros Hleft. specialize (Q2 Hleft). specialize (P2 Hpos). split.
      * intros o Ho. rewrite Forall_forall in Q2. apply Q2.
        apply elem_of_seqZ. lia.
      * rewrite Forall_forall in P2. apply Forall_forall. intros p Hp.
        apply Q1; [| by apply P2].
        rewrite Forall_forall in Hord. destruct (Hord p Hp). done.
Qed.

Lemma addReplicas_fills_every_pod_witness :
  exists st1 diff1 np1,
    addReplicas_existing (mkState [9; 9] 1 10 0 0 MAXFILLUP ∅) (25 - 2) []
      [Example.P "pool-1" 1; Example.P "pool-0" 1] = Ok (st1, diff1, np1) /\
    (diff1 <= 0 ->
     addReplicas Example.schedUp (mkState [9; 9] 1 10 0 0 MAXFILLUP ∅) (25 - 2)
       [Example.P "pool-1" 1; Example.P "pool-0" 1] = Ok (np1, diff1)) /\
    (0 < diff1 ->
     exists st2 left np2,
       addReplicas_additional (statefulSetName Example.schedUp) st1 diff1 np1
         (seqZ 0 (replicas Example.schedUp)) = Ok (st2, left, np2) /\
       addReplicas Example.schedUp (mkState [9; 9] 1 10 0 0 MAXFILLUP ∅) (25 - 2)
         [Example.P "pool-1" 1; Example.P "pool-0" 1] = Ok (np2, left) /\
       (0 < left ->
        (forall o, 0 <= o < replicas Example.schedUp -> freeAt st2 o <= 0) /\
        Forall (fun p => freeAt st2 (ordinalOf p) <= 0)
          [Example.P "pool-1" 1; Example.P "pool-0" 1])).
Proof.
  apply (addReplicas_fills_every_pod Example.schedUp
           (mkState [9; 9] 1 10 0 0 MAXFILLUP ∅) (25 - 2)
           [Example.P "pool-1" 1; Example.P "pool-0" 1]).
  - unfold stateOK, MaxInt32. simpl. lia.
  - unfold MaxInt32. simpl. lia.
  - repeat constructor; vm_compute; congruence.
  - repeat constructor; simpl; lia.
  - lia.
  - unfold MaxInt32. simpl. lia.
Defined.

(** ** A spread policy caps what a failure domain receives *)

Section even_spread_cap.
Variables (s : StatefulSetScheduler) (st0 : State).
Variable placements : list Placement.
Variable evenSpread : Z.
Hypothesis Hwf : wellFormedPlacements (statefulSetName s) placements.
Hypothesis Hes : in_int32 evenSpread.

Lemma totalBy_own_domain (l : list Placement) (d : string) :
  Forall (fun p => domainOf s st0 (PodName p) = d) l ->
  totalBy s st0 l d = sumVReplicas l.
Proof.
  intros H. unfold totalBy, groupOf.
  induction H as [|p l Hp Hl IH]; [done |].
  rewrite filter_cons, decide_True by done. simpl. by rewrite IH.
Qed.

Lemma totalBy_other_domain (l : list Placement) (d : string) :
  Forall (fun p => domainOf s st0 (PodName p) <> d) l ->
  totalBy s st0 l d = 0.
Proof.
  intros H. unfold totalBy, groupOf.
  induction H as [|p l Hp Hl IH]; [done |].
  by rewrite filter_cons, decide_False.
Qed.

Lemma names_in_domains (l : list Placement) (ds : list string) :
  map PodName l
    = map PodName (concat (map (groupOf s st0 placements) ds)) ->
  Forall (fun p => domainOf s st0 (PodName p) ∈ ds) l.
Proof.
  intros Hnames. apply Forall_forall. intros p Hp.
  assert (Hn : PodName p ∈ map PodName l) by (apply list_elem_of_fmap; eauto).
  rewrite Hnames in Hn. apply list_elem_of_fmap in Hn as (q & -> & Hq).
  clear Hnames Hp. induction ds as [|d ds IH]; simpl in Hq.
  - by apply elem_of_nil in Hq.
  - apply elem_of_app in Hq as [Hq | Hq].
    + apply list_elem_of_filter in Hq as [<- _]. by left.
    + right. by apply IH.
Qed.

Lemma addToDomain_cap (ordinals : list Z) :
  forall (st : State) (diff totalInDomain : Z) (np : list Placement)
         (st' : State) (diff' : Z) (np' : list Placement),
  stateOK st ->
  Forall validOrdinal ordinals ->
  0 <= diff <= MaxInt32 ->
  0 <= totalInDomain ->
  addToDomain s placements evenSpread st diff totalInDomain np ordinals
    = Ok (st', diff', np') ->
  diff' <= diff /\
  totalInDomain + (diff - diff') <= Z.max totalInDomain evenSpread.
Proof.
  induction ordinals as [|o r IH];
    intros st diff T np st' diff' np' Hok Hord Hd HT H.
  - simpl in H. injection H as <- <- <-. lia.
  - apply Forall_cons in Hord as [[Ho1 Ho2] Hord].
    simpl in H. rewrite (Free_freeAt st o Hok Ho1) in H. simpl in H.
    destruct (Z.leb_spec 0 diff); [| lia]. simpl in H.
    destruct (Z.ltb_spec 0 (freeAt st o)) as [Hf | Hf];
      [destruct (Z.ltb_spec T evenSpread) as [HTe | HTe] |]; simpl in H.
    + assert (Hsub : sub32 evenSpread T = evenSpread - T).
      { apply sub32_id. unfold in_int32, MinInt32, MaxInt32 in *. lia. }
      rewrite !Int32Min_spec, Hsub in H.
      set (a := Z.min diff (Z.min (freeAt st o) (evenSpread - T))) in *.
      assert (Ha : 0 <= a <= diff /\ a <= evenSpread - T) by lia.
      destruct (SetFree_spec st o (sub32 (freeAt st o) a) Hok (conj Ho1 Ho2))
        as (st1 & Heq & Hok1 & _).
      rewrite Heq in H. simpl in H.
      rewrite (sub32_id diff a) in H by (unfold in_int32, MinInt32; lia).
      rewrite (add32_id T a) in H
        by (unfold in_int32, MinInt32, MaxInt32 in *; lia).
      apply IH in H; [lia | done | done | lia | lia].
    + apply IH in H; [lia | done | done | lia | lia].
    + apply IH in H; [lia | done | done | lia | lia].
Qed.

Lemma addToDomains_cap (domainNames : list string) :
  NoDup domainNames ->
  forall (st : State) (diff : Z) (np : list Placement)
         (st' : State) (diff' : Z) (added : list Placement),
  stateOK st ->
  sameDomains st0 st ->
  0 <= diff ->
  sumVReplicas placements + diff <= MaxInt32 ->
  addToDomains s placements evenSpread
    (placementsByDomainOf s st0 placements) st diff np domainNames
    = Ok (st', diff', np ++ added) ->
  forall d,
    totalBy s st0 added d <= Z.max (totalBy s st0 placements d) evenSpread.
Proof.
  pose proof Hwf as (Hnd & Hw & Hnn & Hmax).
  induction 1 as [|d r Hnotin Hndr IH];
    intros st diff np st' diff' added Hok Hsame Hd Hsum H d'.
  - simpl in H. injection H as _ _ H.
    rewrite <- (app_nil_r np) in H at 1. apply app_inv_head in H as <-.
    pose proof (totalBy_nonneg s st0 placements d' Hnn).
    change (totalBy s st0 [] d') with 0. lia.
  - simpl in H. rewrite placementsByDomainOf_lookup in H.
    assert (HT : totalInDomainOf s st placements d = totalBy s st0 placements d).
    { rewrite totalInDomainOf_exact by done. by apply totalBy_same. }
    rewrite HT in H.
    pose proof (totalBy_nonneg s st0 placements d Hnn) as HT0.
    destruct (addToDomain_spec s placements evenSpread Hwf Hes
                (map ordinalOf (groupOf s st0 placements d))
                st diff (totalBy s st0 placements d) np Hok
                (wellFormed_valid_ordinals s st0 placements Hwf d) Hd Hsum HT0)
      as (st1 & diff1 & added1 & He1 & Hok1 & Hsame1 & Hd1 & Hnames1 & Hs1 & Hnn1
          & _).
    rewrite (getPlacement_group s st0 placements d Hwf) in Hnames1, Hs1.
    pose proof (sumVReplicas_nonneg _ Hnn) as Hs0.
    assert (Hd32 : 0 <= diff <= MaxInt32) by lia.
    pose proof (addToDomain_cap _ _ _ _ _ _ _ _ Hok
                  (wellFormed_valid_ordinals s st0 placements Hwf d)
                  Hd32 HT0 He1)
      as [_ Hcap1].
    rewrite He1 in H. simpl in H.
    destruct (addToDomains_spec s st0 placements evenSpread Hwf Hes r
                st1 diff1 (np ++ added1) Hok1
                (sameDomains_trans _ _ _ Hsame Hsame1) ltac:(lia) ltac:(lia))
      as (st2 & diff2 & added2 & He2 & _ & _ & _ & Hnames2 & _ & Hnn2 & _).
    pose proof H as H'. rewrite He2 in H'. injection H' as _ _ Happ.
    rewrite <- app_assoc in Happ. apply app_inv_head in Happ. subst added.
    rewrite app_assoc in H.
    specialize (IH st1 diff1 (np ++ added1) st' diff' added2 Hok1
                  (sameDomains_trans _ _ _ Hsame Hsame1) ltac:(lia) ltac:(lia) H d').
    rewrite totalBy_app.
    assert (Hall1 : Forall (fun p => domainOf s st0 (PodName p) = d) added1).
    { assert (Hn : map PodName added1
                   = map PodName (concat (map (groupOf s st0 placements) [d])))
        by (simpl; by rewrite app_nil_r).
      apply names_in_domains in Hn.
      eapply Forall_impl; [exact Hn |]. simpl. intros p Hp.
      by apply list_elem_of_singleton in Hp. }
    pose proof (names_in_domains added2 r Hnames2) as Hall2.
    destruct (decide (d' = d)) as [-> | Hne].
    + rewrite (totalBy_own_domain added1 d Hall1), Hs1.
      rewrite (totalBy_other_domain added2 d).
      * unfold totalBy in Hcap1 |- *. lia.
      * eapply Forall_impl; [exact Hall2 |]. simpl. intros p Hp Heq.
        by rewrite Heq in Hp.
    + rewrite (totalBy_other_domain added1 d'); [lia |].
      eapply Forall_impl; [exact Hall1 |]. simpl. intros p Hp Heq. congruence.
Qed.

Lemma addToNewReplicas_loop_cap (bound : string -> Z) (ordinals : list Z) :
  (forall d, evenSpread <= bound d) ->
  forall (st : State) (diff : Z) (np : list Placement)
         (st' : State) (diff' : Z) (np' : list Placement),
  stateOK st ->
  sameDomains st0 st ->
  Forall validOrdinal ordinals ->
  0 <= diff ->
  sumVReplicas np + diff <= MaxInt32 ->
  Forall (fun p => 0 <= VReplicas p) np ->
  (forall d, totalBy s st0 np d <= bound d) ->
  addToNewReplicas_loop s evenSpread st diff np ordinals = Ok (st', diff', np') ->
  forall d, totalBy s st0 np' d <= bound d.
Proof.
  intros HB.
  induction ordinals as [|o r IH];
    intros st diff np st' diff' np' Hok Hsame Hord Hd Hsum Hnn Hinv H.
  - simpl in H. by injection H as <- <- <-.
  - apply Forall_cons in Hord as [[Ho1 Ho2] Hord].
    pose proof (sumVReplicas_nonneg _ Hnn) as Hnp0.
    simpl in H. rewrite (Free_freeAt st o Hok Ho1) in H. simpl in H.
    destruct (Z.ltb_spec 0 (freeAt st o)) as [Hf | Hf].
    + destruct (getPodInfo s st (PodNameFromOrdinal (statefulSetName s) o))
        as [[zoneName nodeName] ok] eqn:Hinfo.
      destruct ok; simpl in H; [| exact (IH st diff np st' diff' np' Hok Hsame Hord Hd Hsum Hnn Hinv H)].
      rewrite (total_of_new_pod _ _ _ _ _ _ _ Hinfo) in H.
      rewrite totalInDomainOf_exact in H by (done || lia).
      rewrite (totalBy_same s st0 st _ _ Hsame) in H.
      rewrite (domainOf_same s st0 st _ Hsame) in H.
      set (d := domainOf s st0 (PodNameFromOrdinal (statefulSetName s) o)) in *.
      pose proof (totalBy_nonneg s st0 np d Hnn) as HT0.
      pose proof (totalBy_le s st0 np d Hnn) as HTle.
      destruct (Z.leb_spec evenSpread (totalBy s st0 np d)) as [Hfull | Hroom];
        [exact (IH st diff np st' diff' np' Hok Hsame Hord Hd Hsum Hnn Hinv H) |].
      assert (Hsub : sub32 evenSpread (totalBy s st0 np d)
                     = evenSpread - totalBy s st0 np d).
      { apply sub32_id. unfold in_int32, MinInt32, MaxInt32 in *. lia. }
      rewrite !Int32Min_spec, Hsub in H.
      set (a := Z.min diff (Z.min (freeAt st o) (evenSpread - totalBy s st0 np d)))
        in *.
      assert (Ha : 0 <= a <= diff /\ a <= evenSpread - totalBy s st0 np d) by lia.
      destruct (SetFree_spec st o (sub32 (freeAt st o) a) Hok (conj Ho1 Ho2))
        as (st1 & Heq & Hok1 & _ & _ & Hsame1).
      rewrite Heq in H. simpl in H.
      rewrite (sub32_id diff a) in H by (unfold in_int32, MinInt32; lia).
      set (e := {| PodName := PodNameFromOrdinal (statefulSetName s) o;
                   VReplicas := a |}) in *.
      assert (Hinv' : forall d', totalBy s st0 (np ++ [e]) d' <= bound d').
      { intros d'. rewrite totalBy_app. specialize (Hinv d'). specialize (HB d').
        destruct (decide (d' = d)) as [-> | Hne].
        - rewrite (totalBy_own_domain [e] d) by (by repeat constructor).
          simpl. lia.
        - rewrite (totalBy_other_domain [e] d'); [lia |].
          repeat constructor. simpl. fold d. congruence. }
      assert (Hnn' : Forall (fun p => 0 <= VReplicas p) (np ++ [e])).
      { apply Forall_app. split; [done |]. repeat constructor. simpl. lia. }
      assert (Hsum' : sumVReplicas (np ++ [e]) = sumVReplicas np + a).
      { rewrite sumVReplicas_app. simpl. lia. }
      destruct (Z.eqb_spec (diff - a) 0) as [Hz | Hz].
      * injection H as <- <- <-. exact Hinv'.
      * eapply (IH st1 (diff - a) (np ++ [e])); [done | | done | lia | lia | done | done | exact H].
        by eapply sameDomains_trans.
    + simpl in H. destruct (Z.eqb_spec diff 0) as [Hz | Hz].
      * by injection H as <- <- <-.
      * exact (IH st diff np st' diff' np' Hok Hsame Hord Hd Hsum Hnn Hinv H).
Qed.

Lemma addReplicasEvenSpread_cap (diff : Z) (np : list Placement) (nleft : Z) :
  stateOK st0 ->
  replicas s <= MaxInt32 ->
  0 <= diff ->
  sumVReplicas placements + diff <= MaxInt32 ->
  addReplicasEvenSpread s st0 diff placements evenSpread = Ok (np, nleft) ->
  forall d,
    totalBy s st0 np d <= Z.max (totalBy s st0 placements d) evenSpread.
Proof.
  intros Hok Hrep Hd Hsum H.
  unfold addReplicasEvenSpread, addToExistingReplicas in H.
  destruct (addToDomains_spec s st0 placements evenSpread Hwf Hes
              (sortedDomainNames (placementsByDomainOf s st0 placements))
              st0 diff [] Hok (sameDomains_refl st0) Hd Hsum)
    as (st1 & diff1 & added & He & Hok1 & Hsame1 & Hd1 & Hnames & Hs & Hnn & _).
  pose proof (addToDomains_cap _ (sortedDomainNames_NoDup _) _ _ _ _ _ _
                Hok (sameDomains_refl st0) Hd Hsum He) as Hcap1.
  rewrite He in H. simpl in H.
  pose proof (groups_perm s st0 placements) as Hperm.
  rewrite (sumVReplicas_perm _ _ Hperm) in Hs.
  destruct (Z.ltb_spec 0 diff1) as [Hpos | Hz].
  - unfold addToNewReplicas in H.
    destruct (addToNewReplicas_loop s evenSpread st1 diff1 added
                (seqZ 0 (replicas s))) as [[[st2 diff2] np2]|] eqn:E;
      simpl in H; [| discriminate].
    injection H as <- <-.
    eapply (addToNewReplicas_loop_cap
              (fun d => Z.max (totalBy s st0 placements d) evenSpread));
      [intros; lia | exact Hok1 | exact Hsame1 | exact (seqZ_valid _ Hrep)
      | | | exact Hnn | exact Hcap1 | exact E]; lia.
  - injection H as <- <-. exact Hcap1.
Qed.

End even_spread_cap.

(** X30. A spread policy caps what a failure domain receives.  Scaling
    up a vpod with a well-formed committed list under EVENSPREAD (zones)
    or EVENSPREAD_BYNODE (nodes) returns placements in which no domain
    holds more vreplicas, as [getTotalVReplicasInZone] or
    [getTotalVReplicasInNode] count them, than the larger of [evenSpread]
    and what the domain held before; so a domain that has gained
    vreplicas holds at most [evenSpread]. *)
Theorem even_spread_caps_every_domain (s : StatefulSetScheduler) (st0 : State)
    (placements : list Placement) (evenSpread diff : Z) :
  wellFormedPlacements (statefulSetName s) placements ->
  in_int32 evenSpread ->
  stateOK st0 ->
  replicas s <= MaxInt32 ->
  0 <= diff ->
  sumVReplicas placements + diff <= MaxInt32 ->
  exists np nleft,
    addReplicasEvenSpread s st0 diff placements evenSpread = Ok (np, nleft) /\
    forall d,
      totalInDomainOf s st0 np d
        <= Z.max (totalInDomainOf s st0 placements d) evenSpread /\
      (totalInDomainOf s st0 placements d < totalInDomainOf s st0 np d ->
       totalInDomainOf s st0 np d <= evenSpread).
Proof.
  intros Hwf Hes Hok Hrep Hd Hsum.
  destruct (addReplicasEvenSpread_good s st0 placements evenSpread Hwf Hes diff
              Hok Hrep Hd Hsum) as (np & nleft & He & Hl & Hs & _ & Hnn).
  exists np, nleft. split; [exact He |]. intros d.
  pose proof (addReplicasEvenSpread_cap s st0 placements evenSpread Hwf Hes
                diff np nleft Hok Hrep Hd Hsum He d) as Hcap.
  destruct Hwf as (_ & _ & Hnn0 & Hmax).
  rewrite !totalInDomainOf_exact by (done || lia). lia.
Qed.

Lemma even_spread_caps_every_domain_witness :
  exists np nleft,
    addReplicasEvenSpread Example.schedSpread Example.stateSpread 4
      [Example.P "pool-0" 1] 2 = Ok (np, nleft) /\
    forall d,
      totalInDomainOf Example.schedSpread Example.stateSpread np d
        <= Z.max (totalInDomainOf Example.schedSpread Example.stateSpread
                    [Example.P "pool-0" 1] d) 2 /\
      (totalInDomainOf Example.schedSpread Example.stateSpread
         [Example.P "pool-0" 1] d
       < totalInDomainOf Example.schedSpread Example.stateSpread np d ->
       totalInDomainOf Example.schedSpread Example.stateSpread np d <= 2).
Proof.
  apply (even_spread_caps_every_domain Example.schedSpread Example.stateSpread
           [Example.P "pool-0" 1] 2 4).
  - split; [| split].
    + simpl. repeat constructor. set_solver.
    + repeat constructor; vm_compute; congruence.
    + split; [repeat constructor; simpl; lia | vm_compute; congruence].
  - unfold in_int32, MinInt32, MaxInt32. lia.
  - unfold stateOK, MaxInt32. simpl. lia.
  - unfold MaxInt32. simpl. lia.
  - lia.
  - unfold MaxInt32. simpl. lia.
Defined.
